(** * GPT-2 reference implementation (train_gpt2.py): model and properties

    A shallow embedding of the model code of [train_gpt2.py]: the modules
    [NewGELU], [CausalSelfAttention], [MLP], [Block] and [GPT] (forward pass,
    loading of pretrained weights, generation) and the writers of the binary
    checkpoint.

    Conventions.
    - Python exceptions are values of [exn]; a function that can raise
      returns a [result].
    - Tensor entries range over a type [F] with the operations of the class
      [Scalar]; nothing is assumed about them unless a theorem says so.  The
      instance [R_Scalar] interprets them as real numbers.
    - A tensor whose [size()] the code reads carries its size next to its
      entries ([Tensor3], [LongTensor]); [wf_Tensor3] says that the entries
      fill exactly that size.
    - An entry that may be [float('-inf')] has type [option F], [None] being
      minus infinity. *)

From Stdlib Require Import String Ascii DecimalString DecimalNat Reals Lra Psatz.
From Stdlib Require Import ZArith QArith Lia Bool PeanoNat List Permutation Sorted.
Import ListNotations.

#[local] Open Scope nat_scope.

Set Implicit Arguments.
Set Warnings "-abstract-large-number".

(* ------------------------------------------------------------------ *)
(** * Exceptions *)

Inductive exn : Type :=
| AssertionError (msg : string)
| IndexError
| KeyError (key : string)
| ZeroDivisionError
| ValueError
| RuntimeError.

Inductive result (A : Type) : Type :=
| Ok (a : A)
| Raise (e : exn).

Arguments Ok {A} a.
Arguments Raise {A} e.

Definition bind {A B : Type} (r : result A) (k : A -> result B) : result B :=
  match r with
  | Ok a => k a
  | Raise e => Raise e
  end.

Declare Scope result_scope.
Delimit Scope result_scope with result.
Notation "x <- c ;; k" := (bind c (fun x => k))
  (at level 61, c at next level, right associativity) : result_scope.
Notation "' pat <- c ;; k" := (bind c (fun x => match x with pat => k end))
  (at level 61, pat pattern, c at next level, right associativity) : result_scope.
Notation "c ;;; k" := (bind c (fun _ => k))
  (at level 61, right associativity) : result_scope.
Open Scope result_scope.

(** The result is not an assertion error. *)
Definition not_assertion {A : Type} (r : result A) : Prop :=
  forall msg, r <> Raise (AssertionError msg).

(** [assert cond, msg] *)
Definition assert_ (cond : bool) (msg : string) : result unit :=
  if cond then Ok tt else Raise (AssertionError msg).

(** A check made by the tensor library, which raises [e] when it fails. *)
Definition torch_check (cond : bool) (e : exn) : result unit :=
  if cond then Ok tt else Raise e.

Fixpoint mapM {A B : Type} (f : A -> result B) (l : list A) : result (list B) :=
  match l with
  | [] => Ok []
  | a :: l' => b <- f a ;; bs <- mapM f l' ;; Ok (b :: bs)
  end.

(** [for x in l: s = body(s, x)] *)
Fixpoint foldM {A S : Type} (body : S -> A -> result S) (l : list A) (s : S)
  : result S :=
  match l with
  | [] => Ok s
  | a :: l' => s' <- body s a ;; foldM body l' s'
  end.

(** Decimal rendering of an integer inside an f-string. *)
Definition str_of_nat (n : nat) : string :=
  NilEmpty.string_of_uint (Nat.to_uint n).

(* ------------------------------------------------------------------ *)
(** * Scalars *)

Class Scalar (F : Type) : Type := {
  of_Q : Q -> F;               (* a numeric literal, an integer made a float *)
  fpi : F;                     (* math.pi *)
  fadd : F -> F -> F;
  fsub : F -> F -> F;
  fmul : F -> F -> F;
  fdiv : F -> F -> F;
  fneg : F -> F;
  fsqrt : F -> F;
  fexp : F -> F;
  flog : F -> F;
  ftanh : F -> F;
  fpow : F -> Q -> F;
  fltb : F -> F -> bool
}.

Definition fzero {F} `{Scalar F} : F := of_Q 0%Q.
Definition fone {F} `{Scalar F} : F := of_Q 1%Q.
Definition of_nat {F} `{Scalar F} (n : nat) : F := of_Q (inject_Z (Z.of_nat n)).

(** The reals as scalars.  A power with an integral exponent is the integer
    power, any other one is [Rpower]. *)
Definition R_pow (x : R) (q : Q) : R :=
  let q' := Qred q in
  match Qden q' with
  | xH => powerRZ x (Qnum q')
  | _ => Rpower x (Q2R q)
  end.

Definition R_ltb (x y : R) : bool := if Rlt_dec x y then true else false.

#[export] Instance R_Scalar : Scalar R := {|
  of_Q := Q2R;
  fpi := PI;
  fadd := Rplus;
  fsub := Rminus;
  fmul := Rmult;
  fdiv := Rdiv;
  fneg := Ropp;
  fsqrt := sqrt;
  fexp := exp;
  flog := ln;
  ftanh := tanh;
  fpow := R_pow;
  fltb := R_ltb
|}.

(* ------------------------------------------------------------------ *)
(** * Tensors *)

Record Tensor3 (F : Type) : Type := mkTensor3 {
  t3_size : nat * nat * nat;
  t3_data : list (list (list F))
}.

(** A tensor of token ids (dtype long). *)
Record LongTensor : Type := mkLongTensor {
  lt_size : nat * nat;
  lt_data : list (list Z)
}.

Definition wf_matrix {A : Type} (r c : nat) (m : list (list A)) : Prop :=
  length m = r /\ Forall (fun row => length row = c) m.

Definition wf_Tensor3 {F : Type} (x : Tensor3 F) : Prop :=
  let '(B, T, C) := t3_size x in
  length (t3_data x) = B /\ Forall (wf_matrix T C) (t3_data x).

(** [x] has size (B, T, C) and entries to fill it. *)
Definition shaped {F : Type} (B T C : nat) (x : Tensor3 F) : Prop :=
  t3_size x = (B, T, C) /\ wf_Tensor3 x.

(** Two sequences are the same at the positions 0..i. *)
Definition agree_upto {A : Type} (i : nat) (m m' : list A) : Prop :=
  firstn (S i) m = firstn (S i) m'.

(** Two tensors of size (B, T, C) that are the same at the positions 0..i
    of every batch element. *)
Definition agree_shaped {F : Type} (B T C i : nat) (x x' : Tensor3 F) : Prop :=
  shaped B T C x /\ shaped B T C x' /\
  Forall2 (agree_upto i) (t3_data x) (t3_data x').

Definition wf_LongTensor (x : LongTensor) : Prop :=
  wf_matrix (fst (lt_size x)) (snd (lt_size x)) (lt_data x).

Fixpoint map2 {A B C : Type} (f : A -> B -> C) (l : list A) (l' : list B)
  : list C :=
  match l, l' with
  | a :: t, b :: t' => f a b :: map2 f t t'
  | _, _ => []
  end.

(** [l[-n:]]; as [-0] is [0], [l[-0:]] is the whole of [l]. *)
Definition slice_last {A : Type} (n : nat) (l : list A) : list A :=
  if n =? 0 then l else skipn (length l - n) l.

(** [torch.tril(torch.ones(n, n))] *)
Definition tril_ones (n : nat) : list (list nat) :=
  map (fun i => map (fun j => if j <=? i then 1 else 0) (seq 0 n)) (seq 0 n).

(** Column [d] of every row of [m], for [d < c]: the transpose of a matrix
    with [c] columns. *)
Definition transpose {A : Type} (dflt : A) (c : nat) (m : list (list A))
  : list (list A) :=
  map (fun d => map (fun row => nth d row dflt) m) (seq 0 c).

(* ------------------------------------------------------------------ *)
(** * The model *)

Section Model.

Context {F : Type} `{Scalar F}.

Definition sum (l : list F) : F := fold_left fadd l fzero.

Definition dot (u v : list F) : F := sum (map2 fmul u v).

(** [a @ b.transpose(-2, -1)] *)
Definition matmul_nt (a b : list (list F)) : list (list F) :=
  map (fun ai => map (dot ai) b) a.

(** [a @ b], [b] having [c] columns *)
Definition matmul (c : nat) (a b : list (list F)) : list (list F) :=
  matmul_nt a (transpose fzero c b).

(** An elementwise operation on the last dimension, which it leaves of
    size [C']. *)
Definition map_last (f : list F -> list F) (C' : nat) (x : Tensor3 F)
  : Tensor3 F :=
  let '(B, T, _) := t3_size x in
  mkTensor3 (B, T, C') (map (map f) (t3_data x)).

(** [x + y] for two tensors of one size *)
Definition add3 (x y : Tensor3 F) : result (Tensor3 F) :=
  let '(B, T, C) := t3_size x in
  let '(B', T', C') := t3_size y in
  torch_check ((B =? B') && (T =? T') && (C =? C')) RuntimeError ;;;
  Ok (mkTensor3 (B, T, C) (map2 (map2 (map2 fadd)) (t3_data x) (t3_data y))).

(** ** F.softmax(x, dim=-1) on a row: [exp(x_j) / sum_k exp(x_k)], and
    [exp(-inf)] is [0]. *)
Definition xexp (x : option F) : F :=
  match x with
  | Some v => fexp v
  | None => fzero
  end.

Definition F_softmax (row : list (option F)) : list F :=
  let s := sum (map xexp row) in
  map (fun x => fdiv (xexp x) s) row.

(** ** NewGELU *)
Definition gelu (input : F) : F :=
  fmul (fmul (of_Q 0.5%Q) input)
       (fadd (of_Q 1.0%Q)
             (ftanh (fmul (fsqrt (fdiv (of_Q 2.0%Q) fpi))
                          (fadd input (fmul (of_Q 0.044715%Q) (fpow input 3.0%Q)))))).

Definition NewGELU_forward (input : Tensor3 F) : Tensor3 F :=
  let '(_, _, C) := t3_size input in
  map_last (map gelu) C input.

(** ** nn.Linear *)
Record Linear : Type := mkLinear {
  in_features : nat;
  out_features : nat;
  l_weight : list (list F);       (* (out_features, in_features) *)
  l_bias : option (list F)        (* (out_features) *)
}.

(** [F.linear(x, weight, bias)] on one vector: [x @ weight.T + bias] *)
Definition F_linear (weight : list (list F)) (bias : option (list F))
  (x : list F) : list F :=
  let y := map (dot x) weight in
  match bias with
  | Some b => map2 fadd y b
  | None => y
  end.

Definition Linear_forward (self : Linear) (x : Tensor3 F) : result (Tensor3 F) :=
  let '(_, _, C) := t3_size x in
  torch_check (C =? in_features self) RuntimeError ;;;
  Ok (map_last (F_linear (l_weight self) (l_bias self)) (out_features self) x).

(** ** nn.LayerNorm, with the default [eps=1e-5] *)
Record LayerNorm : Type := mkLayerNorm {
  normalized_shape : nat;
  ln_weight : list F;
  ln_bias : list F
}.

Definition F_layer_norm (weight bias : list F) (x : list F) : list F :=
  let n := of_nat (length x) in
  let mean := fdiv (sum x) n in
  let var := fdiv (sum (map (fun xi => fmul (fsub xi mean) (fsub xi mean)) x)) n in
  let rstd := fsqrt (fadd var (of_Q 0.00001%Q)) in
  map2 fadd (map2 fmul (map (fun xi => fdiv (fsub xi mean) rstd) x) weight) bias.

Definition LayerNorm_forward (self : LayerNorm) (x : Tensor3 F)
  : result (Tensor3 F) :=
  let '(_, _, C) := t3_size x in
  torch_check (C =? normalized_shape self) RuntimeError ;;;
  Ok (map_last (F_layer_norm (ln_weight self) (ln_bias self)) C x).

(** ** nn.Embedding *)
Record Embedding : Type := mkEmbedding {
  num_embeddings : nat;
  embedding_dim : nat;
  e_weight : list (list F)        (* (num_embeddings, embedding_dim) *)
}.

Definition embedding_lookup (self : Embedding) (i : Z) : result (list F) :=
  if (0 <=? i)%Z && (i <? Z.of_nat (num_embeddings self))%Z then
    match nth_error (e_weight self) (Z.to_nat i) with
    | Some row => Ok row
    | None => Raise IndexError
    end
  else Raise IndexError.

(** ** CausalSelfAttention *)
Record CausalSelfAttention : Type := mkCausalSelfAttention {
  c_attn : Linear;
  a_c_proj : Linear;
  a_n_head : nat;
  a_n_embd : nat;
  bias : list (list nat)          (* the buffer "bias": the causal mask *)
}.

(** [a // b] on integers *)
Definition floordiv (a b : nat) : result nat :=
  if b =? 0 then Raise ZeroDivisionError else Ok (a / b).

(** [1.0 / math.sqrt(n)] *)
Definition inv_sqrt (n : nat) : result F :=
  if n =? 0 then Raise ZeroDivisionError else Ok (fdiv (of_Q 1.0%Q) (fsqrt (of_nat n))).

(** [q, k, v = qkv.split(n, dim=2)]: chunks of width [n] of the last
    dimension, which must be three. *)
Definition chunk (n j : nat) (row : list F) : list F :=
  firstn n (skipn (j * n) row).

Definition split3 (n : nat) (qkv : Tensor3 F)
  : result (Tensor3 F * Tensor3 F * Tensor3 F) :=
  let '(B, T, W) := t3_size qkv in
  torch_check (negb (n =? 0) || (W =? 0)) RuntimeError ;;;
  torch_check ((if n =? 0 then 1 else Nat.max 1 ((W + n - 1) / n)) =? 3) ValueError ;;;
  Ok (map_last (chunk n 0) n qkv,
      map_last (chunk n 1) n qkv,
      map_last (chunk n 2) (W - 2 * n) qkv).

(** [x.view(B, T, nh, hs).transpose(1, 2)]: for every batch element, for
    every head, the [T] slices of width [hs]. *)
Definition heads (nh hs : nat) (x : Tensor3 F)
  : result (list (list (list (list F)))) :=
  let '(B, T, W) := t3_size x in
  torch_check (B * T * (nh * hs) =? B * T * W) RuntimeError ;;;
  Ok (map (fun xb => map (fun h => map (chunk hs h) xb) (seq 0 nh)) (t3_data x)).

(** [att.masked_fill(self.bias[:,:,:T,:T] == 0, float('-inf'))] on the
    (T, T) scores of one head.  The mask has size (min T bs, min T bs): it
    fits when [T <= bs], is broadcast when it is (1, 1), and is refused
    otherwise. *)
Definition masked_fill_row (mask : list nat) (att : list F) : list (option F) :=
  map2 (fun m a => if m =? 0 then None else Some a) mask att.

Definition masked_fill (bias : list (list nat)) (T : nat) (att : list (list F))
  : result (list (list (option F))) :=
  let mask := firstn T (map (firstn T) bias) in
  if T <=? length bias then
    Ok (map2 masked_fill_row mask att)
  else if length bias =? 1 then
    let m := nth 0 (nth 0 bias []) 0 in
    Ok (map (map (fun a => if m =? 0 then None else Some a)) att)
  else Raise RuntimeError.

(** The attention of one head of one batch element. *)
Definition attend (bias : list (list nat)) (T hs : nat) (scale : F)
  (q k v : list (list F)) : result (list (list F)) :=
  let att := map (map (fun a => fmul a scale)) (matmul_nt q k) in
  att <- masked_fill bias T att ;;
  let att := map F_softmax att in
  Ok (matmul hs att v).

(** [y.transpose(1, 2).contiguous().view(B, T, C)]: the outputs of the
    heads side by side. *)
Definition merge_heads (T : nat) (y : list (list (list F))) : list (list F) :=
  map (fun t => concat (map (fun yh => nth t yh []) y)) (seq 0 T).

Definition CausalSelfAttention_forward (self : CausalSelfAttention)
  (x : Tensor3 F) : result (Tensor3 F) :=
  let '(B, T, C) := t3_size x in
  qkv <- Linear_forward (c_attn self) x ;;
  '(q, k, v) <- split3 (a_n_embd self) qkv ;;
  hs <- floordiv C (a_n_head self) ;;
  k <- heads (a_n_head self) hs k ;;
  q <- heads (a_n_head self) hs q ;;
  v <- heads (a_n_head self) hs v ;;
  scale <- inv_sqrt hs ;;
  y <- mapM (fun '(qb, (kb, vb)) =>
               mapM (fun '(qh, (kh, vh)) => attend (bias self) T hs scale qh kh vh)
                    (combine qb (combine kb vb)))
            (combine q (combine k v)) ;;
  torch_check (B * (a_n_head self) * T * hs =? B * T * C) RuntimeError ;;;
  let y := mkTensor3 (B, T, C) (map (merge_heads T) y) in
  Linear_forward (a_c_proj self) y.

(** What [CausalSelfAttention.forward] computes when none of its checks
    fails, for one head and for one batch element. *)
Definition attend_value (bias : list (list nat)) (T hs : nat) (scale : F)
  (q k v : list (list F)) : list (list F) :=
  let att := map (map (fun a => fmul a scale)) (matmul_nt q k) in
  let att := map2 masked_fill_row (firstn T (map (firstn T) bias)) att in
  matmul hs (map F_softmax att) v.

Definition attention_batch (self : CausalSelfAttention) (T hs : nat) (scale : F)
  (xb : list (list F)) : list (list F) :=
  let qkv := map (F_linear (l_weight (c_attn self)) (l_bias (c_attn self))) xb in
  let n := a_n_embd self in
  let q := map (chunk n 0) qkv in
  let k := map (chunk n 1) qkv in
  let v := map (chunk n 2) qkv in
  let y := map (fun h => attend_value (bias self) T hs scale
                           (map (chunk hs h) q) (map (chunk hs h) k)
                           (map (chunk hs h) v))
               (seq 0 (a_n_head self)) in
  map (F_linear (l_weight (a_c_proj self)) (l_bias (a_c_proj self)))
      (merge_heads T y).

(** ** MLP *)
Record MLP : Type := mkMLP {
  c_fc : Linear;
  m_c_proj : Linear
}.

Definition MLP_forward (self : MLP) (x : Tensor3 F) : result (Tensor3 F) :=
  x <- Linear_forward (c_fc self) x ;;
  let x := NewGELU_forward x in
  Linear_forward (m_c_proj self) x.

(** ** Block *)
Record Block : Type := mkBlock {
  ln_1 : LayerNorm;
  attn : CausalSelfAttention;
  ln_2 : LayerNorm;
  mlp : MLP
}.

Definition Block_forward (self : Block) (x : Tensor3 F) : result (Tensor3 F) :=
  n1 <- LayerNorm_forward (ln_1 self) x ;;
  a <- CausalSelfAttention_forward (attn self) n1 ;;
  x <- add3 x a ;;
  n2 <- LayerNorm_forward (ln_2 self) x ;;
  m <- MLP_forward (mlp self) n2 ;;
  add3 x m.

(** ** GPT *)
Record GPTConfig : Type := mkGPTConfig {
  block_size : nat;
  vocab_size : nat;
  n_layer : nat;
  n_head : nat;
  n_embd : nat
}.

Record GPT : Type := mkGPT {
  config : GPTConfig;
  wte : Embedding;
  wpe : Embedding;
  h : list Block;
  ln_f : LayerNorm;
  lm_head : Linear
}.

Definition Embedding_forward (self : Embedding) (idx : LongTensor)
  : result (Tensor3 F) :=
  let '(B, T) := lt_size idx in
  data <- mapM (mapM (embedding_lookup self)) (lt_data idx) ;;
  Ok (mkTensor3 (B, T, embedding_dim self) data).

(** [torch.arange(0, t)] *)
Definition arange (t : nat) : list Z := map Z.of_nat (seq 0 t).

(** [tok_emb + pos_emb], the second operand broadcast over the batch *)
Definition add_pos (tok_emb : Tensor3 F) (C' : nat) (pos_emb : list (list F))
  : result (Tensor3 F) :=
  let '(B, T, C) := t3_size tok_emb in
  torch_check (C =? C') RuntimeError ;;;
  Ok (mkTensor3 (B, T, C)
        (map (fun xb => map2 (map2 fadd) xb pos_emb) (t3_data tok_emb))).

(** [x[:, [-1], :]] *)
Definition select_last (x : Tensor3 F) : result (Tensor3 F) :=
  let '(B, T, C) := t3_size x in
  if T =? 0 then Raise IndexError
  else Ok (mkTensor3 (B, 1, C) (map (fun xb => [nth (T - 1) xb []]) (t3_data x))).

(** [F.cross_entropy(input, target, ignore_index=...)] with the default
    mean reduction, for an input of size (N, C) and N targets: the rows
    whose target is [ignore_index] are skipped, the negative log-likelihoods
    of the others are summed and divided by their number. *)
Definition nll (row : list F) (target : nat) : F :=
  fneg (flog (nth target (F_softmax (map Some row)) fzero)).

Definition cross_entropy_step (C : nat) (ignore_index : Z) (acc : F * nat)
  (rt : list F * Z) : result (F * nat) :=
  let '(row, t) := rt in
  if (t =? ignore_index)%Z then Ok acc
  else if (0 <=? t)%Z && (t <? Z.of_nat C)%Z then
    Ok (fadd (fst acc) (nll row (Z.to_nat t)), S (snd acc))
  else Raise IndexError.

Definition F_cross_entropy (N C : nat) (input : list (list F))
  (target : list Z) (ignore_index : Z) : result F :=
  torch_check (N =? length target) ValueError ;;;
  '(total, count) <- foldM (cross_entropy_step C ignore_index)
                           (combine input target) (fzero, 0) ;;
  Ok (fdiv total (of_nat count)).

(** The positions (row of logits, target) that count for the loss, and the
    average of their negative log-likelihoods. *)
Definition kept_positions (logits : Tensor3 F) (targets : LongTensor)
  : list (list F * Z) :=
  filter (fun rt => negb (snd rt =? -1)%Z)
         (combine (concat (t3_data logits)) (concat (lt_data targets))).

Definition mean_cross_entropy (rows : list (list F * Z)) : F :=
  fdiv (sum (map (fun rt => nll (fst rt) (Z.to_nat (snd rt))) rows))
       (of_nat (length rows)).

(** [logits.view(-1, logits.size(-1))] *)
Definition view_rows (x : Tensor3 F) : result (nat * nat * list (list F)) :=
  let '(B, T, V) := t3_size x in
  torch_check (negb (V =? 0)) RuntimeError ;;;
  Ok (B * T, V, concat (t3_data x)).

Definition length_msg (t bs : nat) : string :=
  ("Cannot forward sequence of length " ++ str_of_nat t
   ++ ", block size is only " ++ str_of_nat bs)%string.

Definition GPT_forward (self : GPT) (idx : LongTensor) (targets : option LongTensor)
  : result (Tensor3 F * option F) :=
  let '(b, t) := lt_size idx in
  assert_ (t <=? block_size (config self))
          (length_msg t (block_size (config self))) ;;;
  let pos := arange t in
  tok_emb <- Embedding_forward (wte self) idx ;;
  pos_emb <- mapM (embedding_lookup (wpe self)) pos ;;
  x <- add_pos tok_emb (embedding_dim (wpe self)) pos_emb ;;
  x <- foldM (fun x block => Block_forward block x) (h self) x ;;
  x <- LayerNorm_forward (ln_f self) x ;;
  match targets with
  | Some targets =>
      logits <- Linear_forward (lm_head self) x ;;
      '(N, C, rows) <- view_rows logits ;;
      loss <- F_cross_entropy N C rows (concat (lt_data targets)) (-1) ;;
      Ok (logits, Some loss)
  | None =>
      x <- select_last x ;;
      logits <- Linear_forward (lm_head self) x ;;
      Ok (logits, None)
  end.

(** ** Generation *)

(** [torch.topk(row, k)] returns the [k] largest entries, largest first. *)
Fixpoint insert_desc (x : F) (l : list F) : list F :=
  match l with
  | [] => [x]
  | y :: l' => if fltb y x then x :: l else y :: insert_desc x l'
  end.

Definition sort_desc (l : list F) : list F := fold_right insert_desc [] l.

Definition topk (k : nat) (row : list F) : list F := firstn k (sort_desc row).

(** [v, _ = torch.topk(logits, min(top_k, logits.size(-1)))]
    [logits[logits < v[:, [-1]]] = -float('Inf')] *)
Definition top_k_row (k : nat) (row : list F) : list (option F) :=
  let v := topk k row in
  let thr := nth (k - 1) v fzero in
  map (fun x => if fltb x thr then None else Some x) row.

Definition top_k_filter (top_k : Z) (V : nat) (logits : list (list F))
  : result (list (list (option F))) :=
  let k := Z.min top_k (Z.of_nat V) in
  torch_check (0 <=? k)%Z RuntimeError ;;;
  torch_check (negb (k =? 0)%Z) IndexError ;;;
  Ok (map (top_k_row (Z.to_nat k)) logits).

(** [a >= b], as the negation of [a < b]. *)
Definition fge (a b : F) : Prop := fltb a b = false.

(** The number of entries of a row that were not set to minus infinity. *)
Definition count_kept (m : list (option F)) : nat :=
  length (filter (fun x => match x with Some _ => true | None => false end) m).

Section Generate.

(** The random generator behind [torch.multinomial]: [multinomial g probs]
    draws one index from the distribution [probs] and steps the generator. *)
Variable G : Type.
Variable multinomial : G -> list F -> result (Z * G).

Fixpoint multinomial_rows (g : G) (probs : list (list F)) : result (list Z * G) :=
  match probs with
  | [] => Ok ([], g)
  | p :: probs' =>
      '(i, g) <- multinomial g p ;;
      '(rest, g) <- multinomial_rows g probs' ;;
      Ok (i :: rest, g)
  end.

(** [idx if idx.size(1) <= block_size else idx[:, -block_size:]] *)
Definition crop (bs : nat) (idx : LongTensor) : LongTensor :=
  let '(B, T) := lt_size idx in
  if T <=? bs then idx
  else mkLongTensor (B, if bs =? 0 then T else bs) (map (slice_last bs) (lt_data idx)).

(** [logits[:, -1, :]] *)
Definition last_step (logits : Tensor3 F) : result (list (list F)) :=
  let '(_, T, _) := t3_size logits in
  if T =? 0 then Raise IndexError
  else Ok (map (fun m => nth (T - 1) m []) (t3_data logits)).

(** [torch.cat((idx, idx_next), dim=1)] *)
Definition cat_next (idx : LongTensor) (idx_next : list Z) : LongTensor :=
  let '(B, T) := lt_size idx in
  mkLongTensor (B, T + 1) (map2 (fun row i => row ++ [i]) (lt_data idx) idx_next).

(** One iteration of the loop of [generate]. *)
Definition generate_step (self : GPT) (temperature : F) (top_k : option Z)
  (st : LongTensor * G) : result (LongTensor * G) :=
  let '(idx, g) := st in
  let idx_cond := crop (block_size (config self)) idx in
  '(logits, _) <- GPT_forward self idx_cond None ;;
  let V := snd (t3_size logits) in
  logits <- last_step logits ;;
  let logits := map (map (fun x => fdiv x temperature)) logits in
  logits <- match top_k with
            | Some top_k => top_k_filter top_k V logits
            | None => Ok (map (map Some) logits)
            end ;;
  let probs := map F_softmax logits in
  '(idx_next, g) <- multinomial_rows g probs ;;
  Ok (cat_next idx idx_next, g).

(** [for _ in range(n)] *)
Fixpoint generate_loop (self : GPT) (temperature : F) (top_k : option Z)
  (n : nat) (st : LongTensor * G) : result (LongTensor * G) :=
  match n with
  | 0 => Ok st
  | S n' =>
      st' <- generate_step self temperature top_k st ;;
      generate_loop self temperature top_k n' st'
  end.

Definition GPT_generate (self : GPT) (idx : LongTensor) (max_new_tokens : Z)
  (temperature : F) (top_k : option Z) (g : G) : result (LongTensor * G) :=
  generate_loop self temperature top_k (Z.to_nat max_new_tokens) (idx, g).

(** What is asked of the sampler: on a non-empty row of probabilities it
    returns the index of one of its entries. *)
Definition sampler_in_range : Prop :=
  forall (g : G) (p : list F), p <> [] ->
    exists i g', multinomial g p = Ok (i, g') /\ (0 <= i < Z.of_nat (length p))%Z.

(** The rows of [out] are those of [idx], each followed by [n] more tokens. *)
Definition extends_by (n : nat) (idx out : LongTensor) : Prop :=
  Forall2 (fun row row' => exists suffix, row' = row ++ suffix /\ length suffix = n)
          (lt_data idx) (lt_data out).

End Generate.

(** ** What the constructors build

    [nn.Linear(fin, fout, bias)], [nn.LayerNorm(C)], [nn.Embedding(n, d)]
    and the modules of this file create tensors of sizes fixed by their
    arguments; no operation of the program resizes them.  The predicates
    below say that the tensors of a module have the sizes its constructor
    gave them. *)
Definition wf_Linear (fin fout : nat) (with_bias : bool) (l : Linear) : Prop :=
  in_features l = fin /\ out_features l = fout /\
  wf_matrix fout fin (l_weight l) /\
  match l_bias l with
  | Some b => with_bias = true /\ length b = fout
  | None => with_bias = false
  end.

Definition wf_LayerNorm (C : nat) (l : LayerNorm) : Prop :=
  normalized_shape l = C /\ length (ln_weight l) = C /\ length (ln_bias l) = C.

Definition wf_Embedding (n d : nat) (e : Embedding) : Prop :=
  num_embeddings e = n /\ embedding_dim e = d /\ wf_matrix n d (e_weight e).

Definition wf_CausalSelfAttention (cfg : GPTConfig) (a : CausalSelfAttention) : Prop :=
  wf_Linear (n_embd cfg) (3 * n_embd cfg) true (c_attn a) /\
  wf_Linear (n_embd cfg) (n_embd cfg) true (a_c_proj a) /\
  a_n_head a = n_head cfg /\
  a_n_embd a = n_embd cfg /\
  bias a = tril_ones (block_size cfg).

Definition wf_MLP (cfg : GPTConfig) (m : MLP) : Prop :=
  wf_Linear (n_embd cfg) (4 * n_embd cfg) true (c_fc m) /\
  wf_Linear (4 * n_embd cfg) (n_embd cfg) true (m_c_proj m).

Definition wf_Block (cfg : GPTConfig) (b : Block) : Prop :=
  wf_LayerNorm (n_embd cfg) (ln_1 b) /\
  wf_CausalSelfAttention cfg (attn b) /\
  wf_LayerNorm (n_embd cfg) (ln_2 b) /\
  wf_MLP cfg (mlp b).

Definition wf_GPT (m : GPT) : Prop :=
  let cfg := config m in
  wf_Embedding (vocab_size cfg) (n_embd cfg) (wte m) /\
  wf_Embedding (block_size cfg) (n_embd cfg) (wpe m) /\
  length (h m) = n_layer cfg /\
  Forall (wf_Block cfg) (h m) /\
  wf_LayerNorm (n_embd cfg) (ln_f m) /\
  wf_Linear (n_embd cfg) (vocab_size cfg) false (lm_head m).

(** The heads of a batch: [B] batch elements, [nh] heads each, [T] rows per
    head. *)
Definition wf_heads (B nh T : nat) (y : list (list (list (list F)))) : Prop :=
  length y = B /\
  Forall (fun yb => length yb = nh /\ Forall (fun yh => length yh = T) yb) y.

(** The assertion of [CausalSelfAttention.__init__]:
    [config.n_embd % config.n_head == 0]. *)
Definition heads_divide (cfg : GPTConfig) : Prop :=
  n_head cfg <> 0 /\ n_embd cfg mod n_head cfg = 0.

(** Token ids are indices into a vocabulary of [V] tokens. *)
Definition tokens_in_range (V : nat) (idx : LongTensor) : Prop :=
  Forall (Forall (fun i => (0 <= i < Z.of_nat V)%Z)) (lt_data idx).

(** A target is a token id or the value [-1]. *)
Definition targets_in_range (V : nat) (targets : LongTensor) : Prop :=
  Forall (Forall (fun i => i = (-1)%Z \/ (0 <= i < Z.of_nat V)%Z)) (lt_data targets).

End Model.

Arguments Linear F : clear implicits.
Arguments LayerNorm F : clear implicits.
Arguments Embedding F : clear implicits.
Arguments CausalSelfAttention F : clear implicits.
Arguments MLP F : clear implicits.
Arguments Block F : clear implicits.
Arguments GPT F : clear implicits.

(* ------------------------------------------------------------------ *)
(** * Parameters as objects: construction, state dict, loading *)

(** [s.endswith(suffix)] *)
Definition endswith (s suffix : string) : bool :=
  let n := String.length s in
  let m := String.length suffix in
  (m <=? n) && String.eqb (substring (n - m) m s) suffix.

(** [d[k]] for a dict held as the list of its items, in insertion order *)
Fixpoint lookup {V : Type} (k : string) (d : list (string * V)) : option V :=
  match d with
  | [] => None
  | (k', v) :: d' => if String.eqb k k' then Some v else lookup k d'
  end.

Definition getitem {V : Type} (d : list (string * V)) (k : string) : result V :=
  match lookup k d with
  | Some v => Ok v
  | None => Raise (KeyError k)
  end.

Definition keys {V : Type} (d : list (string * V)) : list string := map fst d.

(** [d[k] = v] for a key that is in [d] already *)
Fixpoint setitem {V : Type} (k : string) (v : V) (d : list (string * V))
  : list (string * V) :=
  match d with
  | [] => []
  | (k', v') :: d' =>
      if String.eqb k k' then (k', v) :: d' else (k', v') :: setitem k v d'
  end.

(** The names of the tensors of a block, after [transformer.h.{i}]. *)
Definition block_suffixes : list string :=
  [".ln_1.weight"; ".ln_1.bias"; ".attn.bias"; ".attn.c_attn.weight";
   ".attn.c_attn.bias"; ".attn.c_proj.weight"; ".attn.c_proj.bias";
   ".ln_2.weight"; ".ln_2.bias"; ".mlp.c_fc.weight"; ".mlp.c_fc.bias";
   ".mlp.c_proj.weight"; ".mlp.c_proj.bias"]%string.

Definition shape_eqb (s s' : list nat) : bool :=
  if list_eq_dec Nat.eq_dec s s' then true else false.

Section Store.

Context {F : Type} `{Scalar F}.

(** A tensor of the parameter store: its size and its entries, by index. *)
Record PTensor : Type := mkPTensor {
  shape : list nat;
  entry : list nat -> F
}.

(** [x.t()] *)
Definition t_ (x : PTensor) : result PTensor :=
  match shape x with
  | [] | [_] => Ok x
  | [r; c] => Ok (mkPTensor [c; r] (fun ix => entry x (rev ix)))
  | _ => Raise RuntimeError
  end.

(** [dst.copy_(src)], for a source of the size of [dst] *)
Definition copy_ (dst src : PTensor) : result PTensor :=
  torch_check (shape_eqb (shape src) (shape dst)) RuntimeError ;;;
  Ok (mkPTensor (shape dst) (entry src)).

(** Tensors live in a heap; a tensor object is its address. *)
Definition loc : Type := nat.
Definition heap : Type := list PTensor.

Fixpoint update (l : loc) (t : PTensor) (hp : heap) : heap :=
  match hp, l with
  | [], _ => []
  | _ :: hp', 0 => t :: hp'
  | t' :: hp', S l' => t' :: update l' t hp'
  end.

(** A module tree, flattened: every parameter or buffer under its dotted
    name, in the order of [state_dict()], with the tensor object bound to
    it.  The flag tells a buffer from a parameter. *)
Record GPTObject : Type := mkGPTObject {
  o_config : GPTConfig;
  o_state : list (string * (bool * loc))
}.

(** What [GPT.__init__] creates: name, buffer flag, size. *)
Definition layer_prefix (i : nat) : string :=
  ("transformer.h." ++ str_of_nat i)%string.

Definition block_specs (cfg : GPTConfig) (i : nat)
  : list (string * (bool * list nat)) :=
  let C := n_embd cfg in
  let p := layer_prefix i in
  [ ((p ++ ".ln_1.weight")%string, (false, [C]));
    ((p ++ ".ln_1.bias")%string, (false, [C]));
    ((p ++ ".attn.bias")%string, (true, [1; 1; block_size cfg; block_size cfg]));
    ((p ++ ".attn.c_attn.weight")%string, (false, [3 * C; C]));
    ((p ++ ".attn.c_attn.bias")%string, (false, [3 * C]));
    ((p ++ ".attn.c_proj.weight")%string, (false, [C; C]));
    ((p ++ ".attn.c_proj.bias")%string, (false, [C]));
    ((p ++ ".ln_2.weight")%string, (false, [C]));
    ((p ++ ".ln_2.bias")%string, (false, [C]));
    ((p ++ ".mlp.c_fc.weight")%string, (false, [4 * C; C]));
    ((p ++ ".mlp.c_fc.bias")%string, (false, [4 * C]));
    ((p ++ ".mlp.c_proj.weight")%string, (false, [C; 4 * C]));
    ((p ++ ".mlp.c_proj.bias")%string, (false, [C])) ].

Definition GPT_specs (cfg : GPTConfig) : list (string * (bool * list nat)) :=
  [ ("transformer.wte.weight"%string, (false, [vocab_size cfg; n_embd cfg]));
    ("transformer.wpe.weight"%string, (false, [block_size cfg; n_embd cfg])) ]
  ++ flat_map (block_specs cfg) (seq 0 (n_layer cfg))
  ++ [ ("transformer.ln_f.weight"%string, (false, [n_embd cfg]));
       ("transformer.ln_f.bias"%string, (false, [n_embd cfg]));
       ("lm_head.weight"%string, (false, [vocab_size cfg; n_embd cfg])) ].

(** The bindings of the fresh modules: the i-th tensor created is bound to
    the i-th name. *)
Definition fresh_state (cfg : GPTConfig) : list (string * (bool * nat)) :=
  combine (map fst (GPT_specs cfg))
          (combine (map (fun s => fst (snd s)) (GPT_specs cfg))
                   (seq 0 (length (GPT_specs cfg)))).

(** The entries of [torch.tril(torch.ones(bs, bs)).view(1, 1, bs, bs)] *)
Definition mask_entry (ix : list nat) : F :=
  match ix with
  | [_; _; i; j] => if j <=? i then fone else fzero
  | _ => fzero
  end.

(** A parameter is created with the entries [init name], which stand for
    the random initialisation; the buffer is the causal mask. *)
Definition new_tensor (init : string -> list nat -> F)
  (s : string * (bool * list nat)) : PTensor :=
  let '(name, (buffer, shp)) := s in
  mkPTensor shp (if buffer then mask_entry else init name).

(** [GPT.__init__]: every module creates its tensors; the last statement
    binds the attribute [transformer.wte.weight] to the tensor object of
    [lm_head.weight]. *)
Definition GPT_init (cfg : GPTConfig) (init : string -> list nat -> F)
  : result (GPTObject * heap) :=
  (if n_layer cfg =? 0 then Ok tt
   else if n_head cfg =? 0 then Raise ZeroDivisionError
   else assert_ (n_embd cfg mod n_head cfg =? 0) "") ;;;
  let specs := GPT_specs cfg in
  let hp := map (new_tensor init) specs in
  let st := combine (map fst specs)
                    (combine (map (fun s => fst (snd s)) specs)
                             (seq 0 (length specs))) in
  w <- getitem st "lm_head.weight" ;;
  Ok (mkGPTObject cfg (setitem "transformer.wte.weight" w st), hp).

(** [model.state_dict()]: names bound to the tensors themselves *)
Definition state_dict (model : GPTObject) : list (string * loc) :=
  map (fun '(k, (_, l)) => (k, l)) (o_state model).

(** [model.named_parameters()]: the parameters, each tensor object once,
    under the first of its names *)
Fixpoint named_parameters_from (seen : list loc) (st : list (string * (bool * loc)))
  : list (string * loc) :=
  match st with
  | [] => []
  | (k, (buffer, l)) :: st' =>
      if buffer || existsb (Nat.eqb l) seen then named_parameters_from seen st'
      else (k, l) :: named_parameters_from (l :: seen) st'
  end.

Definition named_parameters (model : GPTObject) : list (string * loc) :=
  named_parameters_from [] (o_state model).

Definition deref (hp : heap) (l : loc) : result PTensor :=
  match nth_error hp l with
  | Some t => Ok t
  | None => Raise RuntimeError
  end.

(** Reading the tensor bound to a name. *)
Definition read (model : GPTObject) (hp : heap) (name : string) : option PTensor :=
  match lookup name (o_state model) with
  | Some (_, l) => nth_error hp l
  | None => None
  end.

(** An in-place operation on the tensor bound to a name ([copy_], [add_],
    a step of the optimizer, ...): the entries change, the object and its
    size stay. *)
Definition update_ (model : GPTObject) (name : string)
  (f : (list nat -> F) -> list nat -> F) (hp : heap) : heap :=
  match lookup name (o_state model) with
  | Some (_, l) =>
      match nth_error hp l with
      | Some t => update l (mkPTensor (shape t) (f (entry t))) hp
      | None => hp
      end
  | None => hp
  end.

Definition model_types : list string :=
  ["gpt2"; "gpt2-medium"; "gpt2-large"; "gpt2-xl"]%string.

Definition config_args (model_type : string) : result GPTConfig :=
  if String.eqb model_type "gpt2" then Ok (mkGPTConfig 1024 50257 12 12 768)
  else if String.eqb model_type "gpt2-medium" then Ok (mkGPTConfig 1024 50257 24 16 1024)
  else if String.eqb model_type "gpt2-large" then Ok (mkGPTConfig 1024 50257 36 20 1280)
  else if String.eqb model_type "gpt2-xl" then Ok (mkGPTConfig 1024 50257 48 25 1600)
  else Raise (KeyError model_type).

Definition transposed : list string :=
  ["attn.c_attn.weight"; "attn.c_proj.weight"; "mlp.c_fc.weight"; "mlp.c_proj.weight"]%string.

Definition mismatch_msg (n n' : nat) : string :=
  ("mismatched keys: " ++ str_of_nat n ++ " != " ++ str_of_nat n')%string.

(** The names that [from_pretrained] compares: those of the source without
    the two kinds of buffer, those of the model without its mask. *)
Definition kept_hf (sd_hf : list (string * PTensor)) : list string :=
  filter (fun k => negb (endswith k ".attn.bias"))
         (filter (fun k => negb (endswith k ".attn.masked_bias")) (keys sd_hf)).

Definition kept_model (cfg : GPTConfig) : list string :=
  filter (fun k => negb (endswith k ".attn.bias")) (map fst (GPT_specs cfg)).

(** The size [src] of a source tensor fits the size [dst] of the tensor of
    the model under the name [k]: reversed for the four kinds of weight that
    the source stores transposed ([t()] is for at most two dimensions),
    equal for the others. *)
Definition shape_ok (k : string) (src dst : list nat) : Prop :=
  if existsb (endswith k) transposed
  then rev src = dst /\ length src <= 2
  else src = dst.

(** The body of the loop [for k in sd_keys_hf] of [from_pretrained]. *)
Definition load_step (sd : list (string * loc)) (sd_hf : list (string * PTensor))
  (hp : heap) (k : string) : result heap :=
  src <- getitem sd_hf k ;;
  l <- getitem sd k ;;
  dst <- deref hp l ;;
  if existsb (endswith k) transposed then
    assert_ (shape_eqb (rev (shape src)) (shape dst)) "" ;;;
    src <- t_ src ;;
    new <- copy_ dst src ;;
    Ok (update l new hp)
  else
    assert_ (shape_eqb (shape src) (shape dst)) "" ;;;
    new <- copy_ dst src ;;
    Ok (update l new hp).

(** [GPT.from_pretrained(model_type)]; [sd_hf] is the state dict of the
    huggingface model of that type, [init] the initialisation of the fresh
    model. *)
Definition GPT_from_pretrained (model_type : string)
  (sd_hf : list (string * PTensor)) (init : string -> list nat -> F)
  : result (GPTObject * heap) :=
  assert_ (existsb (String.eqb model_type) model_types) "" ;;;
  cfg <- config_args model_type ;;
  '(model, hp) <- GPT_init cfg init ;;
  let sd := state_dict model in
  let sd_keys := keys sd in
  let sd_keys := filter (fun k => negb (endswith k ".attn.bias")) sd_keys in
  let sd_keys_hf := keys sd_hf in
  let sd_keys_hf := filter (fun k => negb (endswith k ".attn.masked_bias")) sd_keys_hf in
  let sd_keys_hf := filter (fun k => negb (endswith k ".attn.bias")) sd_keys_hf in
  assert_ (length sd_keys_hf =? length sd_keys)
          (mismatch_msg (length sd_keys_hf) (length sd_keys)) ;;;
  hp <- foldM (load_step sd sd_hf) sd_keys_hf hp ;;
  Ok (model, hp).

(* ------------------------------------------------------------------ *)
(** * Writing the checkpoint *)

(** What a file holds: 32-bit integers and floats of either precision, in
    the order they were written. *)
Inductive datum : Type :=
| I32 (z : Z)
| F32 (x : F)
| BF16 (x : F).

(** The indices of a tensor of a given size, in the order of its storage. *)
Fixpoint indices (shp : list nat) : list (list nat) :=
  match shp with
  | [] => [[]]
  | n :: shp' => flat_map (fun i => map (cons i) (indices shp')) (seq 0 n)
  end.

Definition flatten (t : PTensor) : list F := map (entry t) (indices (shape t)).

Definition write_fp32 (tensor : PTensor) (file : list datum) : list datum :=
  file ++ map F32 (flatten tensor).

Definition write_bf16 (tensor : PTensor) (file : list datum) : list datum :=
  file ++ map BF16 (flatten tensor).

(** [for i in range(L): write(model_tensors[f"transformer.h.{i}" + suffix], file)] *)
Definition write_layers (write : PTensor -> list datum -> list datum)
  (model_tensors : list (string * PTensor)) (L : nat) (suffix : string)
  (file : list datum) : result (list datum) :=
  foldM (fun file i =>
           t <- getitem model_tensors (layer_prefix i ++ suffix)%string ;;
           Ok (write t file))
        (seq 0 L) file.

Definition write_tensors_fp32 (model_tensors : list (string * PTensor)) (L : nat)
  (file : list datum) : result (list datum) :=
  t <- getitem model_tensors "transformer.wte.weight" ;;
  let file := write_fp32 t file in
  t <- getitem model_tensors "transformer.wpe.weight" ;;
  let file := write_fp32 t file in
  file <- write_layers write_fp32 model_tensors L ".attn.c_attn.weight" file ;;
  file <- write_layers write_fp32 model_tensors L ".attn.c_attn.bias" file ;;
  file <- write_layers write_fp32 model_tensors L ".attn.c_proj.weight" file ;;
  file <- write_layers write_fp32 model_tensors L ".attn.c_proj.bias" file ;;
  file <- write_layers write_fp32 model_tensors L ".mlp.c_fc.weight" file ;;
  file <- write_layers write_fp32 model_tensors L ".mlp.c_fc.bias" file ;;
  file <- write_layers write_fp32 model_tensors L ".mlp.c_proj.weight" file ;;
  file <- write_layers write_fp32 model_tensors L ".mlp.c_proj.bias" file ;;
  file <- write_layers write_fp32 model_tensors L ".ln_1.weight" file ;;
  file <- write_layers write_fp32 model_tensors L ".ln_1.bias" file ;;
  file <- write_layers write_fp32 model_tensors L ".ln_2.weight" file ;;
  file <- write_layers write_fp32 model_tensors L ".ln_2.bias" file ;;
  t <- getitem model_tensors "transformer.ln_f.weight" ;;
  let file := write_fp32 t file in
  t <- getitem model_tensors "transformer.ln_f.bias" ;;
  let file := write_fp32 t file in
  Ok file.

Definition write_tensors_bf16 (model_tensors : list (string * PTensor)) (L : nat)
  (file : list datum) : result (list datum) :=
  t <- getitem model_tensors "transformer.wte.weight" ;;
  let file := write_bf16 t file in
  t <- getitem model_tensors "transformer.wpe.weight" ;;
  let file := write_bf16 t file in
  file <- write_layers write_bf16 model_tensors L ".attn.c_attn.weight" file ;;
  file <- write_layers write_bf16 model_tensors L ".attn.c_attn.bias" file ;;
  file <- write_layers write_bf16 model_tensors L ".attn.c_proj.weight" file ;;
  file <- write_layers write_bf16 model_tensors L ".attn.c_proj.bias" file ;;
  file <- write_layers write_bf16 model_tensors L ".mlp.c_fc.weight" file ;;
  file <- write_layers write_bf16 model_tensors L ".mlp.c_fc.bias" file ;;
  file <- write_layers write_bf16 model_tensors L ".mlp.c_proj.weight" file ;;
  file <- write_layers write_bf16 model_tensors L ".mlp.c_proj.bias" file ;;
  file <- write_layers write_fp32 model_tensors L ".ln_1.weight" file ;;
  file <- write_layers write_fp32 model_tensors L ".ln_1.bias" file ;;
  file <- write_layers write_fp32 model_tensors L ".ln_2.weight" file ;;
  file <- write_layers write_fp32 model_tensors L ".ln_2.bias" file ;;
  t <- getitem model_tensors "transformer.ln_f.weight" ;;
  let file := write_fp32 t file in
  t <- getitem model_tensors "transformer.ln_f.bias" ;;
  let file := write_fp32 t file in
  Ok file.

(** The names of the tensors of a full-precision checkpoint, in the order
    in which [write_tensors_fp32] writes them: the two embeddings, then for
    each of the twelve kinds of layer parameter the tensors of all layers,
    then the final normalisation. *)
Definition layer_params : list string :=
  [".attn.c_attn.weight"; ".attn.c_attn.bias"; ".attn.c_proj.weight";
   ".attn.c_proj.bias"; ".mlp.c_fc.weight"; ".mlp.c_fc.bias";
   ".mlp.c_proj.weight"; ".mlp.c_proj.bias"; ".ln_1.weight"; ".ln_1.bias";
   ".ln_2.weight"; ".ln_2.bias"]%string.

Definition fp32_order (L : nat) : list string :=
  ["transformer.wte.weight"; "transformer.wpe.weight"]%string
  ++ flat_map (fun suffix => map (fun i => (layer_prefix i ++ suffix)%string) (seq 0 L))
              layer_params
  ++ ["transformer.ln_f.weight"; "transformer.ln_f.bias"]%string.

(** The floats of the tensor a dict holds under a name. *)
Definition fp32_of (model_tensors : list (string * PTensor)) (name : string)
  : list datum :=
  match lookup name model_tensors with
  | Some t => map F32 (flatten t)
  | None => []
  end.

(** Writing the tensor held under one name. *)
Definition write_named (model_tensors : list (string * PTensor))
  (file : list datum) (name : string) : result (list datum) :=
  t <- getitem model_tensors name ;; Ok (write_fp32 t file).

(** The same for [write_tensors_bf16]: the names whose tensors it writes in
    half precision, those it writes in full precision, and the writing of
    one tensor in half precision. *)
Definition bf16_names (L : nat) : list string :=
  ["transformer.wte.weight"; "transformer.wpe.weight"]%string
  ++ flat_map (fun suffix => map (fun i => (layer_prefix i ++ suffix)%string) (seq 0 L))
              [".attn.c_attn.weight"; ".attn.c_attn.bias"; ".attn.c_proj.weight";
               ".attn.c_proj.bias"; ".mlp.c_fc.weight"; ".mlp.c_fc.bias";
               ".mlp.c_proj.weight"; ".mlp.c_proj.bias"]%string.

Definition fp32_names (L : nat) : list string :=
  flat_map (fun suffix => map (fun i => (layer_prefix i ++ suffix)%string) (seq 0 L))
           [".ln_1.weight"; ".ln_1.bias"; ".ln_2.weight"; ".ln_2.bias"]%string
  ++ ["transformer.ln_f.weight"; "transformer.ln_f.bias"]%string.

Definition bf16_of (model_tensors : list (string * PTensor)) (name : string)
  : list datum :=
  match lookup name model_tensors with
  | Some t => map BF16 (flatten t)
  | None => []
  end.

Definition write_named_bf16 (model_tensors : list (string * PTensor))
  (file : list datum) (name : string) : result (list datum) :=
  t <- getitem model_tensors name ;; Ok (write_bf16 t file).

(** [header[i] = v] on a tensor of dtype int32 *)
Definition int32 (v : nat) : result Z :=
  torch_check (Z.of_nat v <? 2 ^ 31)%Z RuntimeError ;;;
  Ok (Z.of_nat v).

(** The 256 integers of the header of a parameter checkpoint. *)
Definition model_header (version : Z) (cfg : GPTConfig) : result (list Z) :=
  bs <- int32 (block_size cfg) ;;
  vs <- int32 (vocab_size cfg) ;;
  nl <- int32 (n_layer cfg) ;;
  nh <- int32 (n_head cfg) ;;
  ne <- int32 (n_embd cfg) ;;
  Ok ([20240326; version; bs; vs; nl; nh; ne] ++ repeat 0 249)%Z.

(** [write_model(model, filename, dtype)]: the contents of the file *)
Definition write_model (model : GPTObject) (hp : heap) (dtype : string)
  : result (list datum) :=
  assert_ (existsb (String.eqb dtype) ["float32"; "bfloat16"]%string) "" ;;;
  let version := if String.eqb dtype "float32" then 1%Z else 2%Z in
  header <- model_header version (o_config model) ;;
  params <- mapM (fun '(name, l) => t <- deref hp l ;; Ok (name, t))
                 (named_parameters model) ;;
  let file := map I32 header in
  if String.eqb dtype "float32" then
    write_tensors_fp32 params (n_layer (o_config model)) file
  else
    write_tensors_bf16 params (n_layer (o_config model)) file.

End Store.

Arguments PTensor F : clear implicits.
Arguments heap F : clear implicits.
Arguments datum F : clear implicits.

(* ------------------------------------------------------------------ *)
(** * The tokenizer file *)

(** What [write_tokenizer] uses of the encoding: the largest token id and
    the bytes of a token. *)
Record Encoding : Type := mkEncoding {
  max_token_value : nat;
  decode_bytes : nat -> result (list Byte.byte)
}.

Definition token_length_msg (length : nat) : string :=
  ("Token length exceeds 255: " ++ str_of_nat length)%string.

(** [struct.pack("<B", length)], which the code calls below the assertion
    [length < 256] only: the one byte of that value. *)
Definition pack_B (length : nat) : Byte.byte :=
  match Byte.of_nat length with
  | Some b => b
  | None => Byte.x00
  end.

(** The body of the loop [for i in range(n)]; [file] is what follows the
    header. *)
Definition write_token (enc : Encoding) (file : list Byte.byte) (i : nat)
  : result (list Byte.byte) :=
  b <- decode_bytes enc i ;;
  let length := length b in
  assert_ (length <? 256) (token_length_msg length) ;;;
  let file := file ++ [pack_B length] in
  Ok (file ++ b).

(** [write_tokenizer(enc, filename)]: the 256 integers of the header and the
    bytes that follow them. *)
Definition write_tokenizer (enc : Encoding) : result (list Z * list Byte.byte) :=
  let n := max_token_value enc + 1 in
  n32 <- int32 n ;;
  let header := ([20240328; 1; n32] ++ repeat 0 253)%Z in
  file <- foldM (write_token enc) (seq 0 n) [] ;;
  Ok (header, file).

(** A reader of the body: [n] times one length byte and that many bytes.
    It returns the tokens read and the bytes left over. *)
Fixpoint read_tokens (n : nat) (file : list Byte.byte)
  : option (list (list Byte.byte) * list Byte.byte) :=
  match n with
  | 0 => Some ([], file)
  | S n' =>
      match file with
      | [] => None
      | lb :: rest =>
          let len := Byte.to_nat lb in
          if length rest <? len then None
          else match read_tokens n' (skipn len rest) with
               | Some (toks, rest') => Some (firstn len rest :: toks, rest')
               | None => None
               end
      end
  end.

(* ------------------------------------------------------------------ *)
(** * The data loader *)

(** [tokens[i:j]] for [0 <= i <= j] *)
Definition slice (i j : nat) (tokens : list Z) : list Z :=
  firstn (j - i) (skipn i tokens).

(** [t.view(B, T)] of a one-dimensional tensor *)
Fixpoint rows (B T : nat) (l : list Z) : list (list Z) :=
  match B with
  | 0 => []
  | S B' => firstn T l :: rows B' T (skipn T l)
  end.

Definition view2 (B T : nat) (l : list Z) : result LongTensor :=
  torch_check (length l =? B * T) RuntimeError ;;;
  Ok (mkLongTensor (B, T) (rows B T l)).

Section GetBatch.

Variables B T : nat.
Variable tokens : list Z.

(** The statement before the loop of [get_batch], run by the first [next]. *)
Definition get_batch_start : result nat :=
  assert_ (B * T + 1 <=? length tokens) "not enough tokens" ;;;
  Ok 0.

(** What is yielded at the position [i]. *)
Definition get_batch_yield (i : nat) : result (LongTensor * LongTensor) :=
  x <- view2 B T (slice i (i + B * T) tokens) ;;
  y <- view2 B T (slice (i + 1) (i + B * T + 1) tokens) ;;
  Ok (x, y).

(** The statements after [yield]. *)
Definition get_batch_advance (i : nat) : nat :=
  let i := i + B * T in
  if length tokens <=? i + B * T + 1 then 0 else i.

(** The generator from the position [i]: what the call number [n] of
    [next], counted from 0, returns. *)
Fixpoint get_batch_from (n : nat) (i : nat) : result (nat * (LongTensor * LongTensor)) :=
  xy <- get_batch_yield i ;;
  match n with
  | 0 => Ok (i, xy)
  | S n' => get_batch_from n' (get_batch_advance i)
  end.

(** [get_batch()]: the position and the batch of the call number [n] of
    [next]. *)
Definition get_batch (n : nat) : result (nat * (LongTensor * LongTensor)) :=
  i <- get_batch_start ;;
  get_batch_from n i.

End GetBatch.

(* ------------------------------------------------------------------ *)
(** * A small model

    [GPTConfig(block_size=2, vocab_size=3, n_layer=1, n_head=1, n_embd=2)],
    every weight 1 and every bias 0. *)

Section Tiny.

Context {F : Type} `{Scalar F}.

Definition tiny_config : GPTConfig := mkGPTConfig 2 3 1 1 2.

Definition tiny_Linear (fin fout : nat) : Linear F :=
  mkLinear fin fout (repeat (repeat fone fin) fout) (Some (repeat fzero fout)).

Definition tiny_LayerNorm (C : nat) : LayerNorm F :=
  mkLayerNorm C (repeat fone C) (repeat fzero C).

Definition tiny_Embedding (n d : nat) : Embedding F :=
  mkEmbedding n d (repeat (repeat fone d) n).

Definition tiny_Block : Block F :=
  mkBlock (tiny_LayerNorm 2)
          (mkCausalSelfAttention (tiny_Linear 2 6) (tiny_Linear 2 2) 1 2 (tril_ones 2))
          (tiny_LayerNorm 2)
          (mkMLP (tiny_Linear 2 8) (tiny_Linear 8 2)).

Definition tiny_GPT : GPT F :=
  mkGPT tiny_config (tiny_Embedding 3 2) (tiny_Embedding 2 2) [tiny_Block]
        (tiny_LayerNorm 2)
        (mkLinear 2 3 (repeat (repeat fone 2) 3) None).

End Tiny.

(** Two inputs of size (1, 2, 2) that differ at the second position only. *)
Definition x_early : Tensor3 R := mkTensor3 (1, 2, 2) [[[1; 2]; [3; 4]]]%R.
Definition x_late : Tensor3 R := mkTensor3 (1, 2, 2) [[[1; 2]; [5; 6]]]%R.

(** A sampler that always draws the first token; its state counts the
    draws. *)
Definition sample_first (g : nat) (p : list R) : result (Z * nat) :=
  match p with
  | [] => Raise RuntimeError
  | _ :: _ => Ok (0%Z, S g)
  end.

(** A dict that holds a tensor of one entry under every name of a
    one-layer checkpoint. *)
Definition tensors_1 : list (string * PTensor R) :=
  map (fun name => (name, mkPTensor [1] (fun _ => 1%R))) (fp32_order 1).

(** A batch of one sequence of two tokens, its targets, and a batch of one
    empty sequence. *)
Definition idx_2 : LongTensor := mkLongTensor (1, 2) [[0; 2]]%Z.
Definition targets_2 : LongTensor := mkLongTensor (1, 2) [[2; -1]]%Z.
Definition idx_empty : LongTensor := mkLongTensor (1, 0) [[]].
Definition idx_2_late : LongTensor := mkLongTensor (1, 2) [[0; 1]]%Z.

(* ------------------------------------------------------------------ *)
(** * Properties *)

(** ** The error monad *)

Lemma bind_Ok {A B : Type} (c : result A) (k : A -> result B) (b : B) :
  bind c k = Ok b <-> exists a, c = Ok a /\ k a = Ok b.
Proof.
  destruct c as [a|e]; simpl; split.
  - intros Hk. exists a. split; [reflexivity | exact Hk].
  - intros [a' [Ha Hk]]. inversion Ha. subst. exact Hk.
  - discriminate.
  - intros [a' [Ha _]]. discriminate.
Qed.

Lemma mapM_Ok {A B : Type} (P : A -> B -> Prop) (f : A -> result B) (l : list A) :
  Forall (fun a => exists b, f a = Ok b /\ P a b) l ->
  exists l', mapM f l = Ok l' /\ Forall2 P l l'.
Proof.
  induction 1 as [|a l [b [Hb HP]] _ [l' [Hl' HF]]]; simpl.
  - exists []. split; [reflexivity | constructor].
  - exists (b :: l'). rewrite Hb. simpl. rewrite Hl'. simpl.
    split; [reflexivity | constructor; assumption].
Qed.

Lemma mapM_Ok_inv {A B : Type} (f : A -> result B) (l : list A) (l' : list B) :
  mapM f l = Ok l' -> Forall2 (fun a b => f a = Ok b) l l'.
Proof.
  revert l'. induction l as [|a l IH]; simpl; intros l' Hl.
  - inversion Hl. constructor.
  - destruct (f a) as [b|e] eqn:Hb; simpl in Hl; [|discriminate].
    destruct (mapM f l) as [bs|e] eqn:Hbs; simpl in Hl; [|discriminate].
    inversion Hl. subst. constructor; [assumption | apply IH; reflexivity].
Qed.

Lemma foldM_invariant {A S : Type} (I : S -> Prop) (Q : A -> Prop)
  (body : S -> A -> result S) (l : list A) (s : S) :
  (forall s a, I s -> Q a -> exists s', body s a = Ok s' /\ I s') ->
  Forall Q l -> I s ->
  exists s', foldM body l s = Ok s' /\ I s'.
Proof.
  intros Hbody HQ. revert s. induction HQ as [|a l Ha _ IH]; simpl; intros s Hs.
  - exists s. split; [reflexivity | assumption].
  - destruct (Hbody s a Hs Ha) as [s' [Hs' HI]]. rewrite Hs'. simpl.
    apply IH. assumption.
Qed.

(** ** The length check of [GPT.forward] is its only assertion *)

Lemma not_assertion_Ok {A : Type} (a : A) : not_assertion (Ok a).
Proof. intros msg; discriminate. Qed.

Lemma not_assertion_bind {A B : Type} (c : result A) (k : A -> result B) :
  not_assertion c -> (forall a, not_assertion (k a)) -> not_assertion (bind c k).
Proof.
  intros Hc Hk. destruct c as [a|e]; simpl.
  - apply Hk.
  - intros msg Heq. apply (Hc msg). inversion Heq. reflexivity.
Qed.

Lemma not_assertion_torch_check (b : bool) (e : exn) :
  (forall msg, e <> AssertionError msg) -> not_assertion (torch_check b e).
Proof.
  intros He msg. unfold torch_check. destruct b; [discriminate|].
  intros Heq. inversion Heq. apply (He msg). assumption.
Qed.

Lemma not_assertion_mapM {A B : Type} (f : A -> result B) (l : list A) :
  (forall a, not_assertion (f a)) -> not_assertion (mapM f l).
Proof.
  intros Hf. induction l as [|a l IH]; simpl.
  - apply not_assertion_Ok.
  - apply not_assertion_bind; [apply Hf|]. intros b.
    apply not_assertion_bind; [apply IH|]. intros bs. apply not_assertion_Ok.
Qed.

Lemma not_assertion_foldM {A S : Type} (body : S -> A -> result S) (l : list A) (s : S) :
  (forall s a, not_assertion (body s a)) -> not_assertion (foldM body l s).
Proof.
  intros Hb. revert s. induction l as [|a l IH]; simpl; intros s.
  - apply not_assertion_Ok.
  - apply not_assertion_bind; [apply Hb | intros s'; apply IH].
Qed.

Create HintDb no_assert.
#[local] Hint Resolve not_assertion_Ok : no_assert.

Ltac no_assert :=
  repeat first
    [ solve [auto with no_assert]
    | apply not_assertion_torch_check; intros ?; discriminate
    | apply not_assertion_bind; [| intros ?]
    | apply not_assertion_mapM; intros ?
    | apply not_assertion_foldM; intros ? ?
    | match goal with
      | |- not_assertion (match ?x with _ => _ end) => destruct x
      | |- not_assertion (if ?b then _ else _) => destruct b
      | |- not_assertion (Raise _) => intros ?; discriminate
      end ].

Section ModelProperties.

Context {F : Type} `{Scalar F}.

Lemma not_assertion_Linear_forward (l : Linear F) (x : Tensor3 F) :
  not_assertion (Linear_forward l x).
Proof. unfold Linear_forward. no_assert. Qed.

Lemma not_assertion_LayerNorm_forward (l : LayerNorm F) (x : Tensor3 F) :
  not_assertion (LayerNorm_forward l x).
Proof. unfold LayerNorm_forward. no_assert. Qed.

Lemma not_assertion_add3 (x y : Tensor3 F) : not_assertion (add3 x y).
Proof. unfold add3. no_assert. Qed.

#[local] Hint Resolve not_assertion_Linear_forward not_assertion_LayerNorm_forward
  not_assertion_add3 : no_assert.

Lemma not_assertion_masked_fill bias T (att : list (list F)) :
  not_assertion (masked_fill bias T att).
Proof. unfold masked_fill. no_assert. Qed.

#[local] Hint Resolve not_assertion_masked_fill : no_assert.

Lemma not_assertion_attend bias T hs (scale : F) q k v :
  not_assertion (attend bias T hs scale q k v).
Proof. unfold attend. no_assert. Qed.

#[local] Hint Resolve not_assertion_attend : no_assert.

Lemma not_assertion_CausalSelfAttention_forward (a : CausalSelfAttention F)
  (x : Tensor3 F) : not_assertion (CausalSelfAttention_forward a x).
Proof.
  unfold CausalSelfAttention_forward, split3, heads, floordiv, inv_sqrt.
  no_assert.
Qed.

#[local] Hint Resolve not_assertion_CausalSelfAttention_forward : no_assert.

Lemma not_assertion_Block_forward (b : Block F) (x : Tensor3 F) :
  not_assertion (Block_forward b x).
Proof. unfold Block_forward, MLP_forward. no_assert. Qed.

#[local] Hint Resolve not_assertion_Block_forward : no_assert.

Lemma not_assertion_embedding_lookup (e : Embedding F) (i : Z) :
  not_assertion (embedding_lookup e i).
Proof. unfold embedding_lookup. no_assert. Qed.

#[local] Hint Resolve not_assertion_embedding_lookup : no_assert.

Lemma not_assertion_F_cross_entropy N C (input : list (list F)) target ignore :
  not_assertion (F_cross_entropy N C input target ignore).
Proof. unfold F_cross_entropy, cross_entropy_step. no_assert. Qed.

#[local] Hint Resolve not_assertion_F_cross_entropy : no_assert.

(** C6.  [GPT.forward] raises the assertion error of its length check, with
    the message of the source, exactly when the sequence length [T] of the
    batch exceeds [block_size]: it does so whatever the rest of the input
    is (nothing is truncated, no logits are returned), and for
    [T <= block_size] no assertion error is raised at all. *)
Theorem GPT_forward_length_check (self : GPT F) (idx : LongTensor)
  (targets : option LongTensor) :
  let T := snd (lt_size idx) in
  let bs := block_size (config self) in
  ((exists msg, GPT_forward self idx targets = Raise (AssertionError msg))
   <-> bs < T)
  /\ (GPT_forward self idx targets = Raise (AssertionError (length_msg T bs))
      <-> bs < T).
Proof.
  intros T bs. subst T bs. unfold GPT_forward.
  destruct (lt_size idx) as [b t]. cbn [snd].
  destruct (t <=? block_size (config self)) eqn:Ht; cbn [assert_ bind].
  - apply Nat.leb_le in Ht.
    assert (Hna : forall targets', not_assertion
      (tok_emb <- Embedding_forward (wte self) idx ;;
       pos_emb <- mapM (embedding_lookup (wpe self)) (arange t) ;;
       x <- add_pos tok_emb (embedding_dim (wpe self)) pos_emb ;;
       x <- foldM (fun x block => Block_forward block x) (h self) x ;;
       x <- LayerNorm_forward (ln_f self) x ;;
       match targets' with
       | Some targets =>
           logits <- Linear_forward (lm_head self) x ;;
           '(N, C, rows) <- view_rows logits ;;
           loss <- F_cross_entropy N C rows (concat (lt_data targets)) (-1) ;;
           Ok (logits, Some loss)
       | None =>
           x <- select_last x ;;
           logits <- Linear_forward (lm_head self) x ;;
           Ok (logits, None)
       end)).
    { intros targets'.
      unfold Embedding_forward, add_pos, view_rows, select_last. no_assert.
}
    split; split.
    + intros [msg Hmsg]. exfalso. exact (Hna targets msg Hmsg).
    + lia.
    + intros Hmsg. exfalso. exact (Hna targets _ Hmsg).
    + lia.
  - apply Nat.leb_gt in Ht. split; split; intros; try assumption.
    + eexists. reflexivity.
    + reflexivity.
Qed.


(** ** Sizes of the results of the layers *)

Lemma length_map2 {A B C : Type} (f : A -> B -> C) (l : list A) (l' : list B) :
  length (map2 f l l') = Nat.min (length l) (length l').
Proof.
  revert l'. induction l as [|a l IH]; intros [|b l']; simpl; auto.
Qed.

Lemma Forall_map2 {A B C : Type} (P : C -> Prop) (f : A -> B -> C)
  (l : list A) (l' : list B) :
  (forall a b, In a l -> In b l' -> P (f a b)) -> Forall P (map2 f l l').
Proof.
  revert l'. induction l as [|a l IH]; intros [|b l'] Hf; simpl; constructor.
  - apply Hf; left; reflexivity.
  - apply IH. intros a' b' Ha Hb. apply Hf; right; assumption.
Qed.

Lemma length_concat_uniform {A : Type} (n : nat) (l : list (list A)) :
  Forall (fun v => length v = n) l -> length (concat l) = length l * n.
Proof.
  induction 1 as [|v l Hv _ IH]; simpl; [reflexivity|].
  rewrite length_app, Hv, IH. reflexivity.
Qed.

Lemma Forall2_length_Forall {A B : Type} (Q : B -> Prop) (l : list A) (l' : list B) :
  Forall2 (fun _ b => Q b) l l' -> length l' = length l /\ Forall Q l'.
Proof.
  induction 1 as [|a b l l' Hb _ [IHl IHQ]]; simpl.
  - split; [reflexivity | constructor].
  - split; [congruence | constructor; assumption].
Qed.

Lemma shaped_intro (B T C : nat) (data : list (list (list F))) :
  length data = B -> Forall (wf_matrix T C) data ->
  shaped B T C (mkTensor3 (B, T, C) data).
Proof. intros HB HF. split; [reflexivity | split; assumption]. Qed.

Lemma shaped_inv (B T C : nat) (x : Tensor3 F) :
  shaped B T C x ->
  t3_size x = (B, T, C) /\ length (t3_data x) = B /\
  Forall (wf_matrix T C) (t3_data x).
Proof.
  intros [Hs Hwf]. unfold wf_Tensor3 in Hwf. rewrite Hs in Hwf.
  split; [assumption | exact Hwf].
Qed.

Lemma shaped_map_last (f : list F -> list F) (B T C C' : nat) (x : Tensor3 F) :
  (forall v, length v = C -> length (f v) = C') ->
  shaped B T C x -> shaped B T C' (map_last f C' x).
Proof.
  intros Hf Hx. apply shaped_inv in Hx. destruct Hx as [Hs [HB HF]].
  unfold map_last. rewrite Hs. apply shaped_intro.
  - rewrite length_map. assumption.
  - apply Forall_map. eapply Forall_impl; [|exact HF].
    intros m [HT HC]. split.
    + rewrite length_map. assumption.
    + apply Forall_map. eapply Forall_impl; [|exact HC]. exact Hf.
Qed.

Lemma length_F_linear (weight : list (list F)) (b : option (list F)) (x : list F)
  (fout : nat) :
  length weight = fout ->
  match b with Some b => length b = fout | None => True end ->
  length (F_linear weight b x) = fout.
Proof.
  intros Hw Hb. unfold F_linear. destruct b as [b|].
  - rewrite length_map2, length_map. lia.
  - rewrite length_map. assumption.
Qed.

Lemma Linear_forward_shaped (fin fout : nat) (wb : bool) (l : Linear F)
  (B T : nat) (x : Tensor3 F) :
  wf_Linear fin fout wb l -> shaped B T fin x ->
  exists y, Linear_forward l x = Ok y /\ shaped B T fout y.
Proof.
  intros [Hin [Hout [[Hw _] Hb]]] Hx.
  unfold Linear_forward. rewrite (proj1 Hx), Hin, Nat.eqb_refl. simpl.
  eexists. split; [reflexivity|]. rewrite Hout.
  eapply shaped_map_last; [|exact Hx].
  intros v _. apply length_F_linear; [assumption|].
  destruct (l_bias l); [apply Hb | exact I].
Qed.

Lemma length_F_layer_norm (w b x : list F) (C : nat) :
  length w = C -> length b = C -> length x = C -> length (F_layer_norm w b x) = C.
Proof.
  intros Hw Hb Hx. unfold F_layer_norm.
  rewrite !length_map2, length_map. lia.
Qed.

Lemma LayerNorm_forward_shaped (C : nat) (l : LayerNorm F) (B T : nat)
  (x : Tensor3 F) :
  wf_LayerNorm C l -> shaped B T C x ->
  exists y, LayerNorm_forward l x = Ok y /\ shaped B T C y.
Proof.
  intros [Hn [Hw Hb]] Hx.
  unfold LayerNorm_forward. rewrite (proj1 Hx), Hn, Nat.eqb_refl. simpl.
  eexists. split; [reflexivity|].
  eapply shaped_map_last; [|exact Hx].
  intros v Hv. apply length_F_layer_norm; assumption.
Qed.

Lemma add3_shaped (B T C : nat) (x y : Tensor3 F) :
  shaped B T C x -> shaped B T C y ->
  exists z, add3 x y = Ok z /\ shaped B T C z.
Proof.
  intros Hx Hy. apply shaped_inv in Hx, Hy.
  destruct Hx as [Hsx [HBx HFx]], Hy as [Hsy [HBy HFy]].
  unfold add3. rewrite Hsx, Hsy, !Nat.eqb_refl. simpl.
  eexists. split; [reflexivity|]. apply shaped_intro.
  - rewrite length_map2. lia.
  - apply Forall_map2. intros a b Ha Hb.
    rewrite Forall_forall in HFx, HFy.
    destruct (HFx a Ha) as [HTa HCa], (HFy b Hb) as [HTb HCb]. split.
    + rewrite length_map2. lia.
    + apply Forall_map2. intros u v Hu Hv.
      rewrite Forall_forall in HCa, HCb.
      rewrite length_map2, (HCa u Hu), (HCb v Hv). lia.
Qed.

Lemma NewGELU_forward_shaped (B T C : nat) (x : Tensor3 F) :
  shaped B T C x -> shaped B T C (NewGELU_forward x).
Proof.
  intros Hx. unfold NewGELU_forward. rewrite (proj1 Hx).
  eapply shaped_map_last; [|exact Hx].
  intros v Hv. rewrite length_map. assumption.
Qed.

Lemma MLP_forward_shaped (cfg : GPTConfig) (m : MLP F) (B T : nat) (x : Tensor3 F) :
  wf_MLP cfg m -> shaped B T (n_embd cfg) x ->
  exists y, MLP_forward m x = Ok y /\ shaped B T (n_embd cfg) y.
Proof.
  intros [Hfc Hproj] Hx. unfold MLP_forward.
  destruct (Linear_forward_shaped Hfc Hx) as [y [Hy Hys]]. rewrite Hy. simpl.
  apply (Linear_forward_shaped Hproj). apply NewGELU_forward_shaped. assumption.
Qed.


Lemma length_chunk (n j W : nat) (row : list F) :
  length row = W -> length (chunk n j row) = Nat.min n (W - j * n).
Proof.
  intros Hrow. unfold chunk. rewrite length_firstn, length_skipn, Hrow. reflexivity.
Qed.

Lemma split3_shaped (n B T : nat) (qkv : Tensor3 F) :
  1 <= n -> shaped B T (3 * n) qkv ->
  exists q k v, split3 n qkv = Ok (q, k, v) /\
                shaped B T n q /\ shaped B T n k /\ shaped B T n v.
Proof.
  intros Hn Hx. unfold split3. rewrite (proj1 Hx).
  assert (Hn0 : (n =? 0) = false) by (apply Nat.eqb_neq; lia).
  assert (Hdiv : (3 * n + n - 1) / n = 3).
  { symmetry. apply Nat.div_unique with (r := n - 1); lia. }
  rewrite Hn0, Hdiv. cbn [negb orb torch_check bind Nat.max Nat.eqb].
  replace (3 * n - 2 * n) with n by lia.
  exists (map_last (chunk n 0) n qkv), (map_last (chunk n 1) n qkv),
         (map_last (chunk n 2) n qkv).
  split; [reflexivity|].
  repeat split; (eapply shaped_map_last; [|exact Hx]); intros v Hv;
    rewrite length_chunk with (W := 3 * n) by assumption; lia.
Qed.

Lemma heads_shaped (nh hs B T W : nat) (x : Tensor3 F) :
  shaped B T W x -> nh * hs = W ->
  exists y, heads nh hs x = Ok y /\ wf_heads B nh T y.
Proof.
  intros Hx HW. apply shaped_inv in Hx. destruct Hx as [Hs [HB HF]].
  unfold heads. rewrite Hs, HW, Nat.eqb_refl. simpl.
  eexists. split; [reflexivity|]. split.
  - rewrite length_map. assumption.
  - apply Forall_map. eapply Forall_impl; [|exact HF].
    intros xb [HT _]. split.
    + rewrite length_map, length_seq. reflexivity.
    + apply Forall_map. apply Forall_forall. intros hd _.
      rewrite length_map. assumption.
Qed.

Lemma length_tril_ones (n : nat) : length (tril_ones n) = n.
Proof. unfold tril_ones. rewrite length_map, length_seq. reflexivity. Qed.

Lemma attend_shaped (bias : list (list nat)) (T hs : nat) (scale : F)
  (q k v : list (list F)) :
  length q = T -> T <= length bias ->
  exists y, attend bias T hs scale q k v = Ok y /\ wf_matrix T hs y.
Proof.
  intros Hq HT. unfold attend, masked_fill.
  apply Nat.leb_le in HT. rewrite HT. apply Nat.leb_le in HT. simpl.
  eexists. split; [reflexivity|]. unfold matmul, matmul_nt. split.
  - rewrite !length_map, length_map2, length_firstn, !length_map. lia.
  - apply Forall_map. apply Forall_forall. intros w _.
    unfold transpose. rewrite !length_map, length_seq. reflexivity.
Qed.

Lemma length_combine3 {A B C : Type} (n : nat) (a : list A) (b : list B) (c : list C) :
  length a = n -> length b = n -> length c = n ->
  length (combine a (combine b c)) = n.
Proof. intros Ha Hb Hc. rewrite !length_combine. lia. Qed.

Lemma in_combine3 {A B C : Type} (a : list A) (b : list B) (c : list C) x y z :
  In (x, (y, z)) (combine a (combine b c)) -> In x a /\ In y b /\ In z c.
Proof.
  intros Hin. split; [eapply in_combine_l; eassumption|].
  apply in_combine_r in Hin. split.
  - eapply in_combine_l; eassumption.
  - eapply in_combine_r; eassumption.
Qed.

Lemma merge_heads_shaped (nh T hs : nat) (yb : list (list (list F))) :
  length yb = nh -> Forall (wf_matrix T hs) yb ->
  wf_matrix T (nh * hs) (merge_heads T yb).
Proof.
  intros Hnh Hyb. unfold merge_heads. split.
  - rewrite length_map, length_seq. reflexivity.
  - apply Forall_map. apply Forall_forall. intros t Ht. apply in_seq in Ht.
    rewrite (@length_concat_uniform _ hs).
    + rewrite length_map, Hnh. reflexivity.
    + apply Forall_map. eapply Forall_impl; [|exact Hyb].
      intros yh [HT Hrows]. rewrite Forall_forall in Hrows. apply Hrows.
      apply nth_In. lia.
Qed.

Lemma attend_heads_shaped (bias : list (list nat)) (B nh T hs : nat) (scale : F)
  (q k v : list (list (list (list F)))) :
  wf_heads B nh T q -> wf_heads B nh T k -> wf_heads B nh T v ->
  T <= length bias ->
  exists y,
    mapM (fun '(qb, (kb, vb)) =>
            mapM (fun '(qh, (kh, vh)) => attend bias T hs scale qh kh vh)
                 (combine qb (combine kb vb)))
         (combine q (combine k v)) = Ok y /\
    length y = B /\
    Forall (fun yb => length yb = nh /\ Forall (wf_matrix T hs) yb) y.
Proof.
  intros [HqB Hq] [HkB Hk] [HvB Hv] HT.
  destruct (@mapM_Ok _ _
    (fun _ yb => length yb = nh /\ Forall (wf_matrix T hs) yb)
    (fun '(qb, (kb, vb)) =>
       mapM (fun '(qh, (kh, vh)) => attend bias T hs scale qh kh vh)
            (combine qb (combine kb vb)))
    (combine q (combine k v))) as [y [Hy HF]].
  - apply Forall_forall. intros [qb [kb vb]] Hin.
    apply in_combine3 in Hin. destruct Hin as [Hqb [Hkb Hvb]].
    rewrite Forall_forall in Hq, Hk, Hv.
    destruct (Hq qb Hqb) as [Hqn Hqh], (Hk kb Hkb) as [Hkn Hkh],
             (Hv vb Hvb) as [Hvn Hvh].
    destruct (@mapM_Ok _ _ (fun _ yh => wf_matrix T hs yh)
      (fun '(qh, (kh, vh)) => attend bias T hs scale qh kh vh)
      (combine qb (combine kb vb))) as [yb [Hyb HFb]].
    + apply Forall_forall. intros [qh [kh vh]] Hin.
      apply in_combine3 in Hin. destruct Hin as [Hqh' _].
      rewrite Forall_forall in Hqh.
      apply attend_shaped; [apply Hqh; assumption | assumption].
    + exists yb. split; [assumption|].
      apply Forall2_length_Forall in HFb. destruct HFb as [Hlen HFb].
      split; [|assumption].
      rewrite Hlen. apply length_combine3; assumption.
  - exists y. split; [assumption|].
    apply Forall2_length_Forall in HF. destruct HF as [Hlen HF].
    split; [|assumption].
    rewrite Hlen. apply length_combine3; assumption.
Qed.

Lemma heads_divide_exact (cfg : GPTConfig) :
  heads_divide cfg ->
  n_head cfg * (n_embd cfg / n_head cfg) = n_embd cfg.
Proof.
  intros [Hnh Hmod]. symmetry. apply Nat.Div0.div_exact. assumption.
Qed.

Lemma CausalSelfAttention_forward_shaped (cfg : GPTConfig)
  (a : CausalSelfAttention F) (B T : nat) (x : Tensor3 F) :
  wf_CausalSelfAttention cfg a -> heads_divide cfg -> 1 <= n_embd cfg ->
  T <= block_size cfg -> shaped B T (n_embd cfg) x ->
  exists y, CausalSelfAttention_forward a x = Ok y /\ shaped B T (n_embd cfg) y.
Proof.
  intros [Hattn [Hproj [Hnh [Hne Hbias]]]] Hdiv HC HT Hx.
  pose proof (heads_divide_exact Hdiv) as Hexact.
  set (C := n_embd cfg) in *. set (nh := n_head cfg) in *.
  unfold CausalSelfAttention_forward. rewrite (proj1 Hx).
  destruct (Linear_forward_shaped Hattn Hx) as [qkv [Hqkv Hqkvs]].
  rewrite Hqkv. cbn [bind].
  destruct (split3_shaped HC Hqkvs) as [q [k [v [Hsplit [Hq [Hk Hv]]]]]].
  rewrite Hne, Hsplit. cbn [bind].
  unfold floordiv. rewrite Hnh.
  assert (Hnh0 : (nh =? 0) = false) by (apply Nat.eqb_neq; apply Hdiv).
  rewrite Hnh0. cbn [bind].
  set (hs := C / nh) in *.
  destruct (heads_shaped nh hs Hk Hexact) as [k' [Hk' Hkw]].
  destruct (heads_shaped nh hs Hq Hexact) as [q' [Hq' Hqw]].
  destruct (heads_shaped nh hs Hv Hexact) as [v' [Hv' Hvw]].
  rewrite Hk'. cbn [bind]. rewrite Hq'. cbn [bind]. rewrite Hv'. cbn [bind].
  unfold inv_sqrt.
  assert (Hhs0 : (hs =? 0) = false).
  { apply Nat.eqb_neq. intros H0. rewrite H0 in Hexact. lia. }
  rewrite Hhs0. cbn [bind].
  assert (HTb : T <= length (bias a)) by (rewrite Hbias, length_tril_ones; assumption).
  destruct (@attend_heads_shaped (bias a) B nh T hs
              (fdiv (of_Q 1.0%Q) (fsqrt (of_nat hs))) q' k' v' Hqw Hkw Hvw HTb)
    as [y [Hy [HyB HyF]]].
  rewrite Hy. cbn [bind].
  assert (Hchk : (B * nh * T * hs =? B * T * C) = true).
  { apply Nat.eqb_eq. rewrite <- Hexact. ring. }
  rewrite Hchk. cbn [torch_check bind].
  apply (Linear_forward_shaped Hproj). apply shaped_intro.
  - rewrite length_map. assumption.
  - apply Forall_map. eapply Forall_impl; [|exact HyF].
    intros yb [Hyb HybF]. rewrite <- Hexact.
    apply merge_heads_shaped; assumption.
Qed.

Lemma Block_forward_shaped (cfg : GPTConfig) (b : Block F) (B T : nat)
  (x : Tensor3 F) :
  wf_Block cfg b -> heads_divide cfg -> 1 <= n_embd cfg ->
  T <= block_size cfg -> shaped B T (n_embd cfg) x ->
  exists y, Block_forward b x = Ok y /\ shaped B T (n_embd cfg) y.
Proof.
  intros [Hln1 [Hattn [Hln2 Hmlp]]] Hdiv HC HT Hx. unfold Block_forward.
  destruct (LayerNorm_forward_shaped Hln1 Hx) as [n1 [Hn1 Hn1s]].
  rewrite Hn1. cbn [bind].
  destruct (CausalSelfAttention_forward_shaped Hattn Hdiv HC HT Hn1s)
    as [y [Hy Hys]].
  rewrite Hy. cbn [bind].
  destruct (add3_shaped Hx Hys) as [x1 [Hx1 Hx1s]]. rewrite Hx1. cbn [bind].
  destruct (LayerNorm_forward_shaped Hln2 Hx1s) as [n2 [Hn2 Hn2s]].
  rewrite Hn2. cbn [bind].
  destruct (MLP_forward_shaped Hmlp Hn2s) as [m [Hm Hms]]. rewrite Hm. cbn [bind].
  apply add3_shaped; assumption.
Qed.


(** ** [GPT.forward] *)

Lemma embedding_lookup_Ok (n d : nat) (e : Embedding F) (i : Z) :
  wf_Embedding n d e -> (0 <= i < Z.of_nat n)%Z ->
  exists row, embedding_lookup e i = Ok row /\ length row = d.
Proof.
  intros [Hn [Hd [Hrows Hcols]]] Hi. unfold embedding_lookup. rewrite Hn.
  assert (Hb : ((0 <=? i)%Z && (i <? Z.of_nat n)%Z) = true).
  { apply andb_true_iff. split; [apply Z.leb_le | apply Z.ltb_lt]; lia. }
  rewrite Hb.
  destruct (nth_error (e_weight e) (Z.to_nat i)) as [row|] eqn:Hrow.
  - exists row. split; [reflexivity|].
    rewrite Forall_forall in Hcols. apply Hcols.
    eapply nth_error_In. eassumption.
  - apply nth_error_None in Hrow. lia.
Qed.

Lemma Embedding_forward_shaped (V C B T : nat) (e : Embedding F) (idx : LongTensor) :
  wf_Embedding V C e -> lt_size idx = (B, T) -> wf_LongTensor idx ->
  tokens_in_range V idx ->
  exists x, Embedding_forward e idx = Ok x /\ shaped B T C x.
Proof.
  intros He Hs Hwf Htok. unfold Embedding_forward. rewrite Hs.
  unfold wf_LongTensor in Hwf. rewrite Hs in Hwf. cbn [fst snd] in Hwf.
  destruct Hwf as [HB HT].
  destruct (@mapM_Ok _ _ (fun _ m => wf_matrix T C m)
              (mapM (embedding_lookup e)) (lt_data idx)) as [data [Hdata HF]].
  - unfold tokens_in_range in Htok.
    rewrite Forall_forall in *. intros row Hrow.
    destruct (@mapM_Ok _ _ (fun _ (v : list F) => length v = C)
                (embedding_lookup e) row) as [m [Hm HFm]].
    + specialize (Htok row Hrow). eapply Forall_impl; [|exact Htok].
      intros i Hi. eapply embedding_lookup_Ok; eassumption.
    + exists m. split; [assumption|].
      apply Forall2_length_Forall in HFm. destruct HFm as [Hlen HFm].
      split; [|assumption]. rewrite Hlen. apply HT. assumption.
  - rewrite Hdata. cbn [bind]. eexists. split; [reflexivity|].
    rewrite (proj1 (proj2 He)).
    apply Forall2_length_Forall in HF. destruct HF as [Hlen HF].
    apply shaped_intro; [congruence | assumption].
Qed.

Lemma position_embedding_Ok (bs C t : nat) (e : Embedding F) :
  wf_Embedding bs C e -> t <= bs ->
  exists pos_emb, mapM (embedding_lookup e) (arange t) = Ok pos_emb /\
                  wf_matrix t C pos_emb.
Proof.
  intros He Ht.
  destruct (@mapM_Ok _ _ (fun _ (v : list F) => length v = C)
              (embedding_lookup e) (arange t)) as [m [Hm HFm]].
  - unfold arange. apply Forall_map. apply Forall_forall. intros i Hi.
    apply in_seq in Hi. eapply embedding_lookup_Ok; [eassumption | lia].
  - exists m. split; [assumption|].
    apply Forall2_length_Forall in HFm. destruct HFm as [Hlen HFm].
    split; [|assumption].
    rewrite Hlen. unfold arange. rewrite length_map, length_seq. reflexivity.
Qed.

Lemma add_pos_shaped (B T C : nat) (tok_emb : Tensor3 F) (pos_emb : list (list F)) :
  shaped B T C tok_emb -> wf_matrix T C pos_emb ->
  exists x, add_pos tok_emb C pos_emb = Ok x /\ shaped B T C x.
Proof.
  intros Hx [HT HC]. apply shaped_inv in Hx. destruct Hx as [Hs [HB HF]].
  unfold add_pos. rewrite Hs, Nat.eqb_refl. cbn [torch_check bind].
  eexists. split; [reflexivity|]. apply shaped_intro.
  - rewrite length_map. assumption.
  - apply Forall_map. eapply Forall_impl; [|exact HF].
    intros xb [HTb HCb]. split.
    + rewrite length_map2. lia.
    + apply Forall_map2. intros u v Hu Hv.
      rewrite Forall_forall in HCb, HC.
      rewrite length_map2, (HCb u Hu), (HC v Hv). lia.
Qed.

(** The layers up to the final normalisation succeed and keep the size
    (B, T, n_embd); what remains of [GPT.forward] is the output projection. *)
Lemma GPT_forward_trunk (self : GPT F) (idx : LongTensor) (B T : nat) :
  wf_GPT self -> heads_divide (config self) -> 1 <= n_embd (config self) ->
  lt_size idx = (B, T) -> wf_LongTensor idx ->
  tokens_in_range (vocab_size (config self)) idx ->
  T <= block_size (config self) ->
  exists x, shaped B T (n_embd (config self)) x /\
    forall targets,
      GPT_forward self idx targets =
      match targets with
      | Some targets =>
          logits <- Linear_forward (lm_head self) x ;;
          '(N, C, rows) <- view_rows logits ;;
          loss <- F_cross_entropy N C rows (concat (lt_data targets)) (-1) ;;
          Ok (logits, Some loss)
      | None =>
          x <- select_last x ;;
          logits <- Linear_forward (lm_head self) x ;;
          Ok (logits, None)
      end.
Proof.
  intros [Hwte [Hwpe [Hlen [Hblocks [Hlnf Hhead]]]]] Hdiv HC Hs Hwf Htok HT.
  destruct (Embedding_forward_shaped Hwte Hs Hwf Htok) as [tok [Htok' Htoks]].
  destruct (position_embedding_Ok Hwpe HT) as [pos [Hpos Hposs]].
  destruct (add_pos_shaped Htoks Hposs) as [x0 [Hx0 Hx0s]].
  destruct (@foldM_invariant _ _ (shaped B T (n_embd (config self)))
              (wf_Block (config self))
              (fun x block => Block_forward block x) (h self) x0)
    as [x1 [Hx1 Hx1s]]; [| assumption | assumption |].
  { intros x b Hx Hb. apply (Block_forward_shaped Hb Hdiv HC HT Hx). }
  destruct (LayerNorm_forward_shaped Hlnf Hx1s) as [x2 [Hx2 Hx2s]].
  exists x2. split; [assumption|]. intros targets.
  unfold GPT_forward. rewrite Hs.
  apply Nat.leb_le in HT. rewrite HT. cbn [assert_ bind].
  rewrite Htok'. cbn [bind]. rewrite Hpos. cbn [bind].
  rewrite (proj1 (proj2 Hwpe)), Hx0. cbn [bind].
  rewrite Hx1. cbn [bind]. rewrite Hx2. cbn [bind]. reflexivity.
Qed.

Lemma select_last_shaped (B T C : nat) (x : Tensor3 F) :
  1 <= T -> shaped B T C x ->
  exists y, select_last x = Ok y /\ shaped B 1 C y.
Proof.
  intros HT Hx. apply shaped_inv in Hx. destruct Hx as [Hs [HB HF]].
  unfold select_last. rewrite Hs.
  assert (HT0 : (T =? 0) = false) by (apply Nat.eqb_neq; lia). rewrite HT0.
  eexists. split; [reflexivity|]. apply shaped_intro.
  - rewrite length_map. assumption.
  - apply Forall_map. eapply Forall_impl; [|exact HF].
    intros xb [HTb HCb]. split; [reflexivity|].
    constructor; [|constructor].
    rewrite Forall_forall in HCb. apply HCb. apply nth_In. lia.
Qed.

Lemma Forall_combine_snd {A B : Type} (P : B -> Prop) (l : list A) (l' : list B) :
  Forall P l' -> Forall (fun p => P (snd p)) (combine l l').
Proof.
  intros HP. apply Forall_forall. intros [a b] Hin.
  apply in_combine_r in Hin. rewrite Forall_forall in HP. apply HP. assumption.
Qed.

Lemma F_cross_entropy_Ok (N C : nat) (input : list (list F)) (target : list Z) :
  length target = N ->
  Forall (fun t => t = (-1)%Z \/ (0 <= t < Z.of_nat C)%Z) target ->
  exists loss, F_cross_entropy N C input target (-1) = Ok loss.
Proof.
  intros Hlen Htgt. unfold F_cross_entropy.
  rewrite Hlen, Nat.eqb_refl. cbn [torch_check bind].
  destruct (@foldM_invariant _ _ (fun _ : F * nat => True)
              (fun rt : list F * Z =>
                 snd rt = (-1)%Z \/ (0 <= snd rt < Z.of_nat C)%Z)
              (cross_entropy_step C (-1)) (combine input target) (fzero, 0))
    as [[total count] [Hfold _]].
  - intros acc [row t] _ Ht. cbn [snd] in Ht. unfold cross_entropy_step.
    destruct (Z.eqb_spec t (-1)) as [Heq|Hne].
    + exists acc. split; [reflexivity | exact I].
    + destruct Ht as [Ht|Ht]; [contradiction|].
      assert (Hb : ((0 <=? t)%Z && (t <? Z.of_nat C)%Z) = true).
      { apply andb_true_iff. split; [apply Z.leb_le | apply Z.ltb_lt]; lia. }
      rewrite Hb. eexists. split; [reflexivity | exact I].
  - apply Forall_combine_snd with (P := fun t => t = (-1)%Z \/ (0 <= t < Z.of_nat C)%Z).
    assumption.
  - exact I.
  - rewrite Hfold. cbn [bind]. eexists. reflexivity.
Qed.

Lemma length_concat_matrix {A : Type} (r c : nat) (m : list (list A)) :
  wf_matrix r c m -> length (concat m) = r * c.
Proof.
  intros [Hr Hc]. rewrite (length_concat_uniform Hc), Hr. reflexivity.
Qed.


Lemma GPT_forward_targets_shaped (self : GPT F) (idx targets : LongTensor)
  (B T : nat) :
  wf_GPT self -> heads_divide (config self) ->
  1 <= n_embd (config self) -> 1 <= vocab_size (config self) ->
  lt_size idx = (B, T) -> wf_LongTensor idx ->
  tokens_in_range (vocab_size (config self)) idx ->
  T <= block_size (config self) ->
  lt_size targets = (B, T) -> wf_LongTensor targets ->
  targets_in_range (vocab_size (config self)) targets ->
  exists logits loss,
    GPT_forward self idx (Some targets) = Ok (logits, Some loss) /\
    shaped B T (vocab_size (config self)) logits.
Proof.
  intros Hwf Hdiv HC HV Hs Hidx Htok HT Hst Htg Hrange.
  destruct (GPT_forward_trunk Hwf Hdiv HC Hs Hidx Htok HT) as [x [Hx Hfwd]].
  rewrite Hfwd.
  destruct Hwf as [_ [_ [_ [_ [_ Hhead]]]]].
  destruct (Linear_forward_shaped Hhead Hx) as [logits [Hlogits Hls]].
  rewrite Hlogits. cbn [bind].
  unfold view_rows. rewrite (proj1 Hls).
  assert (HV0 : (vocab_size (config self) =? 0) = false)
    by (apply Nat.eqb_neq; lia).
  rewrite HV0. cbn [negb torch_check bind].
  unfold wf_LongTensor in Htg. rewrite Hst in Htg. cbn [fst snd] in Htg.
  destruct (@F_cross_entropy_Ok (B * T) (vocab_size (config self))
              (concat (t3_data logits)) (concat (lt_data targets)))
    as [loss Hloss].
  - apply (length_concat_matrix Htg).
  - unfold targets_in_range in Hrange. apply Forall_concat. exact Hrange.
  - rewrite Hloss. cbn [bind]. exists logits, loss. split; [reflexivity | assumption].
Qed.

Lemma GPT_forward_inference_shaped (self : GPT F) (idx : LongTensor) (B T : nat) :
  wf_GPT self -> heads_divide (config self) -> 1 <= n_embd (config self) ->
  lt_size idx = (B, T) -> wf_LongTensor idx ->
  tokens_in_range (vocab_size (config self)) idx ->
  T <= block_size (config self) -> 1 <= T ->
  exists logits,
    GPT_forward self idx None = Ok (logits, None) /\
    shaped B 1 (vocab_size (config self)) logits.
Proof.
  intros Hwf Hdiv HC Hs Hidx Htok HT HT1.
  destruct (GPT_forward_trunk Hwf Hdiv HC Hs Hidx Htok HT) as [x [Hx Hfwd]].
  rewrite Hfwd.
  destruct Hwf as [_ [_ [_ [_ [_ Hhead]]]]].
  destruct (select_last_shaped HT1 Hx) as [y [Hy Hys]]. rewrite Hy. cbn [bind].
  destruct (Linear_forward_shaped Hhead Hys) as [logits [Hlogits Hls]].
  rewrite Hlogits. cbn [bind]. exists logits. split; [reflexivity | assumption].
Qed.

(** For an empty sequence and no targets, the selection of the last
    position raises [IndexError]. *)
Lemma GPT_forward_inference_empty (self : GPT F) (idx : LongTensor) (B : nat) :
  wf_GPT self -> heads_divide (config self) -> 1 <= n_embd (config self) ->
  lt_size idx = (B, 0) -> wf_LongTensor idx ->
  GPT_forward self idx None = Raise IndexError.
Proof.
  intros Hwf Hdiv HC Hs Hidx.
  assert (Htok : tokens_in_range (vocab_size (config self)) idx).
  { unfold tokens_in_range. unfold wf_LongTensor in Hidx. rewrite Hs in Hidx.
    destruct Hidx as [_ Hrows]. eapply Forall_impl; [|exact Hrows].
    intros row Hrow. cbn [snd] in Hrow.
    apply length_zero_iff_nil in Hrow. subst row. constructor. }
  destruct (GPT_forward_trunk Hwf Hdiv HC Hs Hidx Htok (Nat.le_0_l _))
    as [x [Hx Hfwd]].
  rewrite Hfwd. unfold select_last. rewrite (proj1 Hx). reflexivity.
Qed.

Lemma wf_tiny_Linear (fin fout : nat) :
  wf_Linear fin fout true (tiny_Linear (F := F) fin fout).
Proof.
  repeat split; cbn [tiny_Linear in_features out_features l_weight l_bias].
  - apply repeat_length.
  - apply Forall_forall. intros row Hrow. apply repeat_spec in Hrow. subst row.
    apply repeat_length.
  - apply repeat_length.
Qed.

Lemma wf_tiny_LayerNorm (C : nat) : wf_LayerNorm C (tiny_LayerNorm (F := F) C).
Proof. repeat split; apply repeat_length. Qed.

Lemma wf_tiny_Embedding (n d : nat) : wf_Embedding n d (tiny_Embedding (F := F) n d).
Proof.
  repeat split; cbn [tiny_Embedding e_weight].
  - apply repeat_length.
  - apply Forall_forall. intros row Hrow. apply repeat_spec in Hrow. subst row.
    apply repeat_length.
Qed.

Lemma wf_tiny_GPT : wf_GPT (tiny_GPT (F := F)).
Proof.
  unfold wf_GPT. cbn [tiny_GPT config wte wpe h ln_f lm_head].
  split; [apply wf_tiny_Embedding|]. split; [apply wf_tiny_Embedding|].
  split; [reflexivity|]. split.
  - constructor; [|constructor].
    split; [apply wf_tiny_LayerNorm|]. split.
    + split; [apply (wf_tiny_Linear 2 6)|]. split; [apply wf_tiny_Linear|].
      repeat split.
    + split; [apply wf_tiny_LayerNorm|].
      split; [apply (wf_tiny_Linear 2 8) | apply (wf_tiny_Linear 8 2)].
  - split; [apply wf_tiny_LayerNorm|].
    repeat split; cbn; repeat constructor.
Qed.

Lemma heads_divide_tiny : heads_divide tiny_config.
Proof. split; [discriminate | reflexivity]. Qed.

(** C1, as the code has it.  For a model built by the constructors whose
    config satisfies [n_embd % n_head == 0], with [n_embd >= 1], and a batch
    of token ids of size (B, T) with [T <= block_size]:
    with targets of size (B, T), each [-1] or a token id, and a non-empty
    vocabulary, [GPT.forward] returns logits of size (B, T, vocab_size) and
    a loss; without targets and with [T >= 1], it returns logits of size
    (B, 1, vocab_size) and no loss. *)
Theorem GPT_forward_shape (self : GPT F) (idx : LongTensor) (B T : nat) :
  wf_GPT self -> heads_divide (config self) -> 1 <= n_embd (config self) ->
  lt_size idx = (B, T) -> wf_LongTensor idx ->
  tokens_in_range (vocab_size (config self)) idx ->
  T <= block_size (config self) ->
  (forall targets,
     1 <= vocab_size (config self) ->
     lt_size targets = (B, T) -> wf_LongTensor targets ->
     targets_in_range (vocab_size (config self)) targets ->
     exists logits loss,
       GPT_forward self idx (Some targets) = Ok (logits, Some loss) /\
       shaped B T (vocab_size (config self)) logits)
  /\ (1 <= T ->
      exists logits,
        GPT_forward self idx None = Ok (logits, None) /\
        shaped B 1 (vocab_size (config self)) logits).
Proof.
  intros Hwf Hdiv HC Hs Hidx Htok HT. split.
  - intros targets HV Hst Htg Hrange.
    apply GPT_forward_targets_shaped; assumption.
  - intros HT1. apply GPT_forward_inference_shaped with (T := T); assumption.
Qed.

End ModelProperties.

Section LossProperties.

Context {F : Type} `{Scalar F}.

(** ** The loss *)

Lemma cross_entropy_fold (C : nat) (l : list (list F * Z)) (total : F) (count : nat) :
  Forall (fun rt => snd rt = (-1)%Z \/ (0 <= snd rt < Z.of_nat C)%Z) l ->
  foldM (cross_entropy_step C (-1)) l (total, count) =
  Ok (fold_left fadd
        (map (fun rt => nll (fst rt) (Z.to_nat (snd rt)))
             (filter (fun rt => negb (snd rt =? -1)%Z) l))
        total,
      count + length (filter (fun rt => negb (snd rt =? -1)%Z) l)).
Proof.
  intros Hl. revert total count.
  induction Hl as [|[row t] l Ht _ IH]; intros total count.
  - cbn [foldM filter map fold_left length]. rewrite Nat.add_0_r. reflexivity.
  - cbn [foldM filter snd fst]. cbn [snd] in Ht. unfold cross_entropy_step at 1.
    destruct (Z.eqb_spec t (-1)) as [Heq|Hne]; cbn [negb bind].
    + apply IH.
    + destruct Ht as [Ht|Ht]; [contradiction|].
      assert (Hb : ((0 <=? t)%Z && (t <? Z.of_nat C)%Z) = true).
      { apply andb_true_iff. split; [apply Z.leb_le | apply Z.ltb_lt]; lia. }
      rewrite Hb. cbn [bind fst snd]. rewrite IH.
      cbn [map fold_left length fst snd]. rewrite <- plus_n_Sm. reflexivity.
Qed.

(** C10.  The ignore sentinel passed by [GPT.forward] is [-1]: with
    targets, the loss it returns is the average cross-entropy over exactly
    the (batch, time) positions whose target is not [-1]; the positions
    whose target is [-1] do not enter the sum nor the count. *)
Theorem GPT_forward_loss_ignores_minus_one (self : GPT F) (idx targets : LongTensor)
  (B T : nat) :
  wf_GPT self -> heads_divide (config self) ->
  1 <= n_embd (config self) -> 1 <= vocab_size (config self) ->
  lt_size idx = (B, T) -> wf_LongTensor idx ->
  tokens_in_range (vocab_size (config self)) idx ->
  T <= block_size (config self) ->
  lt_size targets = (B, T) -> wf_LongTensor targets ->
  targets_in_range (vocab_size (config self)) targets ->
  exists logits,
    GPT_forward self idx (Some targets) =
    Ok (logits, Some (mean_cross_entropy (kept_positions logits targets))).
Proof.
  intros Hwf Hdiv HC HV Hs Hidx Htok HT Hst Htg Hrange.
  destruct (GPT_forward_trunk Hwf Hdiv HC Hs Hidx Htok HT) as [x [Hx Hfwd]].
  rewrite Hfwd.
  destruct Hwf as [_ [_ [_ [_ [_ Hhead]]]]].
  destruct (Linear_forward_shaped Hhead Hx) as [logits [Hlogits Hls]].
  rewrite Hlogits. cbn [bind]. exists logits.
  unfold view_rows. rewrite (proj1 Hls).
  assert (HV0 : (vocab_size (config self) =? 0) = false)
    by (apply Nat.eqb_neq; lia).
  rewrite HV0. cbn [negb torch_check bind].
  unfold wf_LongTensor in Htg. rewrite Hst in Htg. cbn [fst snd] in Htg.
  unfold F_cross_entropy.
  rewrite (length_concat_matrix Htg), Nat.eqb_refl. cbn [torch_check bind].
  rewrite cross_entropy_fold.
  - cbn [bind]. reflexivity.
  - apply Forall_combine_snd
      with (P := fun t => t = (-1)%Z \/ (0 <= t < Z.of_nat (vocab_size (config self)))%Z).
    apply Forall_concat. exact Hrange.
Qed.

End LossProperties.

(** ** The small model, over the reals *)

Lemma wf_idx_2 : wf_LongTensor idx_2 /\ tokens_in_range 3 idx_2.
Proof.
  split.
  - split; [reflexivity | repeat constructor].
  - repeat constructor; cbn; lia.
Qed.

Lemma wf_targets_2 : wf_LongTensor targets_2 /\ targets_in_range 3 targets_2.
Proof.
  split.
  - split; [reflexivity | repeat constructor].
  - constructor; [|constructor].
    constructor; [right; cbn; lia|]. constructor; [left; reflexivity | constructor].
Qed.

Lemma GPT_forward_shape_witness :
  (exists logits loss,
     GPT_forward (tiny_GPT (F := R)) idx_2 (Some targets_2) = Ok (logits, Some loss) /\
     shaped 1 2 3 logits)
  /\ (exists logits,
        GPT_forward (tiny_GPT (F := R)) idx_2 None = Ok (logits, None) /\
        shaped 1 1 3 logits).
Proof.
  destruct (@GPT_forward_shape R R_Scalar tiny_GPT idx_2 1 2
              wf_tiny_GPT heads_divide_tiny (le_S _ _ (le_n 1)) eq_refl
              (proj1 wf_idx_2) (proj2 wf_idx_2) (le_n 2)) as [Htargets Hnone].
  split.
  - apply Htargets.
    + cbn. lia.
    + reflexivity.
    + exact (proj1 wf_targets_2).
    + exact (proj2 wf_targets_2).
  - apply Hnone. lia.
Defined.

(** C1 as stated fails on a batch of empty sequences: the size (1, 0)
    satisfies [T <= block_size], and without targets [GPT.forward] raises
    [IndexError] at [x[:, [-1], :]]. *)
Lemma GPT_forward_shape_counterexample :
  wf_GPT (tiny_GPT (F := R)) /\ heads_divide tiny_config /\
  lt_size idx_empty = (1, 0) /\ wf_LongTensor idx_empty /\
  tokens_in_range 3 idx_empty /\ 0 <= block_size tiny_config /\
  GPT_forward (tiny_GPT (F := R)) idx_empty None = Raise IndexError /\
  ~ (exists logits, GPT_forward (tiny_GPT (F := R)) idx_empty None = Ok (logits, None)).
Proof.
  assert (Hwf : wf_LongTensor idx_empty) by (split; [reflexivity | repeat constructor]).
  assert (Hraise : GPT_forward (tiny_GPT (F := R)) idx_empty None = Raise IndexError).
  { apply GPT_forward_inference_empty with (B := 1).
    - apply wf_tiny_GPT.
    - apply heads_divide_tiny.
    - cbn. lia.
    - reflexivity.
    - exact Hwf. }
  split; [apply wf_tiny_GPT|]. split; [apply heads_divide_tiny|].
  split; [reflexivity|]. split; [exact Hwf|].
  split; [repeat constructor|]. split; [cbn; lia|]. split; [exact Hraise|].
  intros [logits Hlogits]. rewrite Hraise in Hlogits. discriminate.
Qed.

Lemma GPT_forward_loss_ignores_minus_one_witness :
  exists logits,
    GPT_forward (tiny_GPT (F := R)) idx_2 (Some targets_2) =
    Ok (logits, Some (mean_cross_entropy (kept_positions logits targets_2))).
Proof.
  apply (@GPT_forward_loss_ignores_minus_one R R_Scalar tiny_GPT idx_2 targets_2 1 2).
  - apply wf_tiny_GPT.
  - apply heads_divide_tiny.
  - cbn. lia.
  - cbn. lia.
  - reflexivity.
  - exact (proj1 wf_idx_2).
  - exact (proj2 wf_idx_2).
  - cbn. lia.
  - reflexivity.
  - exact (proj1 wf_targets_2).
  - exact (proj2 wf_targets_2).
Defined.


(* ------------------------------------------------------------------ *)
(** ** Causal masking *)

Section Causality.

Context {F : Type} `{Scalar F}.

Lemma mapM_map_Ok {A B C : Type} (f : B -> result C) (g : A -> B) (r : A -> C)
  (l : list A) :
  (forall a, In a l -> f (g a) = Ok (r a)) -> mapM f (map g l) = Ok (map r l).
Proof.
  induction l as [|a l IH]; intros Hf; cbn [map mapM]; [reflexivity|].
  rewrite (Hf a (or_introl eq_refl)). cbn [bind].
  rewrite IH; [reflexivity|]. intros a' Ha'. apply Hf. right. assumption.
Qed.

Lemma combine_map3 {A B C D : Type} (f : A -> B) (g : A -> C) (r : A -> D)
  (l : list A) :
  combine (map f l) (combine (map g l) (map r l)) =
  map (fun a => (f a, (g a, r a))) l.
Proof.
  induction l as [|a l IH]; cbn [map combine]; [reflexivity|].
  rewrite IH. reflexivity.
Qed.

Lemma attend_eq (bias : list (list nat)) (T hs : nat) (scale : F)
  (q k v : list (list F)) :
  T <= length bias ->
  attend bias T hs scale q k v = Ok (attend_value bias T hs scale q k v).
Proof.
  intros HT. unfold attend, masked_fill, attend_value.
  apply Nat.leb_le in HT. rewrite HT. reflexivity.
Qed.

(** The heads of a batch attend one by one. *)
Lemma attend_heads_eq (bias : list (list nat)) (nh T hs : nat) (scale : F)
  (Q K V : list (list F) -> list (list F)) (X : list (list (list F))) :
  T <= length bias ->
  mapM (fun '(qb, (kb, vb)) =>
          mapM (fun '(qh, (kh, vh)) => attend bias T hs scale qh kh vh)
               (combine qb (combine kb vb)))
       (combine (map (fun xb => map (fun h => map (chunk hs h) (Q xb)) (seq 0 nh)) X)
          (combine (map (fun xb => map (fun h => map (chunk hs h) (K xb)) (seq 0 nh)) X)
                   (map (fun xb => map (fun h => map (chunk hs h) (V xb)) (seq 0 nh)) X)))
  = Ok (map (fun xb =>
               map (fun h => attend_value bias T hs scale
                               (map (chunk hs h) (Q xb)) (map (chunk hs h) (K xb))
                               (map (chunk hs h) (V xb)))
                   (seq 0 nh)) X).
Proof.
  intros HT. rewrite combine_map3.
  apply (mapM_map_Ok
           (fun '(qb, (kb, vb)) =>
              mapM (fun '(qh, (kh, vh)) => attend bias T hs scale qh kh vh)
                   (combine qb (combine kb vb)))
           (fun xb => (map (fun h => map (chunk hs h) (Q xb)) (seq 0 nh),
                       (map (fun h => map (chunk hs h) (K xb)) (seq 0 nh),
                        map (fun h => map (chunk hs h) (V xb)) (seq 0 nh))))).
  intros xb _. cbv beta iota. rewrite combine_map3.
  apply (mapM_map_Ok
           (fun '(qh, (kh, vh)) => attend bias T hs scale qh kh vh)
           (fun h => (map (chunk hs h) (Q xb),
                      (map (chunk hs h) (K xb), map (chunk hs h) (V xb))))).
  intros hd _. cbv beta iota. apply attend_eq. assumption.
Qed.

(** Under the invariants of the constructor, [CausalSelfAttention.forward]
    succeeds and treats the batch elements one by one. *)
Lemma CausalSelfAttention_forward_eq (cfg : GPTConfig)
  (a : CausalSelfAttention F) (B T : nat) (x : Tensor3 F) :
  wf_CausalSelfAttention cfg a -> heads_divide cfg -> 1 <= n_embd cfg ->
  T <= block_size cfg -> shaped B T (n_embd cfg) x ->
  CausalSelfAttention_forward a x =
  Ok (mkTensor3 (B, T, n_embd cfg)
        (map (attention_batch a T (n_embd cfg / n_head cfg)
                (fdiv (of_Q 1.0%Q) (fsqrt (of_nat (n_embd cfg / n_head cfg)))))
             (t3_data x))).
Proof.
  intros [Hattn [Hproj [Hnh [Hne Hbias]]]] Hdiv HC HT Hx.
  pose proof (heads_divide_exact Hdiv) as Hexact.
  set (C := n_embd cfg) in *. set (nh := n_head cfg) in *.
  unfold CausalSelfAttention_forward. rewrite (proj1 Hx).
  destruct Hattn as [Hin [Hout _]]. destruct Hproj as [Hpin [Hpout _]].
  unfold Linear_forward at 1. rewrite (proj1 Hx), Hin, Nat.eqb_refl.
  cbn [torch_check bind]. unfold map_last at 1. rewrite (proj1 Hx).
  unfold split3. cbn [t3_size t3_data]. rewrite Hout, Hne.
  assert (Hn0 : (C =? 0) = false) by (apply Nat.eqb_neq; lia).
  assert (Hd3 : (3 * C + C - 1) / C = 3).
  { symmetry. apply Nat.div_unique with (r := C - 1); lia. }
  rewrite Hn0, Hd3. cbn [negb orb torch_check bind Nat.max Nat.eqb].
  unfold floordiv. rewrite Hnh.
  assert (Hnh0 : (nh =? 0) = false) by (apply Nat.eqb_neq; apply Hdiv).
  rewrite Hnh0. cbn [bind]. set (hs := C / nh) in *.
  unfold heads, map_last. cbn [t3_size t3_data].
  replace (3 * C - 2 * C) with C by lia.
  rewrite Hexact, Nat.eqb_refl. cbn [torch_check bind].
  unfold inv_sqrt.
  assert (Hhs0 : (hs =? 0) = false).
  { apply Nat.eqb_neq. intros H0. rewrite H0 in Hexact. lia. }
  rewrite Hhs0. cbn [bind].
  assert (HTb : T <= length (bias a))
    by (rewrite Hbias, length_tril_ones; assumption).
  set (lin := F_linear (l_weight (c_attn a)) (l_bias (c_attn a))).
  rewrite !map_map.
  rewrite (@attend_heads_eq (bias a) nh T hs (fdiv (of_Q 1.0%Q) (fsqrt (of_nat hs)))
             (fun xb => map (chunk C 0) (map lin xb))
             (fun xb => map (chunk C 1) (map lin xb))
             (fun xb => map (chunk C 2) (map lin xb))
             (t3_data x) HTb).
  cbn [bind].
  assert (Hchk : (B * nh * T * hs =? B * T * C) = true).
  { apply Nat.eqb_eq. rewrite <- Hexact. ring. }
  rewrite Hchk. cbn [torch_check bind].
  unfold Linear_forward. cbn [t3_size t3_data].
  rewrite Hpin, Nat.eqb_refl. cbn [torch_check bind].
  unfold map_last. cbn [t3_size t3_data]. rewrite Hpout, !map_map.
  f_equal. f_equal. apply map_ext. intros xb.
  unfold attention_batch. rewrite Hnh, Hne. reflexivity.
Qed.

(** *** Rows of lists *)

Lemma nth_map_lt {A B : Type} (f : A -> B) (l : list A) (r : nat) (d : A) (d' : B) :
  r < length l -> nth r (map f l) d' = f (nth r l d).
Proof.
  intros Hr. rewrite (nth_indep _ d' (f d)) by (rewrite length_map; assumption).
  apply map_nth.
Qed.

Lemma nth_map2 {A B C : Type} (f : A -> B -> C) (l : list A) (l' : list B)
  (r : nat) (da : A) (db : B) (d : C) :
  r < length l -> r < length l' ->
  nth r (map2 f l l') d = f (nth r l da) (nth r l' db).
Proof.
  revert l' r. induction l as [|a l IH]; intros [|b l'] r Hl Hl'; simpl in *; try lia.
  destruct r as [|r]; [reflexivity|]. apply IH; lia.
Qed.

Lemma nth_map_seq {B : Type} (g : nat -> B) (n r : nat) (d : B) :
  r < n -> nth r (map g (seq 0 n)) d = g r.
Proof.
  intros Hr. rewrite nth_map_lt with (d := 0) by (rewrite length_seq; assumption).
  rewrite seq_nth by assumption. reflexivity.
Qed.

Lemma firstn_ext_nth {A : Type} (n : nat) (l l' : list A) (d : A) :
  length l = length l' ->
  (forall r, r < n -> r < length l -> nth r l d = nth r l' d) ->
  firstn n l = firstn n l'.
Proof.
  intros Hlen Hnth. apply nth_ext with (d := d) (d' := d).
  - rewrite !length_firstn. lia.
  - intros r Hr. rewrite length_firstn in Hr. rewrite !nth_firstn.
    destruct (Nat.ltb_spec r n); [|reflexivity]. apply Hnth; lia.
Qed.

Lemma firstn_eq_nth {A : Type} (n r : nat) (l l' : list A) (d : A) :
  firstn n l = firstn n l' -> r < n -> nth r l d = nth r l' d.
Proof.
  intros Heq Hr.
  assert (Hl : nth r (firstn n l) d = nth r l d).
  { rewrite nth_firstn. apply Nat.ltb_lt in Hr. rewrite Hr. reflexivity. }
  assert (Hl' : nth r (firstn n l') d = nth r l' d).
  { rewrite nth_firstn. apply Nat.ltb_lt in Hr. rewrite Hr. reflexivity. }
  rewrite <- Hl, <- Hl', Heq. reflexivity.
Qed.

Lemma firstn_seq_le (T n start : nat) :
  T <= n -> firstn T (seq start n) = seq start T.
Proof.
  revert n start. induction T as [|T IH]; intros n start HT; [reflexivity|].
  destruct n as [|n]; [lia|]. cbn [seq firstn]. rewrite IH by lia. reflexivity.
Qed.

(** Row [r] of the mask [bias[:T, :T]]: ones up to column [r], zeros after. *)
Lemma mask_row (bs T r : nat) :
  T <= bs -> r < T ->
  nth r (firstn T (map (firstn T) (tril_ones bs))) [] =
  map (fun j => if j <=? r then 1 else 0) (seq 0 T).
Proof.
  intros HT Hr. rewrite nth_firstn.
  apply Nat.ltb_lt in Hr. rewrite Hr. apply Nat.ltb_lt in Hr.
  rewrite nth_map_lt with (d := []) by (rewrite length_tril_ones; lia).
  unfold tril_ones. rewrite nth_map_seq by lia.
  rewrite firstn_map, firstn_seq_le by assumption. reflexivity.
Qed.

(** Row [r] of the masked scores of one head: the scaled products with the
    keys up to position [r], minus infinity after. *)
Lemma masked_scores_row (bs T r : nat) (scale : F) (q k : list (list F)) :
  T <= bs -> length q = T -> length k = T -> r < T ->
  nth r (map2 masked_fill_row (firstn T (map (firstn T) (tril_ones bs)))
               (map (map (fun a => fmul a scale)) (matmul_nt q k))) [] =
  map2 (fun j kj => if j <=? r then Some (fmul (dot (nth r q []) kj) scale) else None)
       (seq 0 T) k.
Proof.
  intros HT Hq Hk Hr.
  rewrite nth_map2 with (da := []) (db := []).
  2: { rewrite length_firstn, length_map, length_tril_ones. lia. }
  2: { unfold matmul_nt. rewrite !length_map. lia. }
  rewrite mask_row by assumption.
  unfold matmul_nt.
  rewrite nth_map_lt with (d := []) by (rewrite length_map; lia).
  rewrite nth_map_lt with (d := []) by lia.
  unfold masked_fill_row.
  apply nth_ext with (d := None) (d' := None).
  - rewrite !length_map2, !length_map, length_seq. reflexivity.
  - intros j Hj.
    rewrite length_map2, !length_map, length_seq in Hj.
    rewrite nth_map2 with (da := 0) (db := fzero)
      by (rewrite ?length_map, ?length_seq; lia).
    rewrite nth_map2 with (da := 0) (db := [])
      by (rewrite ?length_seq; lia).
    rewrite nth_map_seq by lia. rewrite seq_nth by lia. cbn [Nat.add].
    rewrite nth_map_lt with (d := fzero) by (rewrite length_map; lia).
    rewrite nth_map_lt with (d := []) by lia.
    destruct (j <=? r); reflexivity.
Qed.

Lemma attend_value_row (bs T hs r : nat) (scale : F) (q k v : list (list F)) :
  T <= bs -> length q = T -> length k = T -> r < T ->
  nth r (attend_value (tril_ones bs) T hs scale q k v) [] =
  map (dot (F_softmax
              (map2 (fun j kj => if j <=? r
                                 then Some (fmul (dot (nth r q []) kj) scale)
                                 else None)
                    (seq 0 T) k)))
      (transpose fzero hs v).
Proof.
  intros HT Hq Hk Hr. unfold attend_value, matmul. unfold matmul_nt at 1.
  assert (Hlen : length (map2 masked_fill_row
                           (firstn T (map (firstn T) (tril_ones bs)))
                           (map (map (fun a => fmul a scale)) (matmul_nt q k))) = T).
  { unfold matmul_nt.
    rewrite length_map2, length_firstn, !length_map, length_tril_ones. lia. }
  rewrite nth_map_lt with (d := []) by (rewrite length_map; lia).
  rewrite nth_map_lt with (d := []) by lia.
  rewrite masked_scores_row by assumption. reflexivity.
Qed.

Lemma length_attend_value (bias : list (list nat)) (T hs : nat) (scale : F)
  (q k v : list (list F)) :
  length q = T -> T <= length bias ->
  length (attend_value bias T hs scale q k v) = T.
Proof.
  intros Hq HT. unfold attend_value, matmul, matmul_nt.
  rewrite !length_map, length_map2, length_firstn, !length_map. lia.
Qed.

End Causality.

(** *** No information flows from later positions *)

Section NoLeak.

Context {F : Type} `{Scalar F}.

(** The two laws of arithmetic the argument uses: a zero weight cancels
    whatever it multiplies, and zero divided by the normaliser is zero. *)
Hypothesis fmul_zero_l : forall x : F, fmul fzero x = fzero.
Hypothesis fdiv_zero_l : forall s : F, fdiv fzero s = fzero.

Lemma masked_row_agree (T r i : nat) (scale : F) (qr : list F)
  (k k' : list (list F)) :
  length k = T -> length k' = T -> r <= i ->
  firstn (S i) k = firstn (S i) k' ->
  map2 (fun j kj => if j <=? r then Some (fmul (dot qr kj) scale) else None)
       (seq 0 T) k =
  map2 (fun j kj => if j <=? r then Some (fmul (dot qr kj) scale) else None)
       (seq 0 T) k'.
Proof.
  intros Hk Hk' Hr Hagree. apply nth_ext with (d := None) (d' := None).
  - rewrite !length_map2, length_seq. lia.
  - intros j Hj. rewrite length_map2, length_seq in Hj.
    rewrite !nth_map2 with (da := 0) (db := []) by (rewrite ?length_seq; lia).
    rewrite seq_nth by lia. cbn [Nat.add].
    destruct (Nat.leb_spec j r) as [Hjr|Hjr]; [|reflexivity].
    rewrite (@firstn_eq_nth _ (S i) j k k' [] Hagree) by lia. reflexivity.
Qed.

Lemma softmax_masked_tail (T r j : nat) (g : list F -> F) (k : list (list F)) :
  length k = T -> r < j -> j < T ->
  nth j (F_softmax (map2 (fun j kj => if j <=? r then Some (g kj) else None)
                         (seq 0 T) k)) fzero = fzero.
Proof.
  intros Hk Hrj HjT. unfold F_softmax.
  rewrite nth_map_lt with (d := None)
    by (rewrite length_map2, length_seq; lia).
  rewrite nth_map2 with (da := 0) (db := []) by (rewrite ?length_seq; lia).
  rewrite seq_nth by lia. cbn [Nat.add].
  destruct (Nat.leb_spec j r) as [Hle|_]; [lia|].
  cbn [xexp]. apply fdiv_zero_l.
Qed.

Lemma dot_masked_agree (T r : nat) (w col col' : list F) :
  length col = T -> length col' = T ->
  (forall j, j <= r -> nth j col fzero = nth j col' fzero) ->
  (forall j, r < j -> j < T -> nth j w fzero = fzero) ->
  dot w col = dot w col'.
Proof.
  intros Hc Hc' Hagree Hw. unfold dot. f_equal.
  apply nth_ext with (d := fzero) (d' := fzero).
  - rewrite !length_map2. lia.
  - intros j Hj. rewrite length_map2 in Hj.
    rewrite !nth_map2 with (da := fzero) (db := fzero) by lia.
    destruct (le_gt_dec j r) as [Hjr|Hjr].
    + rewrite (Hagree j Hjr). reflexivity.
    + rewrite (Hw j) by lia. rewrite !fmul_zero_l. reflexivity.
Qed.

Lemma attend_value_agree (bs T hs i : nat) (scale : F)
  (q q' k k' v v' : list (list F)) :
  T <= bs ->
  length q = T -> length q' = T -> length k = T -> length k' = T ->
  length v = T -> length v' = T ->
  firstn (S i) q = firstn (S i) q' ->
  firstn (S i) k = firstn (S i) k' ->
  firstn (S i) v = firstn (S i) v' ->
  firstn (S i) (attend_value (tril_ones bs) T hs scale q k v) =
  firstn (S i) (attend_value (tril_ones bs) T hs scale q' k' v').
Proof.
  intros HT Hq Hq' Hk Hk' Hv Hv' Aq Ak Av.
  apply firstn_ext_nth with (d := []).
  - rewrite !length_attend_value by (rewrite ?length_tril_ones; assumption).
    reflexivity.
  - intros r Hri Hr.
    rewrite length_attend_value in Hr by (rewrite ?length_tril_ones; assumption).
    rewrite !attend_value_row by assumption.
    rewrite (@firstn_eq_nth _ (S i) r q q' [] Aq) by lia.
    rewrite (@masked_row_agree T r i scale (nth r q' []) k k') by (assumption || lia).
    unfold transpose. rewrite !map_map. apply map_ext. intros d.
    apply dot_masked_agree with (T := T) (r := r).
    + rewrite length_map. assumption.
    + rewrite length_map. assumption.
    + intros j Hj.
      rewrite !nth_map_lt with (d := []) by lia.
      rewrite (@firstn_eq_nth _ (S i) j v v' [] Av) by lia. reflexivity.
    + intros j Hrj HjT.
      apply (@softmax_masked_tail T r j
               (fun kj => fmul (dot (nth r q' []) kj) scale) k'); assumption.
Qed.

Lemma in_firstn_seq (n T t : nat) : In t (firstn n (seq 0 T)) -> t < n /\ t < T.
Proof.
  intros Hin. destruct (le_lt_dec n T) as [Hle|Hlt].
  - rewrite firstn_seq_le in Hin by assumption. apply in_seq in Hin. lia.
  - rewrite firstn_all2 in Hin by (rewrite length_seq; lia).
    apply in_seq in Hin. lia.
Qed.

Lemma attention_batch_agree (cfg : GPTConfig) (a : CausalSelfAttention F)
  (T hs i : nat) (scale : F) (xb xb' : list (list F)) :
  bias a = tril_ones (block_size cfg) -> T <= block_size cfg ->
  length xb = T -> length xb' = T ->
  firstn (S i) xb = firstn (S i) xb' ->
  firstn (S i) (attention_batch a T hs scale xb) =
  firstn (S i) (attention_batch a T hs scale xb').
Proof.
  intros Hbias HT Hx Hx' Hagree. unfold attention_batch.
  rewrite !firstn_map. f_equal. unfold merge_heads.
  rewrite !firstn_map. apply map_ext_in. intros t Ht.
  apply in_firstn_seq in Ht. destruct Ht as [Hti HtT].
  rewrite !map_map. f_equal. apply map_ext. intros hd.
  apply firstn_eq_nth with (n := S i); [|assumption].
  rewrite Hbias.
  apply attend_value_agree; rewrite ?length_map; try assumption;
    rewrite !firstn_map, Hagree; reflexivity.
Qed.

End NoLeak.

Section CausalTheorem.

Context {F : Type} `{Scalar F}.

Lemma Forall2_map_both {A B : Type} (P : A -> Prop) (R : A -> A -> Prop)
  (R' : B -> B -> Prop) (f : A -> B) (l l' : list A) :
  (forall a a', P a -> P a' -> R a a' -> R' (f a) (f a')) ->
  Forall P l -> Forall P l' -> Forall2 R l l' ->
  Forall2 R' (map f l) (map f l').
Proof.
  intros Hf Hl Hl' HR. induction HR as [|a a' l l' Ha _ IH]; cbn [map].
  - constructor.
  - inversion Hl; subst. inversion Hl'; subst.
    constructor; [apply Hf; assumption | apply IH; assumption].
Qed.

(** Causal masking.  Take a [CausalSelfAttention] built by its constructor
    and two inputs of size (B, T, C), [T <= block_size], that are the same
    at the positions 0..i of every batch element.  Then [forward] returns
    on both, and the two outputs are the same at the positions 0..i: what
    the input holds after position [i] does not reach the output at [i].
    The scalars are assumed to satisfy [0 * x = 0] and [0 / s = 0]. *)
Theorem CausalSelfAttention_forward_causal (cfg : GPTConfig)
  (a : CausalSelfAttention F) (B T i : nat) (x x' : Tensor3 F) :
  (forall u : F, fmul fzero u = fzero) ->
  (forall s : F, fdiv fzero s = fzero) ->
  wf_CausalSelfAttention cfg a -> heads_divide cfg -> 1 <= n_embd cfg ->
  T <= block_size cfg ->
  shaped B T (n_embd cfg) x -> shaped B T (n_embd cfg) x' ->
  Forall2 (agree_upto i) (t3_data x) (t3_data x') ->
  exists y y',
    CausalSelfAttention_forward a x = Ok y /\
    CausalSelfAttention_forward a x' = Ok y' /\
    Forall2 (agree_upto i) (t3_data y) (t3_data y').
Proof.
  intros Hmul Hdiv0 Hwf Hdiv HC HT Hx Hx' Hagree.
  rewrite (CausalSelfAttention_forward_eq Hwf Hdiv HC HT Hx).
  rewrite (CausalSelfAttention_forward_eq Hwf Hdiv HC HT Hx').
  eexists. eexists. split; [reflexivity|]. split; [reflexivity|].
  cbn [t3_data].
  apply shaped_inv in Hx, Hx'.
  destruct Hx as [_ [_ HFx]], Hx' as [_ [_ HFx']].
  destruct Hwf as [_ [_ [_ [_ Hbias]]]].
  apply Forall2_map_both
    with (P := wf_matrix T (n_embd cfg)) (R := agree_upto i);
    try assumption.
  intros xb xb' [Hlen _] [Hlen' _] Hab. unfold agree_upto in *.
  apply (@attention_batch_agree F _ Hmul Hdiv0 cfg); assumption.
Qed.

End CausalTheorem.

Lemma R_fmul_zero_l (u : R) : fmul fzero u = fzero.
Proof. unfold fzero. cbn. unfold Q2R. cbn. lra. Qed.

Lemma R_fdiv_zero_l (s : R) : fdiv fzero s = fzero.
Proof. unfold fzero. cbn. unfold Q2R, Rdiv. cbn. lra. Qed.

Lemma wf_tiny_attention : wf_CausalSelfAttention tiny_config (attn (tiny_Block (F := R))).
Proof. exact (proj1 (proj2 (Forall_inv (proj1 (proj2 (proj2 (proj2 wf_tiny_GPT))))))). Qed.

Lemma CausalSelfAttention_forward_causal_witness :
  exists y y',
    CausalSelfAttention_forward (attn tiny_Block) x_early = Ok y /\
    CausalSelfAttention_forward (attn tiny_Block) x_late = Ok y' /\
    Forall2 (agree_upto 0) (t3_data y) (t3_data y').
Proof.
  apply (@CausalSelfAttention_forward_causal R R_Scalar tiny_config
           (attn tiny_Block) 1 2 0 x_early x_late
           R_fmul_zero_l R_fdiv_zero_l wf_tiny_attention heads_divide_tiny).
  - cbn. lia.
  - cbn. lia.
  - split; [reflexivity|]. split; [reflexivity|]. repeat constructor.
  - split; [reflexivity|]. split; [reflexivity|]. repeat constructor.
  - constructor; [reflexivity | constructor].
Defined.

(* ------------------------------------------------------------------ *)
(** ** The top-k restriction of [generate] *)

Section TopK.

Context {F : Type} `{Scalar F}.

(** The comparison [<] of the scalars is a strict total order. *)
Hypothesis fltb_irrefl : forall x : F, fltb x x = false.
Hypothesis fltb_trans :
  forall x y z : F, fltb x y = true -> fltb y z = true -> fltb x z = true.
Hypothesis fltb_connex :
  forall x y : F, fltb x y = false -> fltb y x = false -> x = y.

Lemma fltb_asym (x y : F) : fltb x y = true -> fltb y x = false.
Proof.
  intros Hxy. destruct (fltb y x) eqn:Hyx; [|reflexivity].
  rewrite <- (fltb_irrefl x). symmetry. apply fltb_trans with y; assumption.
Qed.

Lemma Forall_insert_desc (P : F -> Prop) (x : F) (l : list F) :
  P x -> Forall P l -> Forall P (insert_desc x l).
Proof.
  intros Hx Hl. induction Hl as [|y l Hy Hl IH]; cbn [insert_desc].
  - constructor; [assumption | constructor].
  - destruct (fltb y x).
    + constructor; [assumption|]. constructor; assumption.
    + constructor; assumption.
Qed.

Lemma insert_desc_sorted (x : F) (l : list F) :
  StronglySorted fge l -> StronglySorted fge (insert_desc x l).
Proof.
  induction 1 as [|y l Hs IH Hy]; cbn [insert_desc].
  - constructor; constructor.
  - destruct (fltb y x) eqn:Hyx.
    + constructor; [constructor; assumption|].
      constructor; [apply fltb_asym; assumption|].
      eapply Forall_impl; [|exact Hy]. intros z Hz. unfold fge in *.
      destruct (fltb x z) eqn:Hxz; [|reflexivity].
      rewrite <- Hz. symmetry. apply fltb_trans with x; assumption.
    + constructor; [assumption|]. apply Forall_insert_desc; assumption.
Qed.

Lemma sort_desc_sorted (l : list F) : StronglySorted fge (sort_desc l).
Proof.
  induction l as [|x l IH]; cbn [sort_desc fold_right].
  - constructor.
  - apply insert_desc_sorted. exact IH.
Qed.

Lemma filter_insert_desc (p : F -> bool) (x : F) (l : list F) :
  length (filter p (insert_desc x l)) = length (filter p (x :: l)).
Proof.
  induction l as [|y l IH]; cbn [insert_desc]; [reflexivity|].
  destruct (fltb y x); [reflexivity|].
  cbn [filter] in *. destruct (p y), (p x); cbn [length] in *; lia.
Qed.

Lemma filter_sort_desc (p : F -> bool) (l : list F) :
  length (filter p (sort_desc l)) = length (filter p l).
Proof.
  induction l as [|x l IH]; [reflexivity|].
  cbn [sort_desc fold_right]. rewrite filter_insert_desc.
  cbn [filter]. fold (sort_desc l). destruct (p x); cbn [length]; lia.
Qed.

Lemma length_sort_desc (l : list F) : length (sort_desc l) = length l.
Proof.
  pose proof (filter_sort_desc (fun _ => true) l) as Hlen.
  rewrite !filter_true in Hlen. exact Hlen.
Qed.

Lemma In_insert_desc (x y : F) (l : list F) :
  In y (insert_desc x l) <-> y = x \/ In y l.
Proof.
  induction l as [|z l IH]; cbn [insert_desc].
  - cbn. intuition congruence.
  - destruct (fltb z x); cbn [In] in *; [intuition congruence|].
    rewrite IH. intuition congruence.
Qed.

Lemma In_sort_desc (y : F) (l : list F) : In y (sort_desc l) <-> In y l.
Proof.
  induction l as [|x l IH]; [reflexivity|].
  cbn [sort_desc fold_right]. fold (sort_desc l).
  rewrite In_insert_desc, IH. cbn [In]. intuition congruence.
Qed.

Lemma NoDup_insert_desc (x : F) (l : list F) :
  ~ In x l -> NoDup l -> NoDup (insert_desc x l).
Proof.
  intros Hx Hl. induction Hl as [|y l Hy Hl IH]; cbn [insert_desc].
  - constructor; [intros [] | constructor].
  - destruct (fltb y x).
    + constructor; [assumption | constructor; assumption].
    + constructor.
      * rewrite In_insert_desc. intros [Heq|Hin]; [|contradiction].
        apply Hx. left. assumption.
      * apply IH. intros Hin. apply Hx. right. assumption.
Qed.

Lemma NoDup_sort_desc (l : list F) : NoDup l -> NoDup (sort_desc l).
Proof.
  induction 1 as [|x l Hx Hl IH]; cbn [sort_desc fold_right].
  - constructor.
  - fold (sort_desc l). apply NoDup_insert_desc; [|assumption].
    rewrite In_sort_desc. assumption.
Qed.

Lemma sorted_nth (l : list F) (i j : nat) (d : F) :
  StronglySorted fge l -> i < j -> j < length l -> fge (nth i l d) (nth j l d).
Proof.
  intros Hs. revert i j. induction Hs as [|x l Hs IH Hx]; intros i j Hij Hj.
  - cbn in Hj. lia.
  - destruct j as [|j]; [lia|]. cbn [length] in Hj. destruct i as [|i].
    + cbn [nth]. rewrite Forall_forall in Hx. apply Hx. apply nth_In. lia.
    + cbn [nth]. apply IH; lia.
Qed.

Lemma topk_threshold (k : nat) (row : list F) :
  1 <= k -> nth (k - 1) (topk k row) fzero = nth (k - 1) (sort_desc row) fzero.
Proof.
  intros Hk. unfold topk. rewrite nth_firstn.
  assert (Hlt : (k - 1 <? k) = true) by (apply Nat.ltb_lt; lia).
  rewrite Hlt. reflexivity.
Qed.

Lemma count_kept_threshold (thr : F) (row : list F) :
  count_kept (map (fun x => if fltb x thr then None else Some x) row) =
  length (filter (fun x => negb (fltb x thr)) row).
Proof.
  unfold count_kept. induction row as [|x row IH]; [reflexivity|].
  cbn [map filter]. destruct (fltb x thr); cbn [negb length]; rewrite IH; reflexivity.
Qed.

Lemma count_kept_top_k_row (k : nat) (row : list F) :
  count_kept (top_k_row k row) =
  length (filter (fun x => negb (fltb x (nth (k - 1) (topk k row) fzero))) row).
Proof. unfold top_k_row. apply count_kept_threshold. Qed.

Lemma filter_all (p : F -> bool) (l : list F) :
  Forall (fun x => p x = true) l -> filter p l = l.
Proof.
  induction 1 as [|x l Hx _ IH]; cbn [filter]; [reflexivity|].
  rewrite Hx, IH. reflexivity.
Qed.

Lemma filter_none (p : F -> bool) (l : list F) :
  Forall (fun x => p x = false) l -> filter p l = [].
Proof.
  induction 1 as [|x l Hx _ IH]; cbn [filter]; [reflexivity|].
  rewrite Hx, IH. reflexivity.
Qed.

Lemma Forall_firstn_nth (P : F -> Prop) (k : nat) (l : list F) (d : F) :
  k <= length l -> (forall i, i < k -> P (nth i l d)) -> Forall P (firstn k l).
Proof.
  revert l. induction k as [|k IH]; intros l Hk HP; [constructor|].
  destruct l as [|x l]; [cbn in Hk; lia|]. cbn [firstn]. constructor.
  - apply (HP 0). lia.
  - apply IH; [cbn in Hk; lia|]. intros i Hi. apply (HP (S i)). lia.
Qed.

Lemma Forall_skipn_nth (P : F -> Prop) (k : nat) (l : list F) (d : F) :
  (forall j, k <= j -> j < length l -> P (nth j l d)) -> Forall P (skipn k l).
Proof.
  revert l. induction k as [|k IH]; intros l HP.
  - cbn [skipn]. apply Forall_forall. intros x Hx.
    destruct (In_nth l x d Hx) as [j [Hj Hnth]]. rewrite <- Hnth.
    apply HP; lia.
  - destruct l as [|x l]; [constructor|]. cbn [skipn]. apply IH.
    intros j Hkj Hj. apply (HP (S j)); cbn [length]; lia.
Qed.

(** At least [k] entries survive: the [k] largest ones are not below the
    threshold. *)
Lemma top_k_row_at_least (k : nat) (row : list F) :
  1 <= k -> k <= length row -> k <= count_kept (top_k_row k row).
Proof.
  intros Hk1 Hk. rewrite count_kept_top_k_row, topk_threshold by assumption.
  set (thr := nth (k - 1) (sort_desc row) fzero).
  rewrite <- filter_sort_desc.
  rewrite <- (firstn_skipn k (sort_desc row)) at 1.
  rewrite filter_app, length_app.
  rewrite filter_all.
  - rewrite length_firstn, length_sort_desc. lia.
  - apply Forall_firstn_nth with (d := fzero); [rewrite length_sort_desc; lia|].
    intros i Hi. apply negb_true_iff. subst thr.
    destruct (Nat.eq_dec i (k - 1)) as [->|Hne]; [apply fltb_irrefl|].
    apply sorted_nth; [apply sort_desc_sorted | lia | rewrite length_sort_desc; lia].
Qed.

(** With pairwise distinct entries, exactly [k] survive. *)
Lemma top_k_row_exactly (k : nat) (row : list F) :
  NoDup row -> 1 <= k -> k <= length row -> count_kept (top_k_row k row) = k.
Proof.
  intros Hnd Hk1 Hk. rewrite count_kept_top_k_row, topk_threshold by assumption.
  set (thr := nth (k - 1) (sort_desc row) fzero).
  rewrite <- filter_sort_desc.
  rewrite <- (firstn_skipn k (sort_desc row)) at 1.
  rewrite filter_app, length_app.
  rewrite filter_all, filter_none.
  - rewrite length_firstn, length_sort_desc. cbn [length]. lia.
  - apply Forall_skipn_nth with (d := fzero). intros j Hkj Hj.
    apply negb_false_iff. subst thr.
    destruct (fltb (nth j (sort_desc row) fzero) (nth (k - 1) (sort_desc row) fzero))
      eqn:Hlt; [reflexivity|]. exfalso.
    assert (Hge : fge (nth (k - 1) (sort_desc row) fzero) (nth j (sort_desc row) fzero)).
    { apply sorted_nth; [apply sort_desc_sorted | lia | assumption]. }
    pose proof (fltb_connex _ _ Hlt Hge) as Heq.
    pose proof (NoDup_sort_desc Hnd) as Hnd'.
    rewrite NoDup_nth with (d := fzero) in Hnd'.
    specialize (Hnd' j (k - 1) Hj). rewrite length_sort_desc in *.
    specialize (Hnd' ltac:(lia) Heq). lia.
  - apply Forall_firstn_nth with (d := fzero); [rewrite length_sort_desc; lia|].
    intros i Hi. apply negb_true_iff. subst thr.
    destruct (Nat.eq_dec i (k - 1)) as [->|Hne]; [apply fltb_irrefl|].
    apply sorted_nth; [apply sort_desc_sorted | lia | rewrite length_sort_desc; lia].
Qed.

(** An entry that was masked is strictly below every entry that was kept. *)
Lemma top_k_row_masked_below (k : nat) (row : list F) (x x' : F) :
  fltb x (nth (k - 1) (topk k row) fzero) = true ->
  fltb x' (nth (k - 1) (topk k row) fzero) = false ->
  fltb x x' = true.
Proof.
  set (thr := nth (k - 1) (topk k row) fzero). intros Hx Hx'.
  destruct (fltb thr x') eqn:Hthr.
  - apply fltb_trans with thr; assumption.
  - rewrite (fltb_connex _ _ Hx' Hthr). assumption.
Qed.

Lemma top_k_filter_Ok (top_k : Z) (V : nat) (logits : list (list F)) :
  (1 <= top_k)%Z -> 1 <= V ->
  top_k_filter top_k V logits =
  Ok (map (top_k_row (Z.to_nat (Z.min top_k (Z.of_nat V)))) logits).
Proof.
  intros Hk HV. unfold top_k_filter.
  assert (H0 : (0 <=? Z.min top_k (Z.of_nat V))%Z = true) by (apply Z.leb_le; lia).
  assert (H1 : (Z.min top_k (Z.of_nat V) =? 0)%Z = false) by (apply Z.eqb_neq; lia).
  rewrite H0, H1. reflexivity.
Qed.

End TopK.

Section TopKTheorems.

Context {F : Type} `{Scalar F}.

Lemma Forall2_map_self {A B : Type} (R : A -> B -> Prop) (f : A -> B) (l : list A) :
  (forall a, In a l -> R a (f a)) -> Forall2 R l (map f l).
Proof.
  induction l as [|a l IH]; intros HR; cbn [map]; constructor.
  - apply HR. left. reflexivity.
  - apply IH. intros a' Ha'. apply HR. right. assumption.
Qed.

Lemma to_nat_min (top_k : Z) (V : nat) :
  Z.to_nat (Z.min top_k (Z.of_nat V)) = Nat.min (Z.to_nat top_k) V.
Proof. lia. Qed.

(** The top-k restriction keeps at least k entries.  For [top_k >= 1] and
    rows of [V >= 1] logits, the two lines of [generate] succeed; every
    entry of a row is either set to minus infinity or left as it is, and at
    least [min(top_k, V)] entries of every row are left. *)
Theorem top_k_filter_keeps_at_least_k (top_k : Z) (V : nat) (logits : list (list F)) :
  (forall x : F, fltb x x = false) ->
  (forall x y z : F, fltb x y = true -> fltb y z = true -> fltb x z = true) ->
  (1 <= top_k)%Z -> 1 <= V ->
  Forall (fun row => length row = V) logits ->
  exists masked,
    top_k_filter top_k V logits = Ok masked /\
    Forall2 (fun row m =>
               Forall2 (fun x mx => mx = None \/ mx = Some x) row m /\
               Nat.min (Z.to_nat top_k) V <= count_kept m)
            logits masked.
Proof.
  intros Hirr Htrans Hk HV Hrows.
  rewrite top_k_filter_Ok by assumption. eexists. split; [reflexivity|].
  apply Forall2_map_self. intros row Hrow.
  rewrite Forall_forall in Hrows. specialize (Hrows row Hrow). split.
  - unfold top_k_row. apply Forall2_map_self. intros x _.
    destruct (fltb x _); [left | right]; reflexivity.
  - rewrite to_nat_min.
    apply (top_k_row_at_least Hirr Htrans); lia.
Qed.

(** Within a row, every logit that was set to minus infinity is strictly
    smaller than every logit that was kept. *)
Theorem top_k_filter_masked_below_kept (top_k : Z) (V : nat)
  (logits : list (list F)) :
  (forall x y z : F, fltb x y = true -> fltb y z = true -> fltb x z = true) ->
  (forall x y : F, fltb x y = false -> fltb y x = false -> x = y) ->
  (1 <= top_k)%Z -> 1 <= V ->
  exists masked,
    top_k_filter top_k V logits = Ok masked /\
    Forall2 (fun row m =>
               forall p p' x x',
                 nth_error row p = Some x -> nth_error m p = Some None ->
                 nth_error m p' = Some (Some x') -> fltb x x' = true)
            logits masked.
Proof.
  intros Htrans Hconn Hk HV.
  rewrite top_k_filter_Ok by assumption. eexists. split; [reflexivity|].
  apply Forall2_map_self. intros row _ p p' x x' Hx Hm Hm'.
  unfold top_k_row in Hm, Hm'. rewrite nth_error_map in Hm, Hm'.
  rewrite Hx in Hm. cbn [option_map] in Hm.
  destruct (nth_error row p') as [y|] eqn:Hy; [|discriminate].
  cbn [option_map] in Hm'.
  set (k := Z.to_nat (Z.min top_k (Z.of_nat V))) in *.
  destruct (fltb x (nth (k - 1) (topk k row) fzero)) eqn:Hlt; [|discriminate].
  destruct (fltb y (nth (k - 1) (topk k row) fzero)) eqn:Hge; [discriminate|].
  inversion Hm'. subst y.
  apply (top_k_row_masked_below Htrans Hconn k row); assumption.
Qed.

(** When the logits of every row are pairwise distinct, exactly
    [min(top_k, V)] of them are kept. *)
Theorem top_k_filter_distinct_keeps_exactly_k (top_k : Z) (V : nat)
  (logits : list (list F)) :
  (forall x : F, fltb x x = false) ->
  (forall x y z : F, fltb x y = true -> fltb y z = true -> fltb x z = true) ->
  (forall x y : F, fltb x y = false -> fltb y x = false -> x = y) ->
  (1 <= top_k)%Z -> 1 <= V ->
  Forall (fun row => length row = V /\ NoDup row) logits ->
  exists masked,
    top_k_filter top_k V logits = Ok masked /\
    Forall (fun m => count_kept m = Nat.min (Z.to_nat top_k) V) masked.
Proof.
  intros Hirr Htrans Hconn Hk HV Hrows.
  rewrite top_k_filter_Ok by assumption. eexists. split; [reflexivity|].
  apply Forall_map. eapply Forall_impl; [|exact Hrows].
  intros row [Hlen Hnd]. rewrite to_nat_min.
  apply (top_k_row_exactly Hirr Htrans Hconn); [assumption | lia | lia].
Qed.

(** Ties are kept: in a row whose logits are all equal nothing is masked,
    whatever [top_k >= 1] is, so more than [top_k] tokens can remain. *)
Theorem top_k_filter_keeps_ties (top_k : Z) (V B : nat) (x : F) :
  (forall x : F, fltb x x = false) ->
  (1 <= top_k)%Z -> 1 <= V ->
  top_k_filter top_k V (repeat (repeat x V) B) = Ok (repeat (repeat (Some x) V) B).
Proof.
  intros Hirr Hk HV. rewrite top_k_filter_Ok by assumption. f_equal.
  rewrite map_repeat. f_equal. rewrite to_nat_min.
  set (k := Nat.min (Z.to_nat top_k) V).
  assert (Hsort : forall n, sort_desc (repeat x n) = repeat x n).
  { induction n as [|n IH]; [reflexivity|].
    cbn [repeat sort_desc fold_right]. fold (sort_desc (repeat x n)). rewrite IH.
    clear IH. induction n as [|n IH]; [reflexivity|].
    cbn [repeat insert_desc]. rewrite Hirr. f_equal. exact IH. }
  unfold top_k_row, topk. rewrite Hsort.
  assert (Hthr : nth (k - 1) (firstn k (repeat x V)) fzero = x).
  { rewrite nth_firstn.
    assert (Hlt : (k - 1 <? k) = true) by (apply Nat.ltb_lt; lia).
    rewrite Hlt. apply nth_repeat_lt. lia. }
  rewrite Hthr, map_repeat, Hirr. reflexivity.
Qed.

(** [top_k = 0] raises [IndexError] (the threshold [v[:, [-1]]] does not
    exist), as does any [top_k >= 0] on an empty vocabulary; a negative
    [top_k] is refused by [torch.topk]. *)
Theorem top_k_filter_not_positive (top_k : Z) (V : nat) (logits : list (list F)) :
  ((top_k < 0)%Z -> top_k_filter top_k V logits = Raise RuntimeError) /\
  ((0 <= top_k)%Z -> top_k = 0%Z \/ V = 0 ->
   top_k_filter top_k V logits = Raise IndexError).
Proof.
  unfold top_k_filter. split.
  - intros Hneg.
    assert (H0 : (0 <=? Z.min top_k (Z.of_nat V))%Z = false) by (apply Z.leb_gt; lia).
    rewrite H0. reflexivity.
  - intros Hpos Hz.
    assert (H0 : (0 <=? Z.min top_k (Z.of_nat V))%Z = true) by (apply Z.leb_le; lia).
    assert (H1 : (Z.min top_k (Z.of_nat V) =? 0)%Z = true) by (apply Z.eqb_eq; lia).
    rewrite H0, H1. reflexivity.
Qed.

End TopKTheorems.

(** The order of the reals. *)
Lemma R_fltb_irrefl (x : R) : fltb x x = false.
Proof. cbn. unfold R_ltb. destruct (Rlt_dec x x); [lra | reflexivity]. Qed.

Lemma R_fltb_trans (x y z : R) :
  fltb x y = true -> fltb y z = true -> fltb x z = true.
Proof.
  cbn. unfold R_ltb.
  destruct (Rlt_dec x y), (Rlt_dec y z), (Rlt_dec x z);
    intros; try discriminate; try reflexivity; lra.
Qed.

Lemma R_fltb_connex (x y : R) : fltb x y = false -> fltb y x = false -> x = y.
Proof.
  cbn. unfold R_ltb.
  destruct (Rlt_dec x y), (Rlt_dec y x); intros; try discriminate; lra.
Qed.

Lemma top_k_filter_keeps_at_least_k_witness :
  exists masked,
    top_k_filter 2 3 [[3; 1; 2]%R] = Ok masked /\
    Forall2 (fun row m =>
               Forall2 (fun x mx => mx = None \/ mx = Some x) row m /\
               Nat.min (Z.to_nat 2) 3 <= count_kept m)
            [[3; 1; 2]%R] masked.
Proof.
  apply (@top_k_filter_keeps_at_least_k R R_Scalar 2 3 [[3; 1; 2]%R]
           R_fltb_irrefl R_fltb_trans).
  - lia.
  - lia.
  - repeat constructor.
Defined.

Lemma top_k_filter_masked_below_kept_witness :
  exists masked,
    top_k_filter 2 3 [[3; 1; 2]%R] = Ok masked /\
    Forall2 (fun row m =>
               forall p p' x x',
                 nth_error row p = Some x -> nth_error m p = Some None ->
                 nth_error m p' = Some (Some x') -> fltb x x' = true)
            [[3; 1; 2]%R] masked.
Proof.
  apply (@top_k_filter_masked_below_kept R R_Scalar 2 3 [[3; 1; 2]%R]
           R_fltb_trans R_fltb_connex); lia.
Defined.

Lemma NoDup_3_1_2 : NoDup [3; 1; 2]%R.
Proof.
  constructor; [cbn; intros [Heq|[Heq|[]]]; lra|].
  constructor; [cbn; intros [Heq|[]]; lra|].
  constructor; [intros [] | constructor].
Qed.

Lemma top_k_filter_distinct_keeps_exactly_k_witness :
  exists masked,
    top_k_filter 2 3 [[3; 1; 2]%R] = Ok masked /\
    Forall (fun m => count_kept m = Nat.min (Z.to_nat 2) 3) masked.
Proof.
  apply (@top_k_filter_distinct_keeps_exactly_k R R_Scalar 2 3 [[3; 1; 2]%R]
           R_fltb_irrefl R_fltb_trans R_fltb_connex).
  - lia.
  - lia.
  - constructor; [|constructor]. split; [reflexivity | exact NoDup_3_1_2].
Defined.

Lemma top_k_filter_keeps_ties_witness :
  top_k_filter 1 3 (repeat (repeat 1%R 3) 1) = Ok (repeat (repeat (Some 1%R) 3) 1).
Proof.
  apply (@top_k_filter_keeps_ties R R_Scalar 1 3 1 1%R R_fltb_irrefl); lia.
Defined.

(* ------------------------------------------------------------------ *)
(** ** Generation *)

Section GenerateProperties.

Context {F : Type} `{Scalar F}.
Variable G : Type.
Variable multinomial : G -> list F -> result (Z * G).

Lemma length_slice_last {A : Type} (n : nat) (l : list A) :
  1 <= n -> n <= length l -> length (slice_last n l) = n.
Proof.
  intros Hn Hl. unfold slice_last.
  assert (Hn0 : (n =? 0) = false) by (apply Nat.eqb_neq; lia).
  rewrite Hn0, length_skipn. lia.
Qed.

Lemma Forall_slice_last {A : Type} (P : A -> Prop) (n : nat) (l : list A) :
  Forall P l -> Forall P (slice_last n l).
Proof.
  intros Hl. unfold slice_last. destruct (n =? 0); [assumption|].
  apply Forall_forall. intros x Hx. rewrite Forall_forall in Hl. apply Hl.
  rewrite <- (firstn_skipn (length l - n) l). apply in_or_app. right. assumption.
Qed.

(** The window fed to the model. *)
Lemma crop_window (bs B T : nat) (idx : LongTensor) (V : nat) :
  1 <= bs -> lt_size idx = (B, T) -> wf_LongTensor idx -> tokens_in_range V idx ->
  lt_size (crop bs idx) = (B, Nat.min T bs) /\
  wf_LongTensor (crop bs idx) /\ tokens_in_range V (crop bs idx).
Proof.
  intros Hbs Hs Hwf Htok. unfold crop. rewrite Hs.
  destruct (Nat.leb_spec T bs) as [Hle|Hgt].
  - rewrite Hs. replace (Nat.min T bs) with T by lia.
    split; [reflexivity|]. split; assumption.
  - assert (Hbs0 : (bs =? 0) = false) by (apply Nat.eqb_neq; lia).
    rewrite Hbs0. replace (Nat.min T bs) with bs by lia.
    split; [reflexivity|].
    unfold wf_LongTensor in *. rewrite Hs in Hwf. cbn [fst snd lt_size lt_data] in *.
    destruct Hwf as [HB HT]. split; [split|].
    + rewrite length_map. assumption.
    + apply Forall_map. eapply Forall_impl; [|exact HT].
      intros row Hrow. cbv beta in Hrow. apply length_slice_last; lia.
    + unfold tokens_in_range in *. cbn [lt_data]. apply Forall_map.
      eapply Forall_impl; [|exact Htok]. intros row Hrow.
      apply Forall_slice_last. assumption.
Qed.

Lemma multinomial_rows_Ok (V : nat) (g : G) (probs : list (list F)) :
  sampler_in_range multinomial -> 1 <= V ->
  Forall (fun p => length p = V) probs ->
  exists next g', multinomial_rows multinomial g probs = Ok (next, g') /\
    length next = length probs /\
    Forall (fun i => (0 <= i < Z.of_nat V)%Z) next.
Proof.
  intros Hsample HV Hprobs. revert g.
  induction Hprobs as [|p probs Hp _ IH]; intros g; cbn [multinomial_rows].
  - exists [], g. split; [reflexivity|]. split; [reflexivity | constructor].
  - destruct (Hsample g p) as [i [g1 [Hi Hrange]]].
    { intros Hnil. rewrite Hnil in Hp. cbn in Hp. lia. }
    rewrite Hi. cbn [bind].
    destruct (IH g1) as [next [g2 [Hnext [Hlen Hall]]]].
    rewrite Hnext. cbn [bind].
    exists (i :: next), g2. split; [reflexivity|].
    split; [cbn; congruence|]. constructor; [rewrite <- Hp; assumption | assumption].
Qed.

Lemma append_column (T V : nat) (data : list (list Z)) (next : list Z) :
  Forall (fun row => length row = T) data ->
  Forall (Forall (fun i => (0 <= i < Z.of_nat V)%Z)) data ->
  length next = length data ->
  Forall (fun i => (0 <= i < Z.of_nat V)%Z) next ->
  length (map2 (fun row i => row ++ [i]) data next) = length data /\
  Forall (fun row => length row = T + 1) (map2 (fun row i => row ++ [i]) data next) /\
  Forall (Forall (fun i => (0 <= i < Z.of_nat V)%Z))
         (map2 (fun row i => row ++ [i]) data next) /\
  Forall2 (fun row row' => exists suffix, row' = row ++ suffix /\ length suffix = 1)
          data (map2 (fun row i => row ++ [i]) data next).
Proof.
  intros HT Htok. revert next.
  induction data as [|row data IH]; intros next Hlen Hnext.
  - cbn [map2]. repeat split; constructor.
  - destruct next as [|i next]; [cbn in Hlen; lia|]. cbn [map2].
    inversion HT as [|? ? Hrow HT']. inversion Htok as [|? ? Hrtok Htok'].
    inversion Hnext as [|? ? Hi Hnext']. subst.
    destruct (IH HT' Htok' next) as [HB' [HT'' [Htok'' Hext]]];
      [cbn in Hlen; lia | assumption |].
    split; [|split; [|split]].
    + cbn [length]. rewrite HB'. reflexivity.
    + constructor; [rewrite length_app; cbn; lia | assumption].
    + constructor; [|assumption]. apply Forall_app. split; [assumption|].
      constructor; [assumption | constructor].
    + constructor; [|assumption]. exists [i]. split; reflexivity.
Qed.

Lemma cat_next_extends (B T V : nat) (idx : LongTensor) (next : list Z) :
  lt_size idx = (B, T) -> wf_LongTensor idx -> tokens_in_range V idx ->
  length next = B -> Forall (fun i => (0 <= i < Z.of_nat V)%Z) next ->
  lt_size (cat_next idx next) = (B, T + 1) /\
  wf_LongTensor (cat_next idx next) /\
  tokens_in_range V (cat_next idx next) /\
  extends_by 1 idx (cat_next idx next).
Proof.
  intros Hs Hwf Htok Hlen Hnext. unfold cat_next. rewrite Hs.
  unfold wf_LongTensor, tokens_in_range, extends_by in *.
  rewrite Hs in Hwf. cbn [fst snd lt_size lt_data] in *.
  destruct Hwf as [HB HT].
  destruct (@append_column T V (lt_data idx) next HT Htok) as [H1 [H2 [H3 H4]]];
    [congruence | assumption |].
  split; [reflexivity|]. split; [split; [congruence | assumption]|].
  split; assumption.
Qed.

Lemma last_step_rows (B V : nat) (logits : Tensor3 F) :
  shaped B 1 V logits ->
  exists rows, last_step logits = Ok rows /\ wf_matrix B V rows.
Proof.
  intros Hl. apply shaped_inv in Hl. destruct Hl as [Hs [HB HF]].
  unfold last_step. rewrite Hs. cbn [Nat.eqb].
  eexists. split; [reflexivity|]. split.
  - rewrite length_map. assumption.
  - apply Forall_map. eapply Forall_impl; [|exact HF].
    intros m [Hm1 HmV]. cbv beta. rewrite Forall_forall in HmV. apply HmV.
    apply nth_In. lia.
Qed.

Lemma top_k_rows_Ok (top_k : option Z) (B V : nat) (rows : list (list F)) :
  match top_k with Some k => (1 <= k)%Z | None => True end -> 1 <= V ->
  wf_matrix B V rows ->
  exists masked,
    match top_k with
    | Some top_k => top_k_filter top_k V rows
    | None => Ok (map (map Some) rows)
    end = Ok masked /\ wf_matrix B V masked.
Proof.
  intros Hk HV [HB HF]. destruct top_k as [k|].
  - rewrite top_k_filter_Ok by assumption. eexists. split; [reflexivity|]. split.
    + rewrite length_map. assumption.
    + apply Forall_map. eapply Forall_impl; [|exact HF].
      intros row Hrow. unfold top_k_row. rewrite length_map. assumption.
  - eexists. split; [reflexivity|]. split.
    + rewrite length_map. assumption.
    + apply Forall_map. eapply Forall_impl; [|exact HF].
      intros row Hrow. rewrite length_map. assumption.
Qed.

(** One iteration appends one token of the vocabulary to every row. *)
Lemma generate_step_extends (self : GPT F) (temperature : F) (top_k : option Z)
  (B T : nat) (idx : LongTensor) (g : G) :
  sampler_in_range multinomial ->
  wf_GPT self -> heads_divide (config self) -> 1 <= n_embd (config self) ->
  1 <= vocab_size (config self) -> 1 <= block_size (config self) ->
  match top_k with Some k => (1 <= k)%Z | None => True end ->
  lt_size idx = (B, T) -> wf_LongTensor idx ->
  tokens_in_range (vocab_size (config self)) idx -> 1 <= T ->
  exists idx' g',
    generate_step multinomial self temperature top_k (idx, g) = Ok (idx', g') /\
    lt_size idx' = (B, T + 1) /\ wf_LongTensor idx' /\
    tokens_in_range (vocab_size (config self)) idx' /\
    extends_by 1 idx idx'.
Proof.
  intros Hsample Hwf Hdiv HC HV Hbs Hk Hs Hidx Htok HT.
  unfold generate_step.
  destruct (crop_window Hbs Hs Hidx Htok) as [Hcs [Hcwf Hctok]].
  destruct (@GPT_forward_inference_shaped F _ self
              (crop (block_size (config self)) idx) B
              (Nat.min T (block_size (config self)))
              Hwf Hdiv HC Hcs Hcwf Hctok) as [logits [Hfwd Hls]]; [lia | lia |].
  rewrite Hfwd. cbn [bind]. rewrite (proj1 Hls). cbn [snd].
  destruct (last_step_rows Hls) as [rows [Hrows Hrwf]].
  rewrite Hrows. cbn [bind].
  assert (Hdivided : wf_matrix B (vocab_size (config self))
                       (map (map (fun x => fdiv x temperature)) rows)).
  { destruct Hrwf as [HB HF]. split.
    - rewrite length_map. assumption.
    - apply Forall_map. eapply Forall_impl; [|exact HF].
      intros row Hrow. rewrite length_map. assumption. }
  destruct (top_k_rows_Ok top_k Hk HV Hdivided) as [masked [Hmasked [HmB HmF]]].
  rewrite Hmasked. cbn [bind].
  destruct (@multinomial_rows_Ok (vocab_size (config self)) g
              (map F_softmax masked) Hsample HV) as [next [g' [Hnext [Hlen Hrange]]]].
  { apply Forall_map. eapply Forall_impl; [|exact HmF].
    intros m Hm. unfold F_softmax. rewrite length_map. assumption. }
  rewrite Hnext. cbn [bind].
  exists (cat_next idx next), g'. split; [reflexivity|].
  apply cat_next_extends; try assumption.
  rewrite Hlen, length_map. assumption.
Qed.

Lemma extends_by_trans (n m : nat) (a b c : LongTensor) :
  extends_by n a b -> extends_by m b c -> extends_by (n + m) a c.
Proof.
  unfold extends_by. generalize (lt_data a) (lt_data b) (lt_data c).
  intros la lb lc Hab. revert lc.
  induction Hab as [|ra rb la lb [s [Hs Hlen]] _ IH]; intros lc Hbc.
  - inversion Hbc. constructor.
  - inversion Hbc as [|? rc ? lc' [s' [Hs' Hlen']] Hrest]. subst.
    constructor.
    + exists (s ++ s'). rewrite app_assoc. split; [reflexivity|].
      rewrite length_app. reflexivity.
    + apply IH. assumption.
Qed.

Lemma extends_by_refl (idx : LongTensor) : extends_by 0 idx idx.
Proof.
  unfold extends_by. induction (lt_data idx) as [|row data IH]; constructor.
  - exists []. rewrite app_nil_r. split; reflexivity.
  - assumption.
Qed.

Lemma generate_loop_extends (self : GPT F) (temperature : F) (top_k : option Z)
  (n B T : nat) (idx : LongTensor) (g : G) :
  sampler_in_range multinomial ->
  wf_GPT self -> heads_divide (config self) -> 1 <= n_embd (config self) ->
  1 <= vocab_size (config self) -> 1 <= block_size (config self) ->
  match top_k with Some k => (1 <= k)%Z | None => True end ->
  lt_size idx = (B, T) -> wf_LongTensor idx ->
  tokens_in_range (vocab_size (config self)) idx -> 1 <= T ->
  exists out g',
    generate_loop multinomial self temperature top_k n (idx, g) = Ok (out, g') /\
    lt_size out = (B, T + n) /\ wf_LongTensor out /\
    tokens_in_range (vocab_size (config self)) out /\
    extends_by n idx out.
Proof.
  intros Hsample Hwf Hdiv HC HV Hbs Hk. revert T idx g.
  induction n as [|n IH]; intros T idx g Hs Hidx Htok HT; cbn [generate_loop].
  - exists idx, g. split; [reflexivity|]. rewrite Nat.add_0_r.
    repeat split; try assumption; try apply Hidx. apply extends_by_refl.
  - destruct (generate_step_extends temperature top_k g Hsample Hwf Hdiv HC HV
                Hbs Hk Hs Hidx Htok HT) as [idx1 [g1 [Hstep [Hs1 [Hwf1 [Htok1 Hext1]]]]]].
    rewrite Hstep. cbn [bind].
    destruct (IH (T + 1) idx1 g1 Hs1 Hwf1 Htok1) as [out [g' [Hloop [Hso [Hwfo [Htoko Hexto]]]]]];
      [lia|].
    exists out, g'. split; [assumption|].
    split; [rewrite Hso; f_equal; lia|]. split; [assumption|]. split; [assumption|].
    apply (extends_by_trans Hext1 Hexto).
Qed.

(** [generate] runs [max_new_tokens] iterations and returns, for every row
    of the conditioning batch, that row followed by [max_new_tokens] tokens
    of the vocabulary: the result has size (B, T + max_new_tokens), also
    when the context outgrows [block_size].  The conditioning sequence is
    not empty, [top_k] is absent or at least 1, and the sampler returns an
    index of the distribution it is given. *)
Theorem GPT_generate_appends (self : GPT F) (idx : LongTensor) (max_new_tokens : Z)
  (temperature : F) (top_k : option Z) (g : G) (B T : nat) :
  sampler_in_range multinomial ->
  wf_GPT self -> heads_divide (config self) -> 1 <= n_embd (config self) ->
  1 <= vocab_size (config self) -> 1 <= block_size (config self) ->
  match top_k with Some k => (1 <= k)%Z | None => True end ->
  lt_size idx = (B, T) -> wf_LongTensor idx ->
  tokens_in_range (vocab_size (config self)) idx -> 1 <= T ->
  exists out g',
    GPT_generate multinomial self idx max_new_tokens temperature top_k g = Ok (out, g') /\
    lt_size out = (B, T + Z.to_nat max_new_tokens) /\ wf_LongTensor out /\
    tokens_in_range (vocab_size (config self)) out /\
    extends_by (Z.to_nat max_new_tokens) idx out.
Proof.
  intros Hsample Hwf Hdiv HC HV Hbs Hk Hs Hidx Htok HT. unfold GPT_generate.
  apply generate_loop_extends; assumption.
Qed.

(** An empty conditioning sequence cannot be continued: the first forward
    pass raises [IndexError]; with no iteration to run, the batch is
    returned as it is. *)
Theorem GPT_generate_empty_context (self : GPT F) (idx : LongTensor)
  (max_new_tokens : Z) (temperature : F) (top_k : option Z) (g : G) (B : nat) :
  wf_GPT self -> heads_divide (config self) -> 1 <= n_embd (config self) ->
  lt_size idx = (B, 0) -> wf_LongTensor idx ->
  GPT_generate multinomial self idx max_new_tokens temperature top_k g =
  if (max_new_tokens <=? 0)%Z then Ok (idx, g) else Raise IndexError.
Proof.
  intros Hwf Hdiv HC Hs Hidx. unfold GPT_generate.
  destruct (Z.leb_spec max_new_tokens 0) as [Hle|Hgt].
  - replace (Z.to_nat max_new_tokens) with 0 by lia. reflexivity.
  - destruct (Z.to_nat max_new_tokens) as [|n] eqn:Hn; [lia|].
    cbn [generate_loop]. unfold generate_step.
    assert (Hcrop : crop (block_size (config self)) idx = idx).
    { unfold crop. rewrite Hs. reflexivity. }
    rewrite Hcrop, (GPT_forward_inference_empty Hwf Hdiv HC Hs Hidx). reflexivity.
Qed.

End GenerateProperties.

Lemma sample_first_in_range : sampler_in_range sample_first.
Proof.
  intros g p Hp. destruct p as [|x p]; [contradiction|].
  exists 0%Z, (S g). split; [reflexivity|]. cbn [length]. lia.
Qed.

Lemma GPT_generate_appends_witness :
  exists out g',
    GPT_generate sample_first (tiny_GPT (F := R)) idx_2 3 1%R (Some 2%Z) 0 = Ok (out, g') /\
    lt_size out = (1, 2 + Z.to_nat 3) /\ wf_LongTensor out /\
    tokens_in_range 3 out /\ extends_by (Z.to_nat 3) idx_2 out.
Proof.
  apply (@GPT_generate_appends R R_Scalar nat sample_first tiny_GPT idx_2 3 1%R
           (Some 2%Z) 0 1 2 sample_first_in_range wf_tiny_GPT heads_divide_tiny).
  - cbn. lia.
  - cbn. lia.
  - cbn. lia.
  - lia.
  - reflexivity.
  - exact (proj1 wf_idx_2).
  - exact (proj2 wf_idx_2).
  - lia.
Defined.

Lemma GPT_generate_empty_context_witness :
  GPT_generate sample_first (tiny_GPT (F := R)) idx_empty 1 1%R None 0 =
  if (1 <=? 0)%Z then Ok (idx_empty, 0) else Raise IndexError.
Proof.
  apply (@GPT_generate_empty_context R R_Scalar nat sample_first tiny_GPT idx_empty
           1 1%R None 0 1 wf_tiny_GPT heads_divide_tiny).
  - cbn. lia.
  - reflexivity.
  - split; [reflexivity | repeat constructor].
Defined.

(** The window that [generate] feeds to the model is the whole context
    when it fits in [block_size], and its last [block_size] tokens
    otherwise: of every row, only a prefix is dropped. *)
Theorem crop_is_recent_window (bs B T : nat) (idx : LongTensor) :
  1 <= bs -> lt_size idx = (B, T) -> wf_LongTensor idx ->
  lt_size (crop bs idx) = (B, Nat.min T bs) /\
  Forall2 (fun row window =>
             row = firstn (T - Nat.min T bs) row ++ window /\
             length window = Nat.min T bs)
          (lt_data idx) (lt_data (crop bs idx)).
Proof.
  intros Hbs Hs Hwf. unfold crop. rewrite Hs.
  unfold wf_LongTensor in Hwf. rewrite Hs in Hwf. cbn [fst snd] in Hwf.
  destruct Hwf as [_ HT].
  destruct (Nat.leb_spec T bs) as [Hle|Hgt].
  - rewrite Hs. replace (Nat.min T bs) with T by lia. split; [reflexivity|].
    rewrite Nat.sub_diag.
    induction HT as [|row data Hrow _ IH]; constructor; [|assumption].
    split; [reflexivity | assumption].
  - assert (Hbs0 : (bs =? 0) = false) by (apply Nat.eqb_neq; lia).
    rewrite Hbs0. replace (Nat.min T bs) with bs by lia. split; [reflexivity|].
    cbn [lt_data].
    induction HT as [|row data Hrow _ IH]; cbn [map]; constructor; [|assumption].
    unfold slice_last. rewrite Hbs0, Hrow. split.
    + symmetry. apply firstn_skipn.
    + rewrite length_skipn. lia.
Qed.

Lemma crop_is_recent_window_witness :
  lt_size (crop 1 idx_2) = (1, Nat.min 2 1) /\
  Forall2 (fun row window =>
             row = firstn (2 - Nat.min 2 1) row ++ window /\
             length window = Nat.min 2 1)
          (lt_data idx_2) (lt_data (crop 1 idx_2)).
Proof.
  apply (@crop_is_recent_window 1 1 2 idx_2).
  - lia.
  - reflexivity.
  - exact (proj1 wf_idx_2).
Defined.

(* ------------------------------------------------------------------ *)
(** ** The order of the checkpoint *)

Section CheckpointOrder.

Context {F : Type} `{Scalar F}.

Lemma foldM_app {A S : Type} (body : S -> A -> result S) (l l' : list A) (s : S) :
  foldM body (l ++ l') s = (s' <- foldM body l s ;; foldM body l' s').
Proof.
  revert s. induction l as [|a l IH]; intros s; cbn [app foldM bind]; [reflexivity|].
  destruct (body s a) as [s1|e]; cbn [bind]; [apply IH | reflexivity].
Qed.

Lemma foldM_map {A B S : Type} (body : S -> B -> result S) (f : A -> B)
  (l : list A) (s : S) :
  foldM body (map f l) s = foldM (fun s a => body s (f a)) l s.
Proof.
  revert s. induction l as [|a l IH]; intros s; cbn [map foldM]; [reflexivity|].
  destruct (body s (f a)) as [s1|e]; cbn [bind]; [apply IH | reflexivity].
Qed.

Lemma bind_ext {A B : Type} (c : result A) (k k' : A -> result B) :
  (forall a, k a = k' a) -> bind c k = bind c k'.
Proof. intros Hk. destruct c; cbn [bind]; [apply Hk | reflexivity]. Qed.

Lemma foldM_write_named_cons (d : list (string * PTensor F)) (name : string)
  (l : list string) (file : list (datum F)) :
  foldM (write_named d) (name :: l) file =
  (t <- getitem d name ;; foldM (write_named d) l (write_fp32 t file)).
Proof.
  cbn [foldM]. unfold write_named at 1.
  destruct (getitem d name); reflexivity.
Qed.

(** [write_tensors_fp32] is one loop over the names of [fp32_order]. *)
Lemma write_tensors_fp32_fold (d : list (string * PTensor F)) (L : nat)
  (file : list (datum F)) :
  write_tensors_fp32 d L file = foldM (write_named d) (fp32_order L) file.
Proof.
  unfold write_tensors_fp32, fp32_order, layer_params. cbn [flat_map].
  rewrite <- !app_assoc. cbn [app].
  rewrite foldM_write_named_cons. apply bind_ext. intros t1. cbv beta zeta.
  rewrite foldM_write_named_cons. apply bind_ext. intros t2. cbv beta zeta.
  do 12 (rewrite foldM_app, foldM_map; apply bind_ext; intros ?).
  cbn [app].
  rewrite foldM_write_named_cons. apply bind_ext. intros t3. cbv beta zeta.
  rewrite foldM_write_named_cons. apply bind_ext. intros t4. reflexivity.
Qed.

Lemma foldM_write_named_Ok (d : list (string * PTensor F)) (names : list string)
  (file : list (datum F)) :
  (forall name, In name names -> lookup name d <> None) ->
  foldM (write_named d) names file = Ok (file ++ flat_map (fp32_of d) names).
Proof.
  revert file. induction names as [|name names IH]; intros file Hall.
  - cbn [foldM flat_map]. rewrite app_nil_r. reflexivity.
  - rewrite foldM_write_named_cons. unfold getitem.
    cbn [flat_map]. unfold fp32_of at 1.
    destruct (lookup name d) as [t|] eqn:Ht.
    + cbn [bind]. rewrite IH by (intros n Hn; apply Hall; right; assumption).
      unfold write_fp32. rewrite <- app_assoc. reflexivity.
    + exfalso. apply (Hall name); [left; reflexivity | assumption].
Qed.


Lemma nth_error_kind_major (f : string -> nat -> string) (L : nat)
  (suffixes : list string) (k i : nat) :
  k < length suffixes -> i < L ->
  nth_error (flat_map (fun suffix => map (f suffix) (seq 0 L)) suffixes) (k * L + i) =
  Some (f (nth k suffixes EmptyString) i).
Proof.
  revert k. induction suffixes as [|s suffixes IH]; intros k Hk Hi; [cbn in Hk; lia|].
  cbn [flat_map]. destruct k as [|k].
  - cbn [Nat.mul Nat.add nth]. rewrite nth_error_app1 by (rewrite length_map, length_seq; lia).
    rewrite nth_error_map, nth_error_nth' with (d := 0) by (rewrite length_seq; lia).
    rewrite seq_nth by lia. reflexivity.
  - rewrite nth_error_app2 by (rewrite length_map, length_seq; cbn; lia).
    rewrite length_map, length_seq.
    replace (S k * L + i - L) with (k * L + i) by (cbn; lia).
    cbn [nth]. apply IH; [cbn in Hk; lia | assumption].
Qed.

(** The body of a full-precision checkpoint.  When the dict holds a tensor
    under every name of [fp32_order L], [write_tensors_fp32] appends to the
    file the floats of these tensors, in that order; the order is by kind
    of parameter first and by layer second: the tensor of kind [k] (of the
    twelve of [layer_params]) of layer [i] is the one written at position
    [2 + k * L + i]. *)
Theorem write_tensors_fp32_order (d : list (string * PTensor F)) (L : nat)
  (file : list (datum F)) :
  (forall name, In name (fp32_order L) -> lookup name d <> None) ->
  write_tensors_fp32 d L file = Ok (file ++ flat_map (fp32_of d) (fp32_order L)) /\
  (forall k i, k < 12 -> i < L ->
     nth_error (fp32_order L) (2 + k * L + i) =
     Some (layer_prefix i ++ nth k layer_params EmptyString)%string).
Proof.
  intros Hall. split.
  - rewrite write_tensors_fp32_fold. apply foldM_write_named_Ok. assumption.
  - intros k i Hk Hi. unfold fp32_order. cbn [app nth_error Nat.add].
    rewrite nth_error_app1.
    + apply (nth_error_kind_major (fun suffix i => (layer_prefix i ++ suffix)%string));
        [exact Hk | exact Hi].
    + rewrite (flat_map_constant_length (c := L)).
      * change (length layer_params) with 12. nia.
      * intros s _. rewrite length_map, length_seq. reflexivity.
Qed.


End CheckpointOrder.

Lemma lookup_map_self {V : Type} (f : string -> V) (names : list string) (name : string) :
  In name names -> lookup name (map (fun n => (n, f n)) names) <> None.
Proof.
  induction names as [|n names IH]; intros Hin; [contradiction|].
  cbn [map lookup]. destruct (String.eqb_spec name n) as [Heq|Hne]; [discriminate|].
  apply IH. destruct Hin as [Heq|Hin]; [congruence | assumption].
Qed.

Lemma write_tensors_fp32_order_witness :
  write_tensors_fp32 tensors_1 1 [] = Ok ([] ++ flat_map (fp32_of tensors_1) (fp32_order 1)) /\
  (forall k i, k < 12 -> i < 1 ->
     nth_error (fp32_order 1) (2 + k * 1 + i) =
     Some (layer_prefix i ++ nth k layer_params EmptyString)%string).
Proof.
  apply (@write_tensors_fp32_order R tensors_1 1 []).
  intros name Hin. unfold tensors_1. apply lookup_map_self. exact Hin.
Defined.


(* ------------------------------------------------------------------ *)
(** ** The names of the parameters *)

Lemma digits_then_dot (d d' : Decimal.uint) (s s' : string) :
  (NilEmpty.string_of_uint d ++ String "." s)%string =
  (NilEmpty.string_of_uint d' ++ String "." s')%string ->
  d = d' /\ s = s'.
Proof.
  revert d'. induction d as [|d IH|d IH|d IH|d IH|d IH|d IH|d IH|d IH|d IH|d IH];
    intros [|d'|d'|d'|d'|d'|d'|d'|d'|d'|d'] Heq; cbn in Heq;
    try discriminate;
    try (injection Heq as Heq; destruct (IH d' Heq) as [-> ->]; split; reflexivity).
  injection Heq as ->. split; reflexivity.
Qed.

Lemma str_of_nat_inj (i j : nat) (s s' : string) :
  (str_of_nat i ++ String "." s)%string = (str_of_nat j ++ String "." s')%string ->
  i = j /\ s = s'.
Proof.
  unfold str_of_nat. intros Heq. apply digits_then_dot in Heq.
  destruct Heq as [Hd Hs]. split; [|assumption].
  apply DecimalNat.Unsigned.to_uint_inj. assumption.
Qed.

(** Two names [transformer.h.{i}.<suffix>] are the same only for the same
    layer and the same suffix. *)
Lemma layer_name_inj (i j : nat) (s s' : string) :
  (layer_prefix i ++ String "." s)%string = (layer_prefix j ++ String "." s')%string ->
  i = j /\ s = s'.
Proof.
  unfold layer_prefix. cbn [String.append]. intros Heq.
  repeat (injection Heq as Heq).
  apply str_of_nat_inj. exact Heq.
Qed.

Section Names.

Context {F : Type} `{Scalar F}.

Lemma block_names (cfg : GPTConfig) (i : nat) :
  map fst (block_specs cfg i) = map (String.append (layer_prefix i)) block_suffixes.
Proof. reflexivity. Qed.

Lemma block_suffixes_dot :
  Forall (fun s => exists t, s = String "." t) block_suffixes.
Proof. unfold block_suffixes. repeat constructor; eexists; reflexivity. Qed.

Lemma NoDup_block_suffixes : NoDup block_suffixes.
Proof.
  unfold block_suffixes.
  repeat (constructor; [cbn [In]; intuition discriminate|]). constructor.
Qed.

Lemma append_inj_l (p s s' : string) : (p ++ s)%string = (p ++ s')%string -> s = s'.
Proof.
  induction p as [|c p IH]; cbn [String.append]; intros Heq; [assumption|].
  injection Heq as Heq. apply IH. assumption.
Qed.

Lemma NoDup_map_inj {A B : Type} (f : A -> B) (l : list A) :
  (forall a a', f a = f a' -> a = a') -> NoDup l -> NoDup (map f l).
Proof.
  intros Hinj. induction 1 as [|a l Ha _ IH]; cbn [map]; constructor; [|assumption].
  rewrite in_map_iff. intros [a' [Heq Hin]]. apply Hinj in Heq. subst. contradiction.
Qed.

Lemma NoDup_flat_map_disjoint {A B : Type} (f : A -> list B) (l : list A) :
  NoDup l -> (forall a, NoDup (f a)) ->
  (forall a a' b, In b (f a) -> In b (f a') -> a = a') ->
  NoDup (flat_map f l).
Proof.
  intros Hl Hf Hdisj. induction Hl as [|a l Ha _ IH]; cbn [flat_map]; [constructor|].
  apply NoDup_app; [apply Hf | assumption |].
  intros b Hb Hin. apply in_flat_map in Hin. destruct Hin as [a' [Ha' Hb']].
  rewrite (Hdisj a a' b Hb Hb') in Ha. contradiction.
Qed.

Lemma In_block_name (i : nat) (name : string) :
  In name (map (String.append (layer_prefix i)) block_suffixes) ->
  exists t, name = (layer_prefix i ++ String "." t)%string /\ In (String "." t) block_suffixes.
Proof.
  rewrite in_map_iff. intros [s [Heq Hs]].
  pose proof block_suffixes_dot as Hdot. rewrite Forall_forall in Hdot.
  destruct (Hdot s Hs) as [t Ht]. subst s. exists t. split; [symmetry|]; assumption.
Qed.

Lemma block_name_prefix (i : nat) (name : string) :
  In name (map (String.append (layer_prefix i)) block_suffixes) ->
  prefix "transformer.h." name = true.
Proof.
  intros Hin. apply In_block_name in Hin. destruct Hin as [t [-> _]].
  unfold layer_prefix. cbn.
  destruct (str_of_nat i ++ String "." t)%string; reflexivity.
Qed.

Lemma map_fst_flat_map {A B C : Type} (f : A -> list (B * C)) (l : list A) :
  map fst (flat_map f l) = flat_map (fun a => map fst (f a)) l.
Proof.
  induction l as [|a l IH]; cbn [flat_map map]; [reflexivity|].
  rewrite map_app, IH. reflexivity.
Qed.

Lemma layer_names_prefix (cfg : GPTConfig) (L : nat) (name : string) :
  In name (map fst (flat_map (block_specs cfg) (seq 0 L))) ->
  prefix "transformer.h." name = true.
Proof.
  rewrite map_fst_flat_map. intros Hin. apply in_flat_map in Hin.
  destruct Hin as [i [_ Hin]]. rewrite block_names in Hin.
  apply block_name_prefix with (i := i). assumption.
Qed.

Lemma NoDup_layer_names (cfg : GPTConfig) (L : nat) :
  NoDup (map fst (flat_map (block_specs cfg) (seq 0 L))).
Proof.
  rewrite map_fst_flat_map. apply NoDup_flat_map_disjoint.
  - apply seq_NoDup.
  - intros i. rewrite block_names. apply NoDup_map_inj.
    + intros s s'. apply append_inj_l.
    + apply NoDup_block_suffixes.
  - intros i j name Hi Hj. rewrite block_names in Hi, Hj.
    apply In_block_name in Hi, Hj.
    destruct Hi as [t [Hi _]], Hj as [t' [Hj _]]. rewrite Hi in Hj.
    apply layer_name_inj in Hj. apply Hj.
Qed.

(** The names under which [GPT.__init__] registers its tensors are pairwise
    distinct. *)
Lemma NoDup_GPT_names (cfg : GPTConfig) : NoDup (map fst (GPT_specs cfg)).
Proof.
  unfold GPT_specs. rewrite !map_app. cbn [map fst].
  assert (Hout : forall name,
            In name (map fst (flat_map (block_specs cfg) (seq 0 (n_layer cfg)))) ->
            prefix "transformer.h." name = true) by apply layer_names_prefix.
  constructor.
  { cbn [In app]. rewrite in_app_iff. intros [Heq|[Hin|Hin]].
    - discriminate.
    - apply Hout in Hin. discriminate.
    - cbn [In] in Hin. intuition discriminate. }
  constructor.
  { rewrite in_app_iff. intros [Hin|Hin].
    - apply Hout in Hin. discriminate.
    - cbn [In] in Hin. intuition discriminate. }
  apply NoDup_app.
  - apply NoDup_layer_names.
  - repeat (constructor; [cbn [In]; intuition discriminate|]). constructor.
  - intros name Hin Hin'. apply Hout in Hin. cbn [In] in Hin'.
    destruct Hin' as [<-|[<-|[<-|[]]]]; discriminate.
Qed.

End Names.

(* ------------------------------------------------------------------ *)
(** ** Dicts *)

Lemma lookup_In {V : Type} (k : string) (d : list (string * V)) :
  In k (keys d) <-> exists v, lookup k d = Some v.
Proof.
  induction d as [|[k' v'] d IH]; cbn [keys map fst In lookup].
  - split; [intros [] | intros [v Hv]; discriminate].
  - destruct (String.eqb_spec k k') as [Heq|Hne].
    + split; [intros _; eexists; reflexivity | intros _; left; congruence].
    + rewrite <- IH. unfold keys. split; [intros [Heq|Hin] | intros Hin].
      * congruence.
      * assumption.
      * right. assumption.
Qed.

Lemma lookup_In_pair {V : Type} (k : string) (v : V) (d : list (string * V)) :
  lookup k d = Some v -> In (k, v) d.
Proof.
  induction d as [|[k' v'] d IH]; cbn [lookup]; [discriminate|].
  destruct (String.eqb_spec k k') as [Heq|Hne].
  - intros Hv. inversion Hv. subst. left. reflexivity.
  - intros Hv. right. apply IH. assumption.
Qed.

Lemma lookup_NoDup {V : Type} (k : string) (v : V) (d : list (string * V)) :
  NoDup (keys d) -> In (k, v) d -> lookup k d = Some v.
Proof.
  induction d as [|[k' v'] d IH]; cbn [keys map fst lookup]; intros Hnd Hin;
    [contradiction|].
  inversion Hnd as [|? ? Hk' Hnd']. subst.
  destruct Hin as [Heq|Hin].
  - inversion Heq. subst. rewrite String.eqb_refl. reflexivity.
  - destruct (String.eqb_spec k k') as [Heq|Hne].
    + subst. exfalso. apply Hk'. apply (in_map fst) in Hin. exact Hin.
    + apply IH; assumption.
Qed.

Lemma lookup_setitem_eq {V : Type} (k : string) (v : V) (d : list (string * V)) :
  In k (keys d) -> lookup k (setitem k v d) = Some v.
Proof.
  induction d as [|[k' v'] d IH]; cbn [keys map fst In setitem]; [intros []|].
  intros Hin. destruct (String.eqb_spec k k') as [Heq|Hne].
  - subst. cbn [lookup]. rewrite String.eqb_refl. reflexivity.
  - cbn [lookup]. destruct (String.eqb_spec k k') as [Heq|_]; [contradiction|].
    apply IH. destruct Hin as [Heq|Hin]; [congruence | assumption].
Qed.

Lemma lookup_setitem_neq {V : Type} (k k' : string) (v : V) (d : list (string * V)) :
  k <> k' -> lookup k (setitem k' v d) = lookup k d.
Proof.
  intros Hne. induction d as [|[k2 v2] d IH]; cbn [setitem]; [reflexivity|].
  destruct (String.eqb_spec k' k2) as [Heq|Hne2]; cbn [lookup].
  - subst. destruct (String.eqb_spec k k2); [contradiction | reflexivity].
  - destruct (String.eqb_spec k k2); [reflexivity | apply IH].
Qed.

Lemma keys_setitem {V : Type} (k : string) (v : V) (d : list (string * V)) :
  keys (setitem k v d) = keys d.
Proof.
  induction d as [|[k' v'] d IH]; cbn [setitem]; [reflexivity|].
  destruct (String.eqb k k'); cbn [keys map fst]; [reflexivity|].
  unfold keys in IH. rewrite IH. reflexivity.
Qed.

Lemma keys_combine {V : Type} (ks : list string) (vs : list V) :
  length ks = length vs -> keys (combine ks vs) = ks.
Proof.
  revert vs. induction ks as [|k ks IH]; intros [|v vs] Hlen; cbn in *;
    try reflexivity; try discriminate.
  unfold keys in IH. rewrite IH by lia. reflexivity.
Qed.

Section StoreProperties.

Context {F : Type} `{Scalar F}.

Lemma nth_error_update_eq (l : nat) (t : PTensor F) (hp : heap F) :
  l < length hp -> nth_error (update l t hp) l = Some t.
Proof.
  revert l. induction hp as [|t' hp IH]; intros l Hl; [cbn in Hl; lia|].
  destruct l as [|l]; cbn [update nth_error]; [reflexivity|].
  apply IH. cbn in Hl. lia.
Qed.

Lemma nth_error_update_neq (l l' : nat) (t : PTensor F) (hp : heap F) :
  l <> l' -> nth_error (update l t hp) l' = nth_error hp l'.
Proof.
  revert l l'. induction hp as [|t' hp IH]; intros l l' Hne.
  - destruct l; reflexivity.
  - destruct l as [|l], l' as [|l']; cbn [update nth_error]; try reflexivity;
      [contradiction | apply IH; lia].
Qed.

Lemma length_update (l : nat) (t : PTensor F) (hp : heap F) :
  length (update l t hp) = length hp.
Proof.
  revert l. induction hp as [|t' hp IH]; intros l; [destruct l; reflexivity|].
  destruct l as [|l]; cbn [update length]; [reflexivity|]. rewrite IH. reflexivity.
Qed.

Lemma keys_fresh_state (cfg : GPTConfig) :
  keys (fresh_state cfg) = map fst (GPT_specs cfg).
Proof.
  unfold fresh_state. apply keys_combine.
  rewrite length_combine, !length_map, length_seq. lia.
Qed.

Lemma fresh_state_loc (cfg : GPTConfig) (k : string) (b : bool) (l : nat) :
  In (k, (b, l)) (fresh_state cfg) -> l < length (GPT_specs cfg).
Proof.
  unfold fresh_state. intros Hin. apply in_combine_r in Hin.
  apply in_combine_r in Hin. apply in_seq in Hin. lia.
Qed.

Lemma In_lm_head (cfg : GPTConfig) :
  In "lm_head.weight"%string (map fst (GPT_specs cfg)).
Proof.
  unfold GPT_specs. rewrite !map_app, !in_app_iff. right. right.
  cbn. right. right. left. reflexivity.
Qed.

Lemma In_wte (cfg : GPTConfig) :
  In "transformer.wte.weight"%string (map fst (GPT_specs cfg)).
Proof. unfold GPT_specs. cbn. left. reflexivity. Qed.

(** [GPT.__init__] succeeds exactly when there is no layer or the heads
    divide the embedding. *)
Lemma GPT_init_Ok (cfg : GPTConfig) (init : string -> list nat -> F) :
  n_layer cfg = 0 \/ heads_divide cfg ->
  exists w,
    lookup "lm_head.weight" (fresh_state cfg) = Some w /\
    GPT_init cfg init =
    Ok (mkGPTObject cfg (setitem "transformer.wte.weight" w (fresh_state cfg)),
        map (new_tensor init) (GPT_specs cfg)).
Proof.
  intros Hcfg.
  destruct (proj1 (lookup_In "lm_head.weight" (fresh_state cfg))) as [w Hw].
  { rewrite keys_fresh_state. apply In_lm_head. }
  exists w. split; [assumption|]. unfold GPT_init. fold (fresh_state cfg).
  assert (Hguard : (if n_layer cfg =? 0 then Ok tt
                    else if n_head cfg =? 0 then Raise ZeroDivisionError
                    else assert_ (n_embd cfg mod n_head cfg =? 0) "") = Ok tt).
  { destruct Hcfg as [H0|[Hnh Hmod]].
    - rewrite H0. reflexivity.
    - destruct (n_layer cfg =? 0); [reflexivity|].
      apply Nat.eqb_neq in Hnh. rewrite Hnh, Hmod. reflexivity. }
  rewrite Hguard. cbn [bind]. unfold getitem. rewrite Hw. reflexivity.
Qed.

(** The constructor and its assertion.  [GPT(config)] succeeds when the
    config has no layer or [n_head] is not zero and divides [n_embd]; with
    at least one layer, [n_head = 0] raises [ZeroDivisionError] and an
    [n_embd] that is not a multiple of [n_head] raises the assertion error
    of [CausalSelfAttention.__init__]. *)
Theorem GPT_init_precondition (cfg : GPTConfig) (init : string -> list nat -> F) :
  (n_layer cfg = 0 \/ heads_divide cfg ->
   exists model hp, GPT_init cfg init = Ok (model, hp) /\ o_config model = cfg /\
                    length hp = length (GPT_specs cfg)) /\
  (n_layer cfg <> 0 -> n_head cfg = 0 -> GPT_init cfg init = Raise ZeroDivisionError) /\
  (n_layer cfg <> 0 -> n_head cfg <> 0 -> n_embd cfg mod n_head cfg <> 0 ->
   GPT_init cfg init = Raise (AssertionError "")).
Proof.
  split; [|split].
  - intros Hcfg. destruct (GPT_init_Ok init Hcfg) as [w [_ Hinit]].
    eexists. eexists. split; [exact Hinit|]. split; [reflexivity|].
    apply length_map.
  - intros HL Hnh. unfold GPT_init.
    apply Nat.eqb_neq in HL. rewrite HL, Hnh. reflexivity.
  - intros HL Hnh Hmod. unfold GPT_init.
    apply Nat.eqb_neq in HL, Hnh, Hmod. rewrite HL, Hnh, Hmod. reflexivity.
Qed.

(** Weight tying.  After [GPT.__init__] the names [transformer.wte.weight]
    and [lm_head.weight] are bound to one and the same tensor object; in
    every later state of the heap, an in-place update made through either
    name is what is read through the other. *)
Theorem GPT_init_ties_weights (cfg : GPTConfig) (init : string -> list nat -> F)
  (model : GPTObject) (hp : heap F) :
  GPT_init cfg init = Ok (model, hp) ->
  (exists w,
     lookup "transformer.wte.weight" (o_state model) = Some w /\
     lookup "lm_head.weight" (o_state model) = Some w /\
     snd w < length hp) /\
  (forall (hp' : heap F) (t : PTensor F) (f : (list nat -> F) -> list nat -> F),
     length hp' = length hp ->
     read model hp' "lm_head.weight" = Some t ->
     read model hp' "transformer.wte.weight" = Some t /\
     read model (update_ model "transformer.wte.weight" f hp') "lm_head.weight" =
       Some (mkPTensor (shape t) (f (entry t))) /\
     read model (update_ model "lm_head.weight" f hp') "transformer.wte.weight" =
       Some (mkPTensor (shape t) (f (entry t)))).
Proof.
  intros Hinit.
  assert (Hcfg : n_layer cfg = 0 \/ heads_divide cfg).
  { unfold GPT_init in Hinit. destruct (Nat.eqb_spec (n_layer cfg) 0) as [H0|HL];
      [left; assumption|]. right.
    destruct (Nat.eqb_spec (n_head cfg) 0) as [Hnh|Hnh]; [discriminate|].
    destruct (Nat.eqb_spec (n_embd cfg mod n_head cfg) 0) as [Hmod|Hmod];
      [split; assumption | discriminate]. }
  destruct (GPT_init_Ok init Hcfg) as [[b l] [Hw Hinit']].
  assert (Hmodel : model = mkGPTObject cfg
            (setitem "transformer.wte.weight" (b, l) (fresh_state cfg)))
    by congruence.
  assert (Hhp : hp = map (new_tensor init) (GPT_specs cfg)) by congruence.
  subst model hp. clear Hinit Hinit'.
  cbn [o_state].
  assert (Hwte : lookup "transformer.wte.weight"
                   (setitem "transformer.wte.weight" (b, l) (fresh_state cfg)) = Some (b, l)).
  { apply lookup_setitem_eq. rewrite keys_fresh_state. apply In_wte. }
  assert (Hlm : lookup "lm_head.weight"
                  (setitem "transformer.wte.weight" (b, l) (fresh_state cfg)) = Some (b, l)).
  { rewrite lookup_setitem_neq by discriminate. assumption. }
  assert (Hl : l < length (GPT_specs cfg)).
  { apply lookup_In_pair in Hw. apply fresh_state_loc in Hw. assumption. }
  split.
  - exists (b, l). split; [assumption|]. split; [assumption|].
    cbn [snd]. rewrite length_map. assumption.
  - intros hp' t f Hlen Hread. unfold read, update_ in *. cbn [o_state] in *.
    unfold loc in *. rewrite Hlm in Hread. rewrite Hwte, Hlm, Hread.
    rewrite length_map in Hlen.
    split; [reflexivity|].
    split; apply nth_error_update_eq; lia.
Qed.

End StoreProperties.

Lemma GPT_init_ties_weights_witness :
  exists model hp,
    GPT_init tiny_config (fun _ _ => 1%R) = Ok (model, hp) /\
    (exists w,
       lookup "transformer.wte.weight" (o_state model) = Some w /\
       lookup "lm_head.weight" (o_state model) = Some w /\
       snd w < length hp).
Proof.
  destruct (@GPT_init_Ok R R_Scalar tiny_config (fun _ _ => 1%R)
              (or_intror heads_divide_tiny)) as [w [_ Hinit]].
  eexists. eexists. split; [exact Hinit|].
  exact (proj1 (@GPT_init_ties_weights R R_Scalar tiny_config (fun _ _ => 1%R) _ _ Hinit)).
Defined.

(* ------------------------------------------------------------------ *)
(** ** Loading pretrained weights *)

Section FromPretrained.

Context {F : Type} `{Scalar F}.

Lemma shape_eqb_eq (s s' : list nat) : shape_eqb s s' = true <-> s = s'.
Proof.
  unfold shape_eqb. destruct (list_eq_dec Nat.eq_dec s s'); split; intros;
    try reflexivity; try assumption; try discriminate; contradiction.
Qed.

Lemma map_shape_update (l : nat) (t dst : PTensor F) (hp : heap F) :
  nth_error hp l = Some dst -> shape t = shape dst ->
  map (@shape F) (update l t hp) = map (@shape F) hp.
Proof.
  revert l. induction hp as [|t' hp IH]; intros l Hl Hs; [destruct l; reflexivity|].
  destruct l as [|l]; cbn [update map nth_error] in *.
  - inversion Hl. subst. rewrite Hs. reflexivity.
  - rewrite (IH l Hl Hs). reflexivity.
Qed.

Lemma nth_error_same_shapes (hp hp0 : heap F) (l : nat) (dst : PTensor F) :
  map (@shape F) hp = map (@shape F) hp0 -> nth_error hp l = Some dst ->
  exists dst0, nth_error hp0 l = Some dst0 /\ shape dst0 = shape dst.
Proof.
  intros Hshapes Hl.
  assert (Hs : nth_error (map (@shape F) hp0) l = Some (shape dst)).
  { rewrite <- Hshapes, nth_error_map, Hl. reflexivity. }
  rewrite nth_error_map in Hs.
  destruct (nth_error hp0 l) as [dst0|]; [|discriminate].
  exists dst0. split; [reflexivity|]. inversion Hs. reflexivity.
Qed.

(** One step of the loop succeeds exactly when the name is one of the model
    and the sizes fit; it leaves the sizes of the tensors as they were. *)
Lemma load_step_Ok (sd : list (string * nat)) (sd_hf : list (string * PTensor F))
  (hp : heap F) (k : string) (src dst : PTensor F) (l : nat) :
  lookup k sd_hf = Some src -> lookup k sd = Some l -> nth_error hp l = Some dst ->
  shape_ok k (shape src) (shape dst) ->
  exists hp', load_step sd sd_hf hp k = Ok hp' /\
              map (@shape F) hp' = map (@shape F) hp.
Proof.
  intros Hsrc Hl Hdst Hok. unfold load_step, getitem, deref.
  unfold loc in *. rewrite Hsrc, Hl. cbn [bind]. rewrite Hdst. cbn [bind].
  unfold shape_ok in Hok.
  destruct (existsb (endswith k) transposed).
  - destruct Hok as [Hrev Hdim].
    apply shape_eqb_eq in Hrev. rewrite Hrev. cbn [assert_ bind].
    apply shape_eqb_eq in Hrev.
    assert (Ht : exists src', t_ src = Ok src' /\ shape src' = shape dst).
    { unfold t_. destruct (shape src) as [|r [|c [|x rest]]] eqn:Hshape.
      - exists src. split; [reflexivity|]. rewrite Hshape. exact Hrev.
      - exists src. split; [reflexivity|]. rewrite Hshape. exact Hrev.
      - eexists. split; [reflexivity|]. exact Hrev.
      - cbn in Hdim. lia. }
    destruct Ht as [src' [Ht Hs']]. rewrite Ht. cbn [bind].
    unfold copy_. apply shape_eqb_eq in Hs'. rewrite Hs'. cbn [torch_check bind].
    eexists. split; [reflexivity|]. eapply map_shape_update; [eassumption | reflexivity].
  - apply shape_eqb_eq in Hok. rewrite Hok. cbn [assert_ bind].
    unfold copy_. rewrite Hok. cbn [torch_check bind].
    eexists. split; [reflexivity|]. eapply map_shape_update; [eassumption | reflexivity].
Qed.

Lemma load_step_inv (sd : list (string * nat)) (sd_hf : list (string * PTensor F))
  (hp hp' : heap F) (k : string) :
  load_step sd sd_hf hp k = Ok hp' ->
  exists src l dst,
    lookup k sd_hf = Some src /\ lookup k sd = Some l /\ nth_error hp l = Some dst /\
    shape_ok k (shape src) (shape dst) /\
    map (@shape F) hp' = map (@shape F) hp.
Proof.
  unfold load_step, getitem, deref. unfold loc in *. intros Hstep.
  destruct (lookup k sd_hf) as [src|]; [|discriminate]. cbn [bind] in Hstep.
  destruct (lookup k sd) as [l|]; [|discriminate]. cbn [bind] in Hstep.
  destruct (nth_error hp l) as [dst|] eqn:Hdst; [|discriminate]. cbn [bind] in Hstep.
  exists src, l, dst. split; [reflexivity|]. split; [reflexivity|]. split; [exact Hdst|].
  unfold shape_ok. destruct (existsb (endswith k) transposed).
  - destruct (shape_eqb (rev (shape src)) (shape dst)) eqn:Hrev; [|discriminate].
    cbn [assert_ bind] in Hstep. apply shape_eqb_eq in Hrev.
    unfold t_ in Hstep.
    destruct (shape src) as [|r [|c [|x rest]]] eqn:Hshape; cbn [bind] in Hstep;
      try discriminate.
    + unfold copy_ in Hstep.
      destruct (shape_eqb (shape src) (shape dst)); [|discriminate].
      cbn [torch_check bind] in Hstep. inversion Hstep. subst hp'.
      split; [split; [assumption | cbn; lia]|].
      eapply map_shape_update; [eassumption | reflexivity].
    + unfold copy_ in Hstep.
      destruct (shape_eqb (shape src) (shape dst)); [|discriminate].
      cbn [torch_check bind] in Hstep. inversion Hstep. subst hp'.
      split; [split; [assumption | cbn; lia]|].
      eapply map_shape_update; [eassumption | reflexivity].
    + unfold copy_ in Hstep. cbn [shape] in Hstep.
      destruct (shape_eqb [c; r] (shape dst)); [|discriminate].
      cbn [torch_check bind] in Hstep. inversion Hstep. subst hp'.
      split; [split; [assumption | cbn; lia]|].
      eapply map_shape_update; [eassumption | reflexivity].
  - destruct (shape_eqb (shape src) (shape dst)) eqn:Heq; [|discriminate].
    cbn [assert_ bind] in Hstep. unfold copy_ in Hstep. rewrite Heq in Hstep.
    cbn [torch_check bind] in Hstep. inversion Hstep. subst hp'.
    apply shape_eqb_eq in Heq. split; [assumption|].
    eapply map_shape_update; [eassumption | reflexivity].
Qed.

(** The loop succeeds exactly when every step can: for every name, in terms
    of the sizes [hp0] that the tensors had before the loop. *)
Lemma load_loop_Ok (sd : list (string * nat)) (sd_hf : list (string * PTensor F))
  (hp0 : heap F) (ks : list string) :
  (forall k, In k ks ->
     exists src l dst,
       lookup k sd_hf = Some src /\ lookup k sd = Some l /\
       nth_error hp0 l = Some dst /\ shape_ok k (shape src) (shape dst)) ->
  forall hp, map (@shape F) hp = map (@shape F) hp0 ->
  exists hp', foldM (load_step sd sd_hf) ks hp = Ok hp' /\
              map (@shape F) hp' = map (@shape F) hp0.
Proof.
  induction ks as [|k ks IH]; intros Hall hp Hshapes; cbn [foldM].
  - exists hp. split; [reflexivity | assumption].
  - destruct (Hall k (or_introl eq_refl)) as [src [l [dst0 [Hsrc [Hl [Hdst0 Hok]]]]]].
    destruct (@nth_error_same_shapes hp0 hp l dst0 (eq_sym Hshapes) Hdst0)
      as [dst [Hdst Hsame]].
    rewrite <- Hsame in Hok.
    destruct (load_step_Ok sd sd_hf hp k Hsrc Hl Hdst Hok) as [hp1 [Hstep Hs1]].
    rewrite Hstep. cbn [bind]. apply IH.
    + intros k' Hk'. apply Hall. right. assumption.
    + congruence.
Qed.

Lemma load_loop_inv (sd : list (string * nat)) (sd_hf : list (string * PTensor F))
  (hp0 : heap F) (ks : list string) :
  forall hp hp', map (@shape F) hp = map (@shape F) hp0 ->
  foldM (load_step sd sd_hf) ks hp = Ok hp' ->
  (forall k, In k ks ->
     exists src l dst,
       lookup k sd_hf = Some src /\ lookup k sd = Some l /\
       nth_error hp0 l = Some dst /\ shape_ok k (shape src) (shape dst)) /\
  map (@shape F) hp' = map (@shape F) hp0.
Proof.
  induction ks as [|k ks IH]; intros hp hp' Hshapes Hloop; cbn [foldM] in Hloop.
  - inversion Hloop. subst. split; [intros k []| assumption].
  - destruct (load_step sd sd_hf hp k) as [hp1|] eqn:Hstep; [|discriminate].
    cbn [bind] in Hloop.
    destruct (load_step_inv _ _ _ _ Hstep) as [src [l [dst [Hsrc [Hl [Hdst [Hok Hs1]]]]]]].
    destruct (IH hp1 hp' ltac:(congruence) Hloop) as [Hrest Hfinal].
    split; [|assumption]. intros k' [<-|Hk']; [|apply Hrest; assumption].
    destruct (@nth_error_same_shapes hp hp0 l dst Hshapes Hdst) as [dst0 [Hdst0 Hsame]].
    exists src, l, dst0. rewrite Hsame. repeat split; assumption.
Qed.

End FromPretrained.

Section FromPretrainedModel.

Context {F : Type} `{Scalar F}.

Lemma In_numbered (specs : list (string * (bool * list nat))) (start : nat)
  (k : string) (b : bool) (l : nat) :
  In (k, (b, l))
     (combine (map fst specs)
              (combine (map (fun s => fst (snd s)) specs) (seq start (length specs)))) ->
  exists shp, nth_error specs (l - start) = Some (k, (b, shp)) /\ start <= l.
Proof.
  revert start. induction specs as [|[k' [b' shp']] specs IH]; intros start Hin;
    [contradiction|].
  cbn [map fst snd length seq combine In] in Hin. destruct Hin as [Heq|Hin].
  - inversion Heq. subst. exists shp'. rewrite Nat.sub_diag. split; [reflexivity | lia].
  - destruct (IH (S start) Hin) as [shp [Hnth Hle]]. exists shp. split; [|lia].
    replace (l - start) with (S (l - S start)) by lia. exact Hnth.
Qed.

Lemma In_fresh_state_spec (cfg : GPTConfig) (k : string) (b : bool) (l : nat) :
  In (k, (b, l)) (fresh_state cfg) ->
  exists shp, nth_error (GPT_specs cfg) l = Some (k, (b, shp)).
Proof.
  intros Hin. apply In_numbered in Hin. destruct Hin as [shp [Hnth _]].
  rewrite Nat.sub_0_r in Hnth. exists shp. assumption.
Qed.

Lemma lookup_state_dict (model : GPTObject) (k : string) :
  lookup k (state_dict model) = option_map snd (lookup k (o_state model)).
Proof.
  unfold state_dict. induction (o_state model) as [|[k' [b l]] st IH];
    cbn [map lookup]; [reflexivity|].
  destruct (String.eqb k k'); [reflexivity | apply IH].
Qed.

Lemma lookup_spec (cfg : GPTConfig) (k : string) (b : bool) (shp : list nat) (l : nat) :
  nth_error (GPT_specs cfg) l = Some (k, (b, shp)) ->
  lookup k (GPT_specs cfg) = Some (b, shp).
Proof.
  intros Hnth. apply lookup_NoDup; [apply NoDup_GPT_names|].
  eapply nth_error_In. eassumption.
Qed.

Lemma lookup_lm_head_spec (cfg : GPTConfig) :
  lookup "lm_head.weight" (GPT_specs cfg) = Some (false, [vocab_size cfg; n_embd cfg]).
Proof.
  apply lookup_NoDup; [apply NoDup_GPT_names|].
  unfold GPT_specs. rewrite !in_app_iff. right. right. cbn. right. right. left.
  reflexivity.
Qed.

(** Where the names of the state dict of a fresh model point: to a tensor
    of the size that the constructor gives to that name. *)
Lemma fresh_model_binding (cfg : GPTConfig) (init : string -> list nat -> F)
  (w : bool * nat) (k : string) (l : nat) :
  lookup "lm_head.weight" (fresh_state cfg) = Some w ->
  lookup k (state_dict (mkGPTObject cfg
              (setitem "transformer.wte.weight" w (fresh_state cfg)))) = Some l ->
  exists b shp dst,
    lookup k (GPT_specs cfg) = Some (b, shp) /\
    nth_error (map (new_tensor init) (GPT_specs cfg)) l = Some dst /\
    shape dst = shp.
Proof.
  intros Hw Hk. rewrite lookup_state_dict in Hk. cbn [o_state] in Hk.
  unfold loc in *. destruct w as [bw lw].
  destruct (String.eqb_spec k "transformer.wte.weight") as [Heq|Hne].
  - subst k.
    rewrite lookup_setitem_eq in Hk by (rewrite keys_fresh_state; apply In_wte).
    cbn [option_map snd] in Hk. inversion Hk. subst lw.
    apply lookup_In_pair in Hw. apply In_fresh_state_spec in Hw.
    destruct Hw as [shp Hnth].
    pose proof (lookup_spec _ _ Hnth) as Hlm. rewrite lookup_lm_head_spec in Hlm.
    inversion Hlm. subst bw shp.
    exists false, [vocab_size cfg; n_embd cfg].
    eexists. split; [reflexivity|]. rewrite nth_error_map, Hnth.
    split; reflexivity.
  - rewrite lookup_setitem_neq in Hk by assumption.
    destruct (lookup k (fresh_state cfg)) as [[b l']|] eqn:Hfresh;
      cbn [option_map snd] in Hk; [|discriminate].
    inversion Hk. subst l'.
    apply lookup_In_pair in Hfresh. apply In_fresh_state_spec in Hfresh.
    destruct Hfresh as [shp Hnth].
    exists b, shp. eexists. split; [apply (lookup_spec _ _ Hnth)|].
    rewrite nth_error_map, Hnth. split; reflexivity.
Qed.

Lemma keys_state_dict_fresh (cfg : GPTConfig) (w : bool * nat) :
  keys (state_dict (mkGPTObject cfg
          (setitem "transformer.wte.weight" w (fresh_state cfg)))) =
  map fst (GPT_specs cfg).
Proof.
  unfold state_dict, keys. cbn [o_state]. rewrite map_map.
  rewrite <- keys_fresh_state, <- (keys_setitem "transformer.wte.weight" w).
  unfold keys. apply map_ext. intros [k [b l]]. reflexivity.
Qed.

Lemma config_args_divide (model_type : string) (cfg : GPTConfig) :
  config_args model_type = Ok cfg -> heads_divide cfg.
Proof.
  unfold config_args.
  destruct (String.eqb model_type "gpt2").
  { intros Hcfg. injection Hcfg as <-. split; cbn [n_head n_embd];
      [discriminate | reflexivity]. }
  destruct (String.eqb model_type "gpt2-medium").
  { intros Hcfg. injection Hcfg as <-. split; cbn [n_head n_embd];
      [discriminate | reflexivity]. }
  destruct (String.eqb model_type "gpt2-large").
  { intros Hcfg. injection Hcfg as <-. split; cbn [n_head n_embd];
      [discriminate | reflexivity]. }
  destruct (String.eqb model_type "gpt2-xl").
  { intros Hcfg. injection Hcfg as <-. split; cbn [n_head n_embd];
      [discriminate | reflexivity]. }
  discriminate.
Qed.

Lemma config_args_Ok (model_type : string) :
  existsb (String.eqb model_type) model_types = true ->
  exists cfg, config_args model_type = Ok cfg.
Proof.
  unfold model_types, config_args. cbn [existsb].
  destruct (String.eqb model_type "gpt2"); [eexists; reflexivity|].
  destruct (String.eqb model_type "gpt2-medium"); [eexists; reflexivity|].
  destruct (String.eqb model_type "gpt2-large"); [eexists; reflexivity|].
  destruct (String.eqb model_type "gpt2-xl"); [eexists; reflexivity|].
  discriminate.
Qed.

Lemma set_equal_lengths (l l' : list string) :
  NoDup l -> NoDup l' -> (forall k, In k l <-> In k l') -> length l = length l'.
Proof.
  intros Hl Hl' Heq. apply Nat.le_antisymm; apply NoDup_incl_length;
    try assumption; intros k Hk; apply Heq; assumption.
Qed.

End FromPretrainedModel.

Section FromPretrainedTheorem.

Context {F : Type} `{Scalar F}.

(** What [from_pretrained] does once the model type is accepted and the
    fresh model is built. *)
Lemma GPT_from_pretrained_unfold (model_type : string)
  (sd_hf : list (string * PTensor F)) (init : string -> list nat -> F)
  (cfg : GPTConfig) :
  existsb (String.eqb model_type) model_types = true ->
  config_args model_type = Ok cfg ->
  exists w,
    lookup "lm_head.weight" (fresh_state cfg) = Some w /\
    GPT_from_pretrained model_type sd_hf init =
    (let model := mkGPTObject cfg
                    (setitem "transformer.wte.weight" w (fresh_state cfg)) in
     assert_ (length (kept_hf sd_hf) =? length (kept_model cfg))
             (mismatch_msg (length (kept_hf sd_hf)) (length (kept_model cfg))) ;;;
     hp <- foldM (load_step (state_dict model) sd_hf) (kept_hf sd_hf)
                 (map (new_tensor init) (GPT_specs cfg)) ;;
     Ok (model, hp)).
Proof.
  intros Htype Hcfg.
  destruct (@GPT_init_Ok F _ cfg init (or_intror (@config_args_divide model_type cfg Hcfg))) as [w [Hw Hinit]].
  exists w. split; [assumption|].
  unfold GPT_from_pretrained. rewrite Htype, Hcfg. cbn [assert_ bind].
  rewrite Hinit. cbn [bind]. cbv zeta.
  rewrite keys_state_dict_fresh. reflexivity.
Qed.

(** [from_pretrained] succeeds exactly when the model type is one of the
    four, the names of the source (without its buffers) are exactly those of
    the model (without its mask), and every source tensor has the size of
    the tensor of that name, reversed for the four transposed kinds. *)
Theorem GPT_from_pretrained_succeeds_iff (model_type : string)
  (sd_hf : list (string * PTensor F)) (init : string -> list nat -> F) :
  NoDup (keys sd_hf) ->
  ((exists model hp, GPT_from_pretrained model_type sd_hf init = Ok (model, hp))
   <->
   exists cfg,
     In model_type model_types /\ config_args model_type = Ok cfg /\
     (forall k, In k (kept_hf sd_hf) <-> In k (kept_model cfg)) /\
     (forall k src, In k (kept_hf sd_hf) -> lookup k sd_hf = Some src ->
        exists b shp, lookup k (GPT_specs cfg) = Some (b, shp) /\
                      shape_ok k (shape src) shp)).
Proof.
  intros Hnd.
  assert (Hnd_hf : NoDup (kept_hf sd_hf)).
  { unfold kept_hf. apply NoDup_filter. apply NoDup_filter. assumption. }
  assert (Hnd_model : forall cfg, NoDup (kept_model cfg)).
  { intros cfg. unfold kept_model. apply NoDup_filter. apply NoDup_GPT_names. }
  split.
  - intros [model [hp Hload]].
    destruct (existsb (String.eqb model_type) model_types) eqn:Htype.
    2: { unfold GPT_from_pretrained in Hload. rewrite Htype in Hload. discriminate. }
    destruct (@config_args_Ok model_type Htype) as [cfg Hcfg]. exists cfg.
    destruct (@GPT_from_pretrained_unfold model_type sd_hf init cfg Htype Hcfg) as [w [Hw Hunfold]].
    rewrite Hunfold in Hload. cbv zeta in Hload.
    destruct (Nat.eqb_spec (length (kept_hf sd_hf)) (length (kept_model cfg)))
      as [Hlen|Hlen]; [|discriminate].
    cbn [assert_ bind] in Hload.
    destruct (foldM _ (kept_hf sd_hf) _) as [hp'|] eqn:Hloop; [|discriminate].
    destruct (@load_loop_inv F _ sd_hf (map (new_tensor init) (GPT_specs cfg))
                (kept_hf sd_hf) _ hp' eq_refl Hloop) as [Hall _].
    assert (Hincl : incl (kept_hf sd_hf) (kept_model cfg)).
    { intros k Hk. destruct (Hall k Hk) as [src [l [dst [_ [Hl _]]]]].
      unfold kept_model. apply filter_In. split.
      - rewrite <- (keys_state_dict_fresh cfg w). apply lookup_In. exists l. assumption.
      - unfold kept_hf in Hk. apply filter_In in Hk. apply Hk. }
    split.
    { apply existsb_exists in Htype. destruct Htype as [x [Hx Heq]].
      apply String.eqb_eq in Heq. subst x. assumption. }
    split; [assumption|]. split.
    + intros k. split; [apply Hincl|].
      apply (NoDup_length_incl Hnd_hf); [lia | assumption].
    + intros k src Hk Hsrc.
      destruct (Hall k Hk) as [src' [l [dst [Hsrc' [Hl [Hdst Hok]]]]]].
      rewrite Hsrc in Hsrc'. inversion Hsrc'. subst src'.
      destruct (@fresh_model_binding F _ cfg init w k l Hw Hl) as [b [shp [dst' [Hspec [Hdst' Hshape]]]]].
      rewrite Hdst in Hdst'. inversion Hdst'. subst dst'.
      exists b, shp. split; [assumption|]. rewrite <- Hshape. assumption.
  - intros [cfg [Htype [Hcfg [Hset Hshapes]]]].
    assert (Htype' : existsb (String.eqb model_type) model_types = true).
    { apply existsb_exists. exists model_type. split; [assumption|].
      apply String.eqb_refl. }
    destruct (@GPT_from_pretrained_unfold model_type sd_hf init cfg Htype' Hcfg) as [w [Hw Hunfold]].
    rewrite Hunfold. cbv zeta.
    rewrite (@set_equal_lengths _ _ Hnd_hf (Hnd_model cfg) Hset), Nat.eqb_refl.
    cbn [assert_ bind].
    destruct (@load_loop_Ok F
                (state_dict (mkGPTObject cfg
                   (setitem "transformer.wte.weight" w (fresh_state cfg))))
                sd_hf (map (new_tensor init) (GPT_specs cfg)) (kept_hf sd_hf))
      with (hp := map (new_tensor init) (GPT_specs cfg)) as [hp' [Hloop _]].
    + intros k Hk.
      assert (Hk_hf : In k (keys sd_hf)).
      { unfold kept_hf in Hk. apply filter_In in Hk. destruct Hk as [Hk _].
        apply filter_In in Hk. apply Hk. }
      apply lookup_In in Hk_hf. destruct Hk_hf as [src Hsrc].
      assert (Hk_model : In k (map fst (GPT_specs cfg))).
      { apply Hset in Hk. unfold kept_model in Hk. apply filter_In in Hk. apply Hk. }
      rewrite <- (keys_state_dict_fresh cfg w) in Hk_model.
      apply lookup_In in Hk_model. destruct Hk_model as [l Hl].
      destruct (@fresh_model_binding F _ cfg init w k l Hw Hl) as [b [shp [dst [Hspec [Hdst Hshape]]]]].
      destruct (Hshapes k src Hk Hsrc) as [b' [shp' [Hspec' Hok]]].
      rewrite Hspec in Hspec'. inversion Hspec'. subst b' shp'.
      exists src, l, dst. rewrite Hshape. repeat split; assumption.
    + reflexivity.
    + rewrite Hloop. cbn [bind]. eexists. eexists. reflexivity.
Qed.

End FromPretrainedTheorem.

Lemma GPT_from_pretrained_succeeds_iff_witness :
  let t := mkPTensor [2; 3] (fun _ => 0%R) in
  let sd_hf := [("transformer.wte.weight", t); ("lm_head.weight", t)]%string in
  NoDup (keys sd_hf) /\
  ((exists model hp,
      GPT_from_pretrained "gpt2" sd_hf (fun _ _ => 1%R) = Ok (model, hp))
   <->
   exists cfg,
     In "gpt2"%string model_types /\ config_args "gpt2" = Ok cfg /\
     (forall k, In k (kept_hf sd_hf) <-> In k (kept_model cfg)) /\
     (forall k src, In k (kept_hf sd_hf) -> lookup k sd_hf = Some src ->
        exists b shp, lookup k (GPT_specs cfg) = Some (b, shp) /\
                      shape_ok k (shape src) shp)).
Proof.
  intros t sd_hf.
  assert (Hnd : NoDup (keys sd_hf)).
  { repeat constructor; cbn [In]; intuition discriminate. }
  split; [exact Hnd|].
  exact (@GPT_from_pretrained_succeeds_iff R R_Scalar "gpt2" sd_hf (fun _ _ => 1%R) Hnd).
Defined.

(* ------------------------------------------------------------------ *)
(** * The whole model is causal *)

Section LayersCausal.

Context {F : Type} `{Scalar F}.

Lemma firstn_map2 {A B C : Type} (f : A -> B -> C) (n : nat) :
  forall (a : list A) (b : list B),
  firstn n (map2 f a b) = map2 f (firstn n a) (firstn n b).
Proof.
  induction n as [|n IH]; intros a b; [reflexivity|].
  destruct a as [|x a]; [reflexivity|].
  destruct b as [|y b]; [reflexivity|].
  cbn [map2 firstn]. rewrite IH. reflexivity.
Qed.

Lemma agree_upto_map {A B : Type} (f : A -> B) (i : nat) (m m' : list A) :
  agree_upto i m m' -> agree_upto i (map f m) (map f m').
Proof.
  unfold agree_upto. intros Hm. rewrite !firstn_map, Hm. reflexivity.
Qed.

Lemma agree_upto_map2 {A B C : Type} (f : A -> B -> C) (i : nat)
  (a a' : list A) (b b' : list B) :
  agree_upto i a a' -> agree_upto i b b' ->
  agree_upto i (map2 f a b) (map2 f a' b').
Proof.
  unfold agree_upto. intros Ha Hb. rewrite !firstn_map2, Ha, Hb. reflexivity.
Qed.

Lemma Forall2_map_same {A B : Type} (R : A -> A -> Prop) (R' : B -> B -> Prop)
  (f : A -> B) (l l' : list A) :
  (forall a a', R a a' -> R' (f a) (f a')) ->
  Forall2 R l l' -> Forall2 R' (map f l) (map f l').
Proof.
  intros Hf. induction 1; cbn [map]; constructor; auto.
Qed.

Lemma Forall2_map2_same {A B C : Type} (R : A -> A -> Prop) (Q : B -> B -> Prop)
  (R' : C -> C -> Prop) (f : A -> B -> C) (a a' : list A) :
  (forall x x' y y', R x x' -> Q y y' -> R' (f x y) (f x' y')) ->
  Forall2 R a a' ->
  forall b b', Forall2 Q b b' -> Forall2 R' (map2 f a b) (map2 f a' b').
Proof.
  intros Hf. induction 1 as [|x x' a a' Hx Ha IH]; intros b b' Hb.
  - constructor.
  - destruct Hb as [|y y' b b' Hy Hb]; cbn [map2]; constructor; auto.
Qed.

Lemma agree_shaped_map_last (f : list F -> list F) (B T C C' i : nat)
  (x x' : Tensor3 F) :
  (forall v, length v = C -> length (f v) = C') ->
  agree_shaped B T C i x x' ->
  agree_shaped B T C' i (map_last f C' x) (map_last f C' x').
Proof.
  intros Hf [Hx [Hx' Hagree]]. split; [|split].
  - apply shaped_map_last with (C := C); assumption.
  - apply shaped_map_last with (C := C); assumption.
  - unfold map_last. rewrite (proj1 Hx), (proj1 Hx'). cbn [t3_data].
    revert Hagree. apply Forall2_map_same. intros m m'. apply agree_upto_map.
Qed.

Lemma Linear_forward_agree (fin fout : nat) (wb : bool) (l : Linear F)
  (B T i : nat) (x x' : Tensor3 F) :
  wf_Linear fin fout wb l -> agree_shaped B T fin i x x' ->
  exists y y', Linear_forward l x = Ok y /\ Linear_forward l x' = Ok y' /\
               agree_shaped B T fout i y y'.
Proof.
  intros Hl Hxx. pose proof Hl as [Hin [Hout [[Hw _] Hb]]].
  pose proof Hxx as [Hx [Hx' _]].
  unfold Linear_forward. rewrite (proj1 Hx), (proj1 Hx'), Hin, Nat.eqb_refl.
  cbn [torch_check bind].
  eexists. eexists. split; [reflexivity|]. split; [reflexivity|].
  rewrite Hout. apply agree_shaped_map_last with (C := fin); [|assumption].
  intros v _. apply length_F_linear; [assumption|].
  destruct (l_bias l); [apply Hb | exact I].
Qed.

Lemma LayerNorm_forward_agree (C : nat) (l : LayerNorm F) (B T i : nat)
  (x x' : Tensor3 F) :
  wf_LayerNorm C l -> agree_shaped B T C i x x' ->
  exists y y', LayerNorm_forward l x = Ok y /\ LayerNorm_forward l x' = Ok y' /\
               agree_shaped B T C i y y'.
Proof.
  intros [Hn [Hw Hb]] Hxx. pose proof Hxx as [Hx [Hx' _]].
  unfold LayerNorm_forward. rewrite (proj1 Hx), (proj1 Hx'), Hn, Nat.eqb_refl.
  cbn [torch_check bind].
  eexists. eexists. split; [reflexivity|]. split; [reflexivity|].
  apply agree_shaped_map_last with (C := C); [|assumption].
  intros v Hv. apply length_F_layer_norm; assumption.
Qed.

Lemma NewGELU_forward_agree (B T C i : nat) (x x' : Tensor3 F) :
  agree_shaped B T C i x x' ->
  agree_shaped B T C i (NewGELU_forward x) (NewGELU_forward x').
Proof.
  intros Hxx. pose proof Hxx as [Hx [Hx' _]].
  unfold NewGELU_forward. rewrite (proj1 Hx), (proj1 Hx').
  apply agree_shaped_map_last with (C := C); [|assumption].
  intros v Hv. rewrite length_map. assumption.
Qed.

Lemma MLP_forward_agree (cfg : GPTConfig) (m : MLP F) (B T i : nat)
  (x x' : Tensor3 F) :
  wf_MLP cfg m -> agree_shaped B T (n_embd cfg) i x x' ->
  exists y y', MLP_forward m x = Ok y /\ MLP_forward m x' = Ok y' /\
               agree_shaped B T (n_embd cfg) i y y'.
Proof.
  intros [Hfc Hproj] Hxx. unfold MLP_forward.
  destruct (Linear_forward_agree Hfc Hxx) as [y [y' [Hy [Hy' Hyy]]]].
  rewrite Hy, Hy'. cbn [bind].
  apply (Linear_forward_agree Hproj). apply NewGELU_forward_agree. assumption.
Qed.

Lemma add3_agree (B T C i : nat) (x x' y y' : Tensor3 F) :
  agree_shaped B T C i x x' -> agree_shaped B T C i y y' ->
  exists z z', add3 x y = Ok z /\ add3 x' y' = Ok z' /\ agree_shaped B T C i z z'.
Proof.
  intros [Hx [Hx' Hxx]] [Hy [Hy' Hyy]].
  destruct (add3_shaped Hx Hy) as [z [Hz Hzs]].
  destruct (add3_shaped Hx' Hy') as [z' [Hz' Hzs']].
  exists z, z'. split; [assumption|]. split; [assumption|].
  split; [assumption|]. split; [assumption|].
  unfold add3 in Hz, Hz'.
  rewrite (proj1 Hx), (proj1 Hy), !Nat.eqb_refl in Hz.
  rewrite (proj1 Hx'), (proj1 Hy'), !Nat.eqb_refl in Hz'.
  cbn [andb torch_check bind] in Hz, Hz'.
  inversion Hz. inversion Hz'. cbn [t3_data].
  apply Forall2_map2_same with (R := agree_upto i) (Q := agree_upto i);
    [|assumption|assumption].
  intros a a' b b'. apply agree_upto_map2.
Qed.

End LayersCausal.

Section ModelCausal.

Context {F : Type} `{Scalar F}.

Hypothesis fmul_zero_l : forall x : F, fmul fzero x = fzero.
Hypothesis fdiv_zero_l : forall s : F, fdiv fzero s = fzero.

Lemma CausalSelfAttention_forward_agree (cfg : GPTConfig)
  (a : CausalSelfAttention F) (B T i : nat) (x x' : Tensor3 F) :
  wf_CausalSelfAttention cfg a -> heads_divide cfg -> 1 <= n_embd cfg ->
  T <= block_size cfg -> agree_shaped B T (n_embd cfg) i x x' ->
  exists y y',
    CausalSelfAttention_forward a x = Ok y /\
    CausalSelfAttention_forward a x' = Ok y' /\
    agree_shaped B T (n_embd cfg) i y y'.
Proof.
  intros Hwf Hdiv HC HT [Hx [Hx' Hagree]].
  destruct (CausalSelfAttention_forward_shaped Hwf Hdiv HC HT Hx) as [y [Hy Hys]].
  destruct (CausalSelfAttention_forward_shaped Hwf Hdiv HC HT Hx') as [y' [Hy' Hys']].
  exists y, y'. split; [assumption|]. split; [assumption|].
  split; [assumption|]. split; [assumption|].
  rewrite (CausalSelfAttention_forward_eq Hwf Hdiv HC HT Hx) in Hy.
  rewrite (CausalSelfAttention_forward_eq Hwf Hdiv HC HT Hx') in Hy'.
  inversion Hy. inversion Hy'. cbn [t3_data].
  apply shaped_inv in Hx, Hx'.
  destruct Hx as [_ [_ HFx]], Hx' as [_ [_ HFx']].
  destruct Hwf as [_ [_ [_ [_ Hbias]]]].
  apply Forall2_map_both
    with (P := wf_matrix T (n_embd cfg)) (R := agree_upto i);
    try assumption.
  intros xb xb' [Hlen _] [Hlen' _] Hab. unfold agree_upto in *.
  apply (@attention_batch_agree F _ fmul_zero_l fdiv_zero_l cfg); assumption.
Qed.

Lemma Block_forward_agree (cfg : GPTConfig) (b : Block F) (B T i : nat)
  (x x' : Tensor3 F) :
  wf_Block cfg b -> heads_divide cfg -> 1 <= n_embd cfg ->
  T <= block_size cfg -> agree_shaped B T (n_embd cfg) i x x' ->
  exists y y', Block_forward b x = Ok y /\ Block_forward b x' = Ok y' /\
               agree_shaped B T (n_embd cfg) i y y'.
Proof.
  intros [Hln1 [Hattn [Hln2 Hmlp]]] Hdiv HC HT Hxx. unfold Block_forward.
  destruct (LayerNorm_forward_agree Hln1 Hxx) as [n1 [n1' [Hn1 [Hn1' Hnn1]]]].
  rewrite Hn1, Hn1'. cbn [bind].
  destruct (CausalSelfAttention_forward_agree Hattn Hdiv HC HT Hnn1)
    as [a [a' [Ha [Ha' Haa]]]].
  rewrite Ha, Ha'. cbn [bind].
  destruct (add3_agree Hxx Haa) as [x1 [x1' [Hx1 [Hx1' Hxx1]]]].
  rewrite Hx1, Hx1'. cbn [bind].
  destruct (LayerNorm_forward_agree Hln2 Hxx1) as [n2 [n2' [Hn2 [Hn2' Hnn2]]]].
  rewrite Hn2, Hn2'. cbn [bind].
  destruct (MLP_forward_agree Hmlp Hnn2) as [m [m' [Hm [Hm' Hmm]]]].
  rewrite Hm, Hm'. cbn [bind].
  apply add3_agree; assumption.
Qed.

Lemma blocks_forward_agree (cfg : GPTConfig) (B T i : nat) (blocks : list (Block F)) :
  heads_divide cfg -> 1 <= n_embd cfg -> T <= block_size cfg ->
  Forall (wf_Block cfg) blocks ->
  forall x x', agree_shaped B T (n_embd cfg) i x x' ->
  exists y y',
    foldM (fun x block => Block_forward block x) blocks x = Ok y /\
    foldM (fun x block => Block_forward block x) blocks x' = Ok y' /\
    agree_shaped B T (n_embd cfg) i y y'.
Proof.
  intros Hdiv HC HT. induction 1 as [|b blocks Hb _ IH]; intros x x' Hxx.
  - exists x, x'. repeat split; try reflexivity; apply Hxx.
  - cbn [foldM].
    destruct (Block_forward_agree Hb Hdiv HC HT Hxx) as [y [y' [Hy [Hy' Hyy]]]].
    rewrite Hy, Hy'. cbn [bind]. apply IH. assumption.
Qed.

End ModelCausal.

Section ForwardCausal.

Context {F : Type} `{Scalar F}.

Hypothesis fmul_zero_l : forall x : F, fmul fzero x = fzero.
Hypothesis fdiv_zero_l : forall s : F, fdiv fzero s = fzero.

Lemma mapM_firstn {A B : Type} (f : A -> result B) (n : nat) :
  forall (l : list A) (r : list B),
  mapM f l = Ok r -> mapM f (firstn n l) = Ok (firstn n r).
Proof.
  induction n as [|n IH]; intros l r Hl; [reflexivity|].
  destruct l as [|a l]; cbn [mapM] in Hl.
  - inversion Hl. reflexivity.
  - cbn [firstn mapM]. destruct (f a) as [b|]; [|discriminate].
    cbn [bind] in *. destruct (mapM f l) as [bs|] eqn:Hbs; [|discriminate].
    cbn [bind] in Hl. inversion Hl. subst r.
    rewrite (IH l bs Hbs). reflexivity.
Qed.

Lemma mapM_agree {A B : Type} (f : A -> result B) (i : nat) (l l' : list A)
  (r r' : list B) :
  agree_upto i l l' -> mapM f l = Ok r -> mapM f l' = Ok r' -> agree_upto i r r'.
Proof.
  unfold agree_upto. intros Hll Hr Hr'.
  apply (mapM_firstn f (S i)) in Hr, Hr'. rewrite Hll in Hr. congruence.
Qed.

Lemma mapM_rows_agree {A B : Type} (R : A -> A -> Prop) (R' : B -> B -> Prop)
  (g : A -> result B) :
  (forall a a' b b', R a a' -> g a = Ok b -> g a' = Ok b' -> R' b b') ->
  forall (l l' : list A), Forall2 R l l' ->
  forall d d', mapM g l = Ok d -> mapM g l' = Ok d' -> Forall2 R' d d'.
Proof.
  intros Hg. induction 1 as [|a a' l l' Ha Hl IH]; intros d d' Hd Hd';
    cbn [mapM] in Hd, Hd'.
  - inversion Hd. inversion Hd'. constructor.
  - destruct (g a) as [b|] eqn:Hb; [|discriminate].
    destruct (g a') as [b'|] eqn:Hb'; [|discriminate].
    cbn [bind] in Hd, Hd'.
    destruct (mapM g l) as [bs|]; [|discriminate].
    destruct (mapM g l') as [bs'|]; [|discriminate].
    cbn [bind] in Hd, Hd'. inversion Hd. inversion Hd'.
    constructor; [eapply Hg; eassumption | apply IH; reflexivity].
Qed.

Lemma Embedding_forward_agree (V C B T i : nat) (e : Embedding F)
  (idx idx' : LongTensor) :
  wf_Embedding V C e ->
  lt_size idx = (B, T) -> wf_LongTensor idx -> tokens_in_range V idx ->
  lt_size idx' = (B, T) -> wf_LongTensor idx' -> tokens_in_range V idx' ->
  Forall2 (agree_upto i) (lt_data idx) (lt_data idx') ->
  exists x x', Embedding_forward e idx = Ok x /\ Embedding_forward e idx' = Ok x' /\
               agree_shaped B T C i x x'.
Proof.
  intros He Hs Hwf Htok Hs' Hwf' Htok' Hagree.
  destruct (Embedding_forward_shaped He Hs Hwf Htok) as [x [Hx Hxs]].
  destruct (Embedding_forward_shaped He Hs' Hwf' Htok') as [x' [Hx' Hxs']].
  exists x, x'. split; [assumption|]. split; [assumption|].
  split; [assumption|]. split; [assumption|].
  unfold Embedding_forward in Hx, Hx'. rewrite Hs in Hx. rewrite Hs' in Hx'.
  destruct (mapM _ (lt_data idx)) as [d|] eqn:Hd; [|discriminate].
  destruct (mapM _ (lt_data idx')) as [d'|] eqn:Hd'; [|discriminate].
  cbn [bind] in Hx, Hx'. inversion Hx. inversion Hx'. cbn [t3_data].
  apply (@mapM_rows_agree _ _ (agree_upto i) (agree_upto i)
           (mapM (embedding_lookup e))) with (l := lt_data idx) (l' := lt_data idx');
    try assumption.
  intros a a' b b'. apply mapM_agree.
Qed.

Lemma add_pos_agree (B T C i : nat) (tok tok' : Tensor3 F) (pos_emb : list (list F)) :
  agree_shaped B T C i tok tok' -> wf_matrix T C pos_emb ->
  exists x x', add_pos tok C pos_emb = Ok x /\ add_pos tok' C pos_emb = Ok x' /\
               agree_shaped B T C i x x'.
Proof.
  intros [Hx [Hx' Hagree]] Hpos.
  destruct (add_pos_shaped Hx Hpos) as [y [Hy Hys]].
  destruct (add_pos_shaped Hx' Hpos) as [y' [Hy' Hys']].
  exists y, y'. split; [assumption|]. split; [assumption|].
  split; [assumption|]. split; [assumption|].
  unfold add_pos in Hy, Hy'.
  rewrite (proj1 Hx), Nat.eqb_refl in Hy. rewrite (proj1 Hx'), Nat.eqb_refl in Hy'.
  cbn [torch_check bind] in Hy, Hy'. inversion Hy. inversion Hy'. cbn [t3_data].
  revert Hagree. apply Forall2_map_same. intros m m' Hm.
  apply agree_upto_map2; [assumption | reflexivity].
Qed.

(** The layers up to the final normalisation, on two batches of tokens that
    agree at the positions 0..i. *)
Lemma GPT_forward_trunk_agree (self : GPT F) (idx idx' : LongTensor) (B T i : nat) :
  wf_GPT self -> heads_divide (config self) -> 1 <= n_embd (config self) ->
  T <= block_size (config self) ->
  lt_size idx = (B, T) -> wf_LongTensor idx ->
  tokens_in_range (vocab_size (config self)) idx ->
  lt_size idx' = (B, T) -> wf_LongTensor idx' ->
  tokens_in_range (vocab_size (config self)) idx' ->
  Forall2 (agree_upto i) (lt_data idx) (lt_data idx') ->
  exists x x', agree_shaped B T (n_embd (config self)) i x x' /\
    forall targets targets',
      GPT_forward self idx (Some targets) =
        (logits <- Linear_forward (lm_head self) x ;;
         '(N, C, rows) <- view_rows logits ;;
         loss <- F_cross_entropy N C rows (concat (lt_data targets)) (-1) ;;
         Ok (logits, Some loss)) /\
      GPT_forward self idx' (Some targets') =
        (logits <- Linear_forward (lm_head self) x' ;;
         '(N, C, rows) <- view_rows logits ;;
         loss <- F_cross_entropy N C rows (concat (lt_data targets')) (-1) ;;
         Ok (logits, Some loss)).
Proof.
  intros [Hwte [Hwpe [Hlen [Hblocks [Hlnf Hhead]]]]] Hdiv HC HT
         Hs Hwf Htok Hs' Hwf' Htok' Hagree.
  destruct (Embedding_forward_agree Hwte Hs Hwf Htok Hs' Hwf' Htok' Hagree)
    as [tok [tok' [Htk [Htk' Htt]]]].
  destruct (position_embedding_Ok Hwpe HT) as [pos [Hpos Hposs]].
  destruct (add_pos_agree Htt Hposs) as [x0 [x0' [Hx0 [Hx0' Hxx0]]]].
  destruct (@blocks_forward_agree F _ fmul_zero_l fdiv_zero_l (config self) B T i
              (h self) Hdiv HC HT Hblocks x0 x0' Hxx0)
    as [x1 [x1' [Hx1 [Hx1' Hxx1]]]].
  destruct (LayerNorm_forward_agree Hlnf Hxx1) as [x2 [x2' [Hx2 [Hx2' Hxx2]]]].
  exists x2, x2'. split; [assumption|]. intros targets targets'.
  unfold GPT_forward. rewrite Hs, Hs'.
  apply Nat.leb_le in HT. rewrite HT. cbn [assert_ bind].
  rewrite Htk, Htk'. cbn [bind]. rewrite Hpos. cbn [bind].
  rewrite (proj1 (proj2 Hwpe)), Hx0, Hx0'. cbn [bind].
  rewrite Hx1, Hx1'. cbn [bind]. rewrite Hx2, Hx2'. cbn [bind].
  split; reflexivity.
Qed.

(** The loss of a batch of logits of the right size is computed. *)
Lemma loss_Ok (B T V : nat) (logits : Tensor3 F) (targets : LongTensor) :
  1 <= V -> shaped B T V logits ->
  lt_size targets = (B, T) -> wf_LongTensor targets -> targets_in_range V targets ->
  exists loss,
    ('(N, C, rows) <- view_rows logits ;;
     loss <- F_cross_entropy N C rows (concat (lt_data targets)) (-1) ;;
     Ok (logits, Some loss)) = Ok (logits, Some loss).
Proof.
  intros HV Hls Hst Htg Hrange.
  unfold view_rows. rewrite (proj1 Hls).
  assert (HV0 : (V =? 0) = false) by (apply Nat.eqb_neq; lia).
  rewrite HV0. cbn [negb torch_check bind].
  unfold wf_LongTensor in Htg. rewrite Hst in Htg. cbn [fst snd] in Htg.
  destruct (@F_cross_entropy_Ok F _ (B * T) V
              (concat (t3_data logits)) (concat (lt_data targets)))
    as [loss Hloss].
  - apply (length_concat_matrix Htg).
  - unfold targets_in_range in Hrange. apply Forall_concat. exact Hrange.
  - rewrite Hloss. cbn [bind]. exists loss. reflexivity.
Qed.

(** The model is autoregressive.  Take a model built by its constructor and
    two batches of tokens of size (B, T), [T <= block_size], that are the
    same at the positions 0..i of every sequence.  Then [forward] with
    targets returns on both, and the two batches of logits are the same at
    the positions 0..i: no token after position [i] reaches the logits at
    [i], whatever the targets are.  The scalars are assumed to satisfy
    [0 * x = 0] and [0 / s = 0]. *)
Theorem GPT_forward_causal (self : GPT F) (idx idx' targets targets' : LongTensor)
  (B T i : nat) :
  wf_GPT self -> heads_divide (config self) ->
  1 <= n_embd (config self) -> 1 <= vocab_size (config self) ->
  T <= block_size (config self) ->
  lt_size idx = (B, T) -> wf_LongTensor idx ->
  tokens_in_range (vocab_size (config self)) idx ->
  lt_size idx' = (B, T) -> wf_LongTensor idx' ->
  tokens_in_range (vocab_size (config self)) idx' ->
  lt_size targets = (B, T) -> wf_LongTensor targets ->
  targets_in_range (vocab_size (config self)) targets ->
  lt_size targets' = (B, T) -> wf_LongTensor targets' ->
  targets_in_range (vocab_size (config self)) targets' ->
  Forall2 (agree_upto i) (lt_data idx) (lt_data idx') ->
  exists logits loss logits' loss',
    GPT_forward self idx (Some targets) = Ok (logits, Some loss) /\
    GPT_forward self idx' (Some targets') = Ok (logits', Some loss') /\
    Forall2 (agree_upto i) (t3_data logits) (t3_data logits').
Proof.
  intros Hwf Hdiv HC HV HT Hs Hidx Htok Hs' Hidx' Htok'
         Hst Htg Hrange Hst' Htg' Hrange' Hagree.
  destruct (GPT_forward_trunk_agree Hwf Hdiv HC HT Hs Hidx Htok Hs' Hidx' Htok' Hagree)
    as [x [x' [Hxx Hfwd]]].
  destruct (Hfwd targets targets') as [Hrun Hrun']. rewrite Hrun, Hrun'.
  destruct Hwf as [_ [_ [_ [_ [_ Hhead]]]]].
  destruct (Linear_forward_agree Hhead Hxx) as [logits [logits' [Hl [Hl' Hll]]]].
  rewrite Hl, Hl'. cbn [bind].
  destruct Hll as [Hls [Hls' Hlagree]].
  destruct (loss_Ok HV Hls Hst Htg Hrange) as [loss Hloss].
  destruct (loss_Ok HV Hls' Hst' Htg' Hrange') as [loss' Hloss'].
  exists logits, loss, logits', loss'.
  split; [exact Hloss|]. split; [exact Hloss'|]. assumption.
Qed.

End ForwardCausal.

Lemma wf_idx_2_late : wf_LongTensor idx_2_late /\ tokens_in_range 3 idx_2_late.
Proof.
  split.
  - split; [reflexivity | repeat constructor].
  - repeat constructor; cbn; lia.
Qed.

Lemma GPT_forward_causal_witness :
  exists logits loss logits' loss',
    GPT_forward (tiny_GPT (F := R)) idx_2 (Some targets_2) = Ok (logits, Some loss) /\
    GPT_forward (tiny_GPT (F := R)) idx_2_late (Some targets_2) = Ok (logits', Some loss') /\
    Forall2 (agree_upto 0) (t3_data logits) (t3_data logits').
Proof.
  apply (@GPT_forward_causal R R_Scalar R_fmul_zero_l R_fdiv_zero_l
           tiny_GPT idx_2 idx_2_late targets_2 targets_2 1 2 0
           wf_tiny_GPT heads_divide_tiny).
  - cbn. lia.
  - cbn. lia.
  - cbn. lia.
  - reflexivity.
  - exact (proj1 wf_idx_2).
  - exact (proj2 wf_idx_2).
  - reflexivity.
  - exact (proj1 wf_idx_2_late).
  - exact (proj2 wf_idx_2_late).
  - reflexivity.
  - exact (proj1 wf_targets_2).
  - exact (proj2 wf_targets_2).
  - reflexivity.
  - exact (proj1 wf_targets_2).
  - exact (proj2 wf_targets_2).
  - constructor; [reflexivity | constructor].
Defined.

Section InferenceLogits.

Context {F : Type} `{Scalar F}.

Lemma select_last_map_last (f : list F -> list F) (B T C C' : nat) (x sel : Tensor3 F) :
  1 <= T -> shaped B T C x -> select_last x = Ok sel ->
  select_last (map_last f C' x) = Ok (map_last f C' sel).
Proof.
  intros HT Hx Hsel. apply shaped_inv in Hx. destruct Hx as [Hs [_ HF]].
  assert (Hmap : map_last f C' x = mkTensor3 (B, T, C') (map (map f) (t3_data x))).
  { unfold map_last. rewrite Hs. reflexivity. }
  rewrite Hmap. unfold select_last in *. rewrite Hs in Hsel. cbn [t3_size t3_data].
  destruct (Nat.eqb_spec T 0) as [->|_]; [lia|].
  inversion Hsel. unfold map_last. cbn [t3_size t3_data].
  f_equal. f_equal. rewrite !map_map.
  apply map_ext_in. intros xb Hxb. cbn [map].
  rewrite Forall_forall in HF. destruct (HF xb Hxb) as [Hlen _].
  f_equal. rewrite nth_indep with (d' := f []) by (rewrite length_map; lia).
  apply map_nth.
Qed.

(** Without targets, [GPT.forward] returns the logits of the last position
    only, and they are the ones the call with targets computes there: the
    output projection of the last position alone is the last position of
    the output projection of the whole sequence. *)
Theorem GPT_forward_inference_is_last_step (self : GPT F)
  (idx targets : LongTensor) (B T : nat) :
  wf_GPT self -> heads_divide (config self) ->
  1 <= n_embd (config self) -> 1 <= vocab_size (config self) ->
  1 <= T -> T <= block_size (config self) ->
  lt_size idx = (B, T) -> wf_LongTensor idx ->
  tokens_in_range (vocab_size (config self)) idx ->
  lt_size targets = (B, T) -> wf_LongTensor targets ->
  targets_in_range (vocab_size (config self)) targets ->
  exists logits loss last,
    GPT_forward self idx (Some targets) = Ok (logits, Some loss) /\
    GPT_forward self idx None = Ok (last, None) /\
    select_last logits = Ok last.
Proof.
  intros Hwf Hdiv HC HV HT1 HT Hs Hidx Htok Hst Htg Hrange.
  destruct (GPT_forward_trunk Hwf Hdiv HC Hs Hidx Htok HT) as [x [Hx Hfwd]].
  rewrite (Hfwd (Some targets)), (Hfwd None).
  destruct Hwf as [_ [_ [_ [_ [_ Hhead]]]]].
  destruct (Linear_forward_shaped Hhead Hx) as [logits [Hlogits Hls]].
  destruct (loss_Ok HV Hls Hst Htg Hrange) as [loss Hloss].
  destruct (select_last_shaped HT1 Hx) as [sel [Hsel Hsels]].
  rewrite Hlogits, Hsel. cbn [bind]. rewrite Hloss.
  exists logits, loss.
  unfold Linear_forward in *. rewrite (proj1 Hx) in Hlogits.
  rewrite (proj1 Hsels).
  destruct Hhead as [Hin _]. rewrite Hin, Nat.eqb_refl in *.
  cbn [torch_check bind] in *. inversion Hlogits.
  eexists. split; [reflexivity|]. split; [reflexivity|].
  apply (select_last_map_last _ _ HT1 Hx Hsel).
Qed.

End InferenceLogits.

Lemma GPT_forward_inference_is_last_step_witness :
  exists logits loss last,
    GPT_forward (tiny_GPT (F := R)) idx_2 (Some targets_2) = Ok (logits, Some loss) /\
    GPT_forward (tiny_GPT (F := R)) idx_2 None = Ok (last, None) /\
    select_last logits = Ok last.
Proof.
  apply (@GPT_forward_inference_is_last_step R R_Scalar tiny_GPT idx_2 targets_2 1 2
           wf_tiny_GPT heads_divide_tiny).
  - cbn. lia.
  - cbn. lia.
  - lia.
  - cbn. lia.
  - reflexivity.
  - exact (proj1 wf_idx_2).
  - exact (proj2 wf_idx_2).
  - reflexivity.
  - exact (proj1 wf_targets_2).
  - exact (proj2 wf_targets_2).
Defined.

(* ------------------------------------------------------------------ *)
(** * NewGELU over the reals *)

#[local] Open Scope R_scope.

(** [1 + tanh u] as a quotient of exponentials. *)
Lemma one_plus_tanh (u : R) : 1 + tanh u = 2 / (1 + exp (- (2 * u))).
Proof.
  unfold tanh, sinh, cosh.
  replace (- (2 * u)) with (- u + - u) by lra.
  rewrite exp_plus, exp_Ropp.
  pose proof (exp_pos u) as Hu. field. split; [lra|].
  assert (0 < exp u * exp u) by (apply Rmult_lt_0_compat; assumption).
  lra.
Qed.

Lemma one_plus_tanh_bounds (u : R) : 0 < 1 + tanh u < 2.
Proof.
  rewrite one_plus_tanh. pose proof (exp_pos (- (2 * u))) as He.
  split.
  - apply Rdiv_lt_0_compat; lra.
  - apply Rmult_lt_reg_r with (r := 1 + exp (- (2 * u))); [lra|].
    unfold Rdiv. rewrite Rmult_assoc, Rinv_l by lra. lra.
Qed.

Lemma one_plus_tanh_increasing (u v : R) : u < v -> 1 + tanh u < 1 + tanh v.
Proof.
  intros Huv. rewrite !one_plus_tanh.
  assert (He : exp (- (2 * v)) < exp (- (2 * u))) by (apply exp_increasing; lra).
  pose proof (exp_pos (- (2 * v))) as Hv.
  unfold Rdiv. apply Rmult_lt_compat_l; [lra|].
  apply Rinv_lt_contravar; [|lra].
  apply Rmult_lt_0_compat; lra.
Qed.

Lemma sqrt_2_PI_bounds : 7 / 10 < sqrt (2 / PI) < 1.
Proof.
  pose proof PI_4 as H4. pose proof PI2_3_2 as H3.
  assert (HPI : 3 < PI) by lra.
  split.
  - replace (7 / 10) with (sqrt (49 / 100)).
    + apply sqrt_lt_1_alt. split; [lra|].
      apply Rmult_lt_reg_r with (r := PI); [lra|].
      unfold Rdiv at 2. rewrite Rmult_assoc, Rinv_l by lra. lra.
    + replace (49 / 100) with ((7 / 10) * (7 / 10)) by lra.
      apply sqrt_square. lra.
  - apply Rlt_le_trans with (r2 := sqrt 1); [|rewrite sqrt_1; lra].
    apply sqrt_lt_1_alt. split.
    + apply Rlt_le. apply Rdiv_lt_0_compat; lra.
    + apply Rmult_lt_reg_r with (r := PI); [lra|].
      unfold Rdiv. rewrite Rmult_assoc, Rinv_l by lra. lra.
Qed.

(** [NewGELU] on a real number, with the operations of the reals. *)
Lemma gelu_R (x : R) :
  gelu x =
  1 / 2 * x * (1 + tanh (sqrt (2 / PI) * (x + 44715 / 1000000 * (x * x * x)))).
Proof.
  unfold gelu. cbn [of_Q fpi fadd fmul fdiv ftanh fsqrt fpow R_Scalar].
  assert (H05 : Q2R 0.5 = 1 / 2) by (unfold Q2R; cbn [Qnum Qden]; lra).
  assert (H1 : Q2R 1.0 = 1) by (unfold Q2R; cbn [Qnum Qden]; lra).
  assert (H2 : Q2R 2.0 = 2) by (unfold Q2R; cbn [Qnum Qden]; lra).
  assert (Hc : Q2R 0.044715 = 44715 / 1000000)
    by (unfold Q2R; cbn [Qnum Qden]; lra).
  assert (Hp : R_pow x 3.0 = x * x * x).
  { unfold R_pow. change (Qred 3.0) with (3 # 1)%Q. cbn [Qden Qnum].
    unfold powerRZ. change (Pos.to_nat 3) with 3%nat. cbn [pow]. ring. }
  rewrite H05, H1, H2, Hc, Hp. reflexivity.
Qed.

(** The argument of [tanh] in [NewGELU] grows with the input. *)
Lemma gelu_inner_increasing (x y : R) :
  x < y ->
  sqrt (2 / PI) * (x + 44715 / 1000000 * (x * x * x)) <
  sqrt (2 / PI) * (y + 44715 / 1000000 * (y * y * y)).
Proof.
  intros Hxy. pose proof sqrt_2_PI_bounds as [Hc _].
  apply Rmult_lt_compat_l; [lra|].
  assert (Hq : 0 < x * x + x * y + y * y).
  { pose proof (Rle_0_sqr (x + y / 2)) as Hsq. unfold Rsqr in Hsq.
    destruct (Req_dec y 0) as [Hy|Hy].
    - subst y. nra.
    - assert (Hyy : 0 < y * y) by (apply Rsqr_pos_lt; assumption). lra. }
  assert (Hcube : 0 < (y - x) * (x * x + x * y + y * y))
    by (apply Rmult_lt_0_compat; lra).
  lra.
Qed.

(** [NewGELU] scales its input by a factor strictly between 0 and 1: the
    output has the sign of the input and is no larger in absolute value.  In
    particular it maps 0 to 0. *)
Theorem gelu_between_zero_and_input (x : R) :
  (0 <= x -> 0 <= gelu x <= x) /\ (x <= 0 -> x <= gelu x <= 0) /\
  gelu 0 = 0.
Proof.
  rewrite !gelu_R.
  pose proof (one_plus_tanh_bounds
                (sqrt (2 / PI) * (x + 44715 / 1000000 * (x * x * x)))) as [Hlo Hhi].
  split; [|split].
  - intros Hx. split; nra.
  - intros Hx. split; nra.
  - lra.
Qed.

(** [NewGELU] is strictly increasing on the non-negative reals. *)
Theorem gelu_increasing_on_nonneg (x y : R) :
  0 <= x -> x < y -> gelu x < gelu y.
Proof.
  intros Hx Hxy. rewrite !gelu_R.
  pose proof (one_plus_tanh_increasing (gelu_inner_increasing Hxy)) as Hinc.
  pose proof (one_plus_tanh_bounds
                (sqrt (2 / PI) * (x + 44715 / 1000000 * (x * x * x)))) as [Hlo _].
  nra.
Qed.

(** [NewGELU] is not increasing on the whole real line: it is smaller at
    [-1] than at [-5]. *)
Theorem gelu_not_monotone :
  exists x y : R, x < y /\ gelu y < gelu x.
Proof.
  exists (-5), (-1). split; [lra|]. rewrite !gelu_R.
  pose proof sqrt_2_PI_bounds as [Hclo Hchi].
  set (c := sqrt (2 / PI)) in *.
  rewrite !one_plus_tanh.
  set (a := - (2 * (c * (-1 + 44715 / 1000000 * (-1 * -1 * -1))))).
  set (b := - (2 * (c * (-5 + 44715 / 1000000 * (-5 * -5 * -5))))).
  assert (Ha : a < 3) by (unfold a; lra).
  assert (Hb : 14 < b) by (unfold b; lra).
  assert (He2 : 2 < exp 1) by (pose proof (exp_ineq1 1); lra).
  assert (He3 : exp 1 <= 3) by apply exp_le_3.
  assert (Hea : exp a < 27).
  { apply Rlt_le_trans with (r2 := exp 3); [apply exp_increasing; assumption|].
    replace 3 with (1 + 1 + 1) at 1 by lra. rewrite !exp_plus.
    pose proof (exp_pos 1). nra. }
  assert (Heb : 16384 < exp b).
  { apply Rlt_trans with (r2 := exp 14); [|apply exp_increasing; assumption].
    replace 14 with (7 + 7) by lra.
    replace 7 with (1 + 1 + 1 + 1 + 1 + 1 + 1) by lra.
    rewrite !exp_plus.
    assert (H2 : 4 < exp 1 * exp 1) by nra.
    assert (H4 : 16 < exp 1 * exp 1 * exp 1 * exp 1) by nra.
    assert (H7 : 128 < exp 1 * exp 1 * exp 1 * exp 1 * exp 1 * exp 1 * exp 1) by nra.
    nra. }
  pose proof (exp_pos a) as Hpa.
  assert (Hgoal : 5 * (1 + exp a) < 1 + exp b) by lra.
  apply Rmult_lt_reg_r with (r := (1 + exp a) * (1 + exp b)); [nra|].
  field_simplify; lra.
Qed.

Lemma gelu_between_zero_and_input_witness : 0 <= gelu 2 <= 2.
Proof. apply (proj1 (gelu_between_zero_and_input 2)). lra. Defined.

Lemma gelu_increasing_on_nonneg_witness : gelu 1 < gelu 2.
Proof. apply (@gelu_increasing_on_nonneg 1 2); lra. Defined.

#[local] Close Scope R_scope.

(* ------------------------------------------------------------------ *)
(** * The parameter checkpoint of a constructed model *)

Section NamedParameters.

Context {F : Type} `{Scalar F}.

Lemma In_setitem {V : Type} (k : string) (v : V) (k1 : string) (v1 : V)
  (d : list (string * V)) :
  In (k1, v1) (setitem k v d) -> (k1 = k /\ v1 = v) \/ In (k1, v1) d.
Proof.
  induction d as [|[k' v'] d IH]; cbn [setitem]; [intros []|].
  destruct (String.eqb_spec k k') as [<-|Hne].
  - intros [Heq|Hin]; [left; inversion Heq; split; reflexivity | right; right; assumption].
  - intros [Heq|Hin]; [right; left; assumption|].
    destruct (IH Hin) as [Hk|Hd]; [left; assumption | right; right; assumption].
Qed.

(** A parameter whose tensor object is under no earlier name is listed by
    [named_parameters], under its name. *)
Lemma lookup_named_parameters_from (k : string) (l : nat)
  (st2 : list (string * (bool * nat))) :
  forall (st1 : list (string * (bool * nat))) (seen : list nat),
  ~ In l seen -> ~ In k (keys st1) ->
  (forall k' b', ~ In (k', (b', l)) st1) ->
  lookup k (named_parameters_from seen (st1 ++ (k, (false, l)) :: st2)) = Some l.
Proof.
  induction st1 as [|[k' [b' l']] st1 IH]; intros seen Hseen Hk Hloc;
    cbn [app named_parameters_from].
  - cbn [orb].
    destruct (existsb (Nat.eqb l) seen) eqn:Hex.
    + exfalso. apply Hseen. apply existsb_exists in Hex.
      destruct Hex as [x [Hx Heq]]. apply Nat.eqb_eq in Heq. subst x. assumption.
    + cbn [lookup]. rewrite String.eqb_refl. reflexivity.
  - assert (Hk' : k <> k').
    { intros ->. apply Hk. left. reflexivity. }
    assert (Hl' : l' <> l).
    { intros ->. apply (Hloc k' b'). left. reflexivity. }
    assert (Hk1 : ~ In k (keys st1)).
    { intros Hin. apply Hk. right. assumption. }
    assert (Hloc1 : forall k'' b'', ~ In (k'', (b'', l)) st1).
    { intros k'' b'' Hin. apply (Hloc k'' b''). right. assumption. }
    destruct (b' || existsb (Nat.eqb l') seen).
    + apply IH; assumption.
    + cbn [lookup]. apply String.eqb_neq in Hk'. rewrite Hk'.
      apply IH; try assumption.
      intros [Heq|Hin]; [apply Hl'; assumption | apply Hseen; assumption].
Qed.

Lemma In_named_parameters_from (k : string) (l : nat) :
  forall (st : list (string * (bool * nat))) (seen : list nat),
  In (k, l) (named_parameters_from seen st) -> In (k, (false, l)) st.
Proof.
  induction st as [|[k' [b' l']] st IH]; intros seen; cbn [named_parameters_from];
    [intros []|].
  destruct b'; cbn [orb].
  - intros Hin. right. apply (IH _ Hin).
  - destruct (existsb (Nat.eqb l') seen).
    + intros Hin. right. apply (IH _ Hin).
    + intros [Heq|Hin]; [left; inversion Heq; reflexivity | right; apply (IH _ Hin)].
Qed.

(** The dict [params] of [write_model]. *)
Lemma params_Ok (hp : heap F) (nps : list (string * nat)) :
  (forall k l, In (k, l) nps -> l < length hp) ->
  exists params,
    mapM (fun '(name, l) => t <- deref hp l ;; Ok (name, t)) nps = Ok params /\
    forall k, lookup k params =
              match lookup k nps with
              | Some l => nth_error hp l
              | None => None
              end.
Proof.
  induction nps as [|[k l] nps IH]; intros Hlocs; cbn [mapM].
  - exists []. split; reflexivity.
  - destruct IH as [params [Hparams Hlookup]].
    { intros k' l' Hin. apply (Hlocs k' l'). right. assumption. }
    unfold deref at 1.
    destruct (nth_error hp l) as [t|] eqn:Ht.
    + cbn [bind]. rewrite Hparams. cbn [bind].
      exists ((k, t) :: params). split; [reflexivity|].
      intros k'. cbn [lookup]. destruct (String.eqb k' k); [symmetry; assumption|].
      apply Hlookup.
    + apply nth_error_None in Ht. specialize (Hlocs k l (or_introl eq_refl)). lia.
Qed.

Lemma GPT_init_inv (cfg : GPTConfig) (init : string -> list nat -> F)
  (model : GPTObject) (hp : heap F) :
  GPT_init cfg init = Ok (model, hp) ->
  exists w,
    lookup "lm_head.weight" (fresh_state cfg) = Some w /\
    model = mkGPTObject cfg (setitem "transformer.wte.weight" w (fresh_state cfg)) /\
    hp = map (new_tensor init) (GPT_specs cfg).
Proof.
  intros Hinit.
  assert (Hcfg : n_layer cfg = 0 \/ heads_divide cfg).
  { unfold GPT_init in Hinit. destruct (Nat.eqb_spec (n_layer cfg) 0) as [H0|HL];
      [left; assumption|]. right.
    destruct (Nat.eqb_spec (n_head cfg) 0) as [Hnh|Hnh]; [discriminate|].
    destruct (Nat.eqb_spec (n_embd cfg mod n_head cfg) 0) as [Hmod|Hmod];
      [split; assumption | discriminate]. }
  destruct (@GPT_init_Ok F _ cfg init Hcfg) as [w [Hw Hinit']].
  exists w. split; [assumption|]. split; congruence.
Qed.

(** The names of the checkpoint are names of parameters of the model, and
    none of them is [lm_head.weight]. *)
Lemma fp32_order_specs (cfg : GPTConfig) (name : string) :
  In name (fp32_order (n_layer cfg)) ->
  name <> "lm_head.weight"%string /\
  exists shp, In (name, (false, shp)) (GPT_specs cfg).
Proof.
  unfold fp32_order, GPT_specs. intros Hin.
  apply in_app_or in Hin. destruct Hin as [Hin|Hin].
  { cbn [In] in Hin. destruct Hin as [<-|[<-|[]]]; (split; [discriminate|]);
      eexists; apply in_or_app; left; cbn [In]; [left | right; left]; reflexivity. }
  apply in_app_or in Hin. destruct Hin as [Hin|Hin].
  - apply in_flat_map in Hin. destruct Hin as [suffix [Hsuffix Hin]].
    apply in_map_iff in Hin. destruct Hin as [i [<- Hi]].
    split.
    + unfold layer_prefix. cbn [String.append]. discriminate.
    + assert (Hblock : exists shp,
                In ((layer_prefix i ++ suffix)%string, (false, shp)) (block_specs cfg i)).
      { unfold layer_params in Hsuffix. cbn [In] in Hsuffix. unfold block_specs.
        repeat (destruct Hsuffix as [<-|Hsuffix];
                [eexists; cbn [In]; tauto|]).
        destruct Hsuffix. }
      destruct Hblock as [shp Hshp]. exists shp.
      apply in_or_app. right. apply in_or_app. left.
      apply in_flat_map. exists i. split; assumption.
  - cbn [In] in Hin. destruct Hin as [<-|[<-|[]]]; (split; [discriminate|]);
      eexists; apply in_or_app; right; apply in_or_app; right; cbn [In];
      [left | right; left]; reflexivity.
Qed.

End NamedParameters.

Section WriteModel.

Context {F : Type} `{Scalar F}.

Lemma flat_map_ext_in {A B : Type} (f g : A -> list B) (l : list A) :
  (forall a, In a l -> f a = g a) -> flat_map f l = flat_map g l.
Proof.
  induction l as [|a l IH]; intros Hfg; cbn [flat_map]; [reflexivity|].
  rewrite (Hfg a (or_introl eq_refl)), IH; [reflexivity|].
  intros a' Ha'. apply Hfg. right. assumption.
Qed.

Lemma GPT_names_head (cfg : GPTConfig) :
  exists tl, map fst (GPT_specs cfg) = "transformer.wte.weight"%string :: tl.
Proof. unfold GPT_specs. cbn [app map fst]. eexists. reflexivity. Qed.

Lemma fresh_lm_head (cfg : GPTConfig) (bw : bool) (lw : nat) :
  lookup "lm_head.weight" (fresh_state cfg) = Some (bw, lw) ->
  bw = false /\ lw < length (GPT_specs cfg) /\
  forall k b, In (k, (b, lw)) (fresh_state cfg) -> k = "lm_head.weight"%string.
Proof.
  intros Hw. apply lookup_In_pair in Hw.
  pose proof (fresh_state_loc Hw) as Hlw.
  destruct (In_fresh_state_spec Hw) as [shp Hnth].
  pose proof Hnth as Hspec. apply lookup_spec in Hspec.
  rewrite lookup_lm_head_spec in Hspec.
  split; [congruence|]. split; [assumption|].
  intros k b Hin. destruct (In_fresh_state_spec Hin) as [shp' Hnth'].
  congruence.
Qed.

(** In a constructed model every name of the checkpoint is bound to a
    parameter, and [named_parameters] lists it under that name. *)
Lemma constructed_named_parameter (cfg : GPTConfig) (w : bool * nat) (name : string) :
  lookup "lm_head.weight" (fresh_state cfg) = Some w ->
  In name (fp32_order (n_layer cfg)) ->
  exists l,
    lookup name (setitem "transformer.wte.weight" w (fresh_state cfg)) = Some (false, l) /\
    lookup name (named_parameters_from []
                   (setitem "transformer.wte.weight" w (fresh_state cfg))) = Some l /\
    l < length (GPT_specs cfg).
Proof.
  intros Hw Hname. destruct w as [bw lw].
  destruct (@fresh_lm_head cfg bw lw Hw) as [-> [Hlw Honly]].
  pose proof Hname as Hspecs. apply fp32_order_specs in Hspecs. destruct Hspecs as [Hne [shp Hshp]].
  set (st := setitem "transformer.wte.weight" (false, lw) (fresh_state cfg)).
  assert (Hkeys : keys st = map fst (GPT_specs cfg)).
  { unfold st. rewrite keys_setitem. apply keys_fresh_state. }
  assert (Hnd : NoDup (keys st)) by (rewrite Hkeys; apply NoDup_GPT_names).
  assert (Hin_fresh : forall k b l, In (k, (b, l)) (fresh_state cfg) ->
            exists s, In (k, (b, s)) (GPT_specs cfg) /\ l < length (GPT_specs cfg) /\
                      forall k' b', In (k', (b', l)) (fresh_state cfg) -> k' = k).
  { intros k b l Hin. destruct (In_fresh_state_spec Hin) as [s Hs].
    exists s. split; [eapply nth_error_In; eassumption|].
    split; [eapply fresh_state_loc; eassumption|].
    intros k' b' Hin'. destruct (In_fresh_state_spec Hin') as [s' Hs'].
    congruence. }
  assert (Hname_in : In name (keys st)).
  { rewrite Hkeys. apply in_map_iff. exists (name, (false, shp)). split; [reflexivity | assumption]. }
  apply lookup_In in Hname_in. destruct Hname_in as [[b l] Hlookup].
  pose proof Hlookup as Hentry. apply lookup_In_pair in Hentry.
  assert (Hb : b = false /\ l < length (GPT_specs cfg)).
  { unfold st in Hentry. apply In_setitem in Hentry.
    destruct Hentry as [[_ Heq]|Hfresh].
    - inversion Heq. split; [reflexivity | assumption].
    - destruct (Hin_fresh _ _ _ Hfresh) as [s [Hs [Hl _]]].
      split; [|assumption].
      pose proof (@lookup_NoDup _ _ _ _ (NoDup_GPT_names cfg) Hs) as H1.
      pose proof (@lookup_NoDup _ _ _ _ (NoDup_GPT_names cfg) Hshp) as H2.
      congruence. }
  destruct Hb as [-> Hl].
  exists l. split; [assumption|]. split; [|assumption].
  destruct (in_split _ _ Hentry) as [st1 [st2 Hsplit]].
  fold st. rewrite Hsplit.
  assert (Hnot : ~ In name (keys st1)).
  { rewrite Hsplit in Hnd. unfold keys in Hnd. rewrite map_app in Hnd. cbn [map fst] in Hnd.
    apply NoDup_remove_2 in Hnd. intros Hin. apply Hnd. apply in_or_app. left. assumption. }
  apply lookup_named_parameters_from; [intros [] | assumption |].
  intros k' b' Hin'.
  assert (Hk'1 : In k' (keys st1)).
  { apply in_map_iff. exists (k', (b', l)). split; [reflexivity | assumption]. }
  assert (Hin'_st : In (k', (b', l)) st).
  { rewrite Hsplit. apply in_or_app. left. assumption. }
  assert (Hk'_ne : k' <> name) by (intros ->; apply Hnot; assumption).
  unfold st in Hentry, Hin'_st.
  apply In_setitem in Hentry. apply In_setitem in Hin'_st.
  destruct Hentry as [[Hn Heq]|Hfresh], Hin'_st as [[Hn' Heq']|Hfresh'].
  - congruence.
  - (* [name] is the token embedding: it is the first name *)
    destruct (GPT_names_head cfg) as [tl Htl].
    rewrite <- Hkeys, Hsplit in Htl. unfold keys in Htl. rewrite map_app in Htl.
    destruct st1 as [|e st1]; [destruct Hin'|].
    cbn [map app] in Htl. inversion Htl as [[Hhead Htail]].
    apply Hnot. left. congruence.
  - inversion Heq'. subst l. apply Hne. apply (Honly name false). assumption.
  - destruct (Hin_fresh _ _ _ Hfresh) as [_ [_ [_ Hsame]]].
    apply Hk'_ne. apply (Hsame k' b'). assumption.
Qed.

(** The parameter checkpoint of a constructed model, in full precision.
    For a model built by [GPT.__init__], in any later state of its tensors,
    and a config whose five numbers fit 32 bits, [write_model] with dtype
    [float32] writes the 256 integers of the header (the magic number
    20240326, the version 1, [block_size], [vocab_size], [n_layer],
    [n_head], [n_embd], then zeros) and after them the entries of the
    tensors that the model holds under the names of [fp32_order], in that
    order; every one of these names is bound.  Neither the causal masks nor
    a second copy of the tied output projection is written. *)
Theorem write_model_fp32_contents (cfg : GPTConfig) (init : string -> list nat -> F)
  (model : GPTObject) (hp0 hp : heap F) :
  GPT_init cfg init = Ok (model, hp0) -> length hp = length hp0 ->
  (Z.of_nat (block_size cfg) < 2 ^ 31)%Z -> (Z.of_nat (vocab_size cfg) < 2 ^ 31)%Z ->
  (Z.of_nat (n_layer cfg) < 2 ^ 31)%Z -> (Z.of_nat (n_head cfg) < 2 ^ 31)%Z ->
  (Z.of_nat (n_embd cfg) < 2 ^ 31)%Z ->
  write_model model hp "float32" =
    Ok (map (@I32 F)
          ([20240326; 1; Z.of_nat (block_size cfg); Z.of_nat (vocab_size cfg);
            Z.of_nat (n_layer cfg); Z.of_nat (n_head cfg); Z.of_nat (n_embd cfg)]
           ++ repeat 0 249)%Z
        ++ flat_map (fun name => match read model hp name with
                                 | Some t => map (@F32 F) (flatten t)
                                 | None => []
                                 end)
                    (fp32_order (n_layer cfg))) /\
  (forall name, In name (fp32_order (n_layer cfg)) -> read model hp name <> None) /\
  ~ In "lm_head.weight"%string (fp32_order (n_layer cfg)).
Proof.
  intros Hinit Hlen Hbs Hvs Hnl Hnh Hne.
  pose proof Hinit as Hinv. apply GPT_init_inv in Hinv. destruct Hinv as [w [Hw [-> ->]]].
  rewrite length_map in Hlen.
  set (st := setitem "transformer.wte.weight" w (fresh_state cfg)).
  assert (Hread : forall name, In name (fp32_order (n_layer cfg)) ->
            exists l t, lookup name (named_parameters_from [] st) = Some l /\
                        nth_error hp l = Some t /\
                        read (mkGPTObject cfg st) hp name = Some t).
  { intros name Hname.
    destruct (@constructed_named_parameter cfg w name Hw Hname) as [l [Hst [Hnp Hl]]].
    destruct (nth_error hp l) as [t|] eqn:Ht.
    - exists l, t. split; [assumption|]. split; [assumption|].
      unfold read. cbn [o_state]. unfold loc in *. subst st. rewrite Hst. assumption.
    - apply nth_error_None in Ht. lia. }
  split; [|split].
  - unfold write_model. cbn [existsb]. rewrite String.eqb_refl.
    cbn [orb assert_ bind o_config].
    unfold model_header, int32.
    apply Z.ltb_lt in Hbs, Hvs, Hnl, Hnh, Hne.
    rewrite Hbs, Hvs, Hnl, Hnh, Hne. cbn [torch_check bind].
    destruct (@params_Ok F hp (named_parameters (mkGPTObject cfg st)))
      as [params [Hparams Hlookup]].
    { intros k l Hin. unfold named_parameters in Hin. cbn [o_state] in Hin.
      apply In_named_parameters_from in Hin. unfold st in Hin.
      apply In_setitem in Hin. rewrite Hlen.
      destruct Hin as [[_ Heq]|Hfresh].
      - destruct w as [bw lw]. inversion Heq. subst.
        apply (@fresh_lm_head cfg _ _ Hw).
      - eapply fresh_state_loc. eassumption. }
    rewrite Hparams. cbn [bind].
    rewrite write_tensors_fp32_fold, foldM_write_named_Ok.
    + f_equal. f_equal. apply flat_map_ext_in. intros name Hname.
      destruct (Hread name Hname) as [l [t [Hnp [Ht Hr]]]].
      unfold fp32_of. rewrite Hlookup. unfold named_parameters. cbn [o_state].
      unfold loc in *. rewrite Hnp, Ht, Hr. reflexivity.
    + intros name Hname.
      destruct (Hread name Hname) as [l [t [Hnp [Ht Hr]]]].
      rewrite Hlookup. unfold named_parameters. cbn [o_state].
      unfold loc in *. rewrite Hnp, Ht. discriminate.
  - intros name Hname. destruct (Hread name Hname) as [l [t [_ [_ Hr]]]].
    rewrite Hr. discriminate.
  - intros Hin. apply fp32_order_specs in Hin. apply (proj1 Hin). reflexivity.
Qed.

End WriteModel.

Lemma write_model_fp32_contents_witness :
  exists model hp,
    GPT_init tiny_config (fun _ _ => 1%R) = Ok (model, hp) /\
    write_model model hp "float32" =
      Ok (map (@I32 R) ([20240326; 1; 2; 3; 1; 1; 2] ++ repeat 0 249)%Z
          ++ flat_map (fun name => match read model hp name with
                                   | Some t => map (@F32 R) (flatten t)
                                   | None => []
                                   end)
                      (fp32_order 1)).
Proof.
  destruct (@GPT_init_Ok R R_Scalar tiny_config (fun _ _ => 1%R)
              (or_intror heads_divide_tiny)) as [w [_ Hinit]].
  eexists. eexists. split; [exact Hinit|].
  apply (@write_model_fp32_contents R R_Scalar tiny_config (fun _ _ => 1%R) _ _ _
           Hinit eq_refl); reflexivity.
Defined.

(* ------------------------------------------------------------------ *)
(** * The half-precision checkpoint *)

Section CheckpointBf16.

Context {F : Type} `{Scalar F}.

Lemma foldM_write_named_bf16_cons (d : list (string * PTensor F)) (name : string)
  (l : list string) (file : list (datum F)) :
  foldM (write_named_bf16 d) (name :: l) file =
  (t <- getitem d name ;; foldM (write_named_bf16 d) l (write_bf16 t file)).
Proof.
  cbn [foldM]. unfold write_named_bf16 at 1.
  destruct (getitem d name); reflexivity.
Qed.

Lemma bind_assoc {A B C : Type} (c : result A) (k : A -> result B)
  (k' : B -> result C) :
  bind (bind c k) k' = bind c (fun a => bind (k a) k').
Proof. destruct c; reflexivity. Qed.

(** [write_tensors_bf16] is a loop over the names of [bf16_names] followed
    by a loop over those of [fp32_names]. *)
Lemma write_tensors_bf16_fold (d : list (string * PTensor F)) (L : nat)
  (file : list (datum F)) :
  write_tensors_bf16 d L file =
  (file <- foldM (write_named_bf16 d) (bf16_names L) file ;;
   foldM (write_named d) (fp32_names L) file).
Proof.
  unfold write_tensors_bf16, bf16_names, fp32_names. cbn [flat_map].
  rewrite <- !app_assoc. cbn [app].
  rewrite foldM_write_named_bf16_cons, bind_assoc.
  apply bind_ext. intros t1. cbv beta zeta.
  rewrite foldM_write_named_bf16_cons, bind_assoc.
  apply bind_ext. intros t2. cbv beta zeta.
  do 8 (rewrite foldM_app, bind_assoc, foldM_map; apply bind_ext; intros ?).
  cbn [foldM bind].
  do 4 (rewrite foldM_app, foldM_map; apply bind_ext; intros ?).
  rewrite foldM_write_named_cons. apply bind_ext. intros t3. cbv beta zeta.
  rewrite foldM_write_named_cons. apply bind_ext. intros t4. reflexivity.
Qed.

Lemma foldM_write_named_bf16_Ok (d : list (string * PTensor F)) (names : list string)
  (file : list (datum F)) :
  (forall name, In name names -> lookup name d <> None) ->
  foldM (write_named_bf16 d) names file = Ok (file ++ flat_map (bf16_of d) names).
Proof.
  revert file. induction names as [|name names IH]; intros file Hall.
  - cbn [foldM flat_map]. rewrite app_nil_r. reflexivity.
  - rewrite foldM_write_named_bf16_cons. unfold getitem.
    cbn [flat_map]. unfold bf16_of at 1.
    destruct (lookup name d) as [t|] eqn:Ht.
    + cbn [bind]. rewrite IH by (intros n Hn; apply Hall; right; assumption).
      unfold write_bf16. rewrite <- app_assoc. reflexivity.
    + exfalso. apply (Hall name); [left; reflexivity | assumption].
Qed.

(** The body of a half-precision checkpoint.  [write_tensors_bf16] writes
    the tensors of the same names in the same order as [write_tensors_fp32]:
    first those of the two embeddings and of the eight kinds of attention
    and feed-forward parameters, in half precision, then those of the layer
    normalisations and of the final normalisation, in full precision. *)
Theorem write_tensors_bf16_order (d : list (string * PTensor F)) (L : nat)
  (file : list (datum F)) :
  (forall name, In name (fp32_order L) -> lookup name d <> None) ->
  write_tensors_bf16 d L file =
    Ok (file ++ flat_map (bf16_of d) (bf16_names L)
             ++ flat_map (fp32_of d) (fp32_names L)) /\
  bf16_names L ++ fp32_names L = fp32_order L.
Proof.
  intros Hall.
  assert (Horder : bf16_names L ++ fp32_names L = fp32_order L).
  { unfold bf16_names, fp32_names, fp32_order, layer_params. cbn [flat_map].
    rewrite <- !app_assoc. reflexivity. }
  split; [|assumption].
  rewrite write_tensors_bf16_fold.
  rewrite foldM_write_named_bf16_Ok.
  - cbn [bind]. rewrite foldM_write_named_Ok.
    + rewrite <- app_assoc. reflexivity.
    + intros name Hname. apply Hall. rewrite <- Horder.
      apply in_or_app. right. assumption.
  - intros name Hname. apply Hall. rewrite <- Horder.
    apply in_or_app. left. assumption.
Qed.

End CheckpointBf16.

Lemma write_tensors_bf16_order_witness :
  write_tensors_bf16 tensors_1 1 [] =
    Ok ([] ++ flat_map (bf16_of tensors_1) (bf16_names 1)
           ++ flat_map (fp32_of tensors_1) (fp32_names 1)) /\
  bf16_names 1 ++ fp32_names 1 = fp32_order 1.
Proof.
  apply (@write_tensors_bf16_order R tensors_1 1 []).
  intros name Hin. unfold tensors_1. apply lookup_map_self. exact Hin.
Defined.

(* ------------------------------------------------------------------ *)
(** * Softmax over the reals *)

#[local] Open Scope R_scope.

Lemma R_fzero : (fzero : R) = 0.
Proof. unfold fzero. cbn. unfold Q2R. cbn. lra. Qed.

Lemma fold_left_Rplus (l : list R) (a : R) :
  fold_left Rplus l a = a + fold_left Rplus l 0.
Proof.
  revert a. induction l as [|x l IH]; intros a; cbn [fold_left]; [lra|].
  rewrite (IH (a + x)), (IH (0 + x)). lra.
Qed.

Lemma R_sum_nil : sum (@nil R) = 0.
Proof. unfold sum. cbn [fold_left]. apply R_fzero. Qed.

Lemma R_sum_cons (x : R) (l : list R) : sum (x :: l) = x + sum l.
Proof.
  unfold sum. cbn [fold_left fadd R_Scalar]. rewrite R_fzero.
  rewrite fold_left_Rplus. lra.
Qed.

Lemma R_xexp_nonneg (x : option R) : 0 <= xexp x.
Proof.
  destruct x as [v|]; cbn [xexp fexp R_Scalar].
  - apply Rlt_le. apply exp_pos.
  - rewrite R_fzero. lra.
Qed.

Lemma R_sum_xexp_nonneg (row : list (option R)) : 0 <= sum (map xexp row).
Proof.
  induction row as [|x row IH]; cbn [map].
  - rewrite R_sum_nil. lra.
  - rewrite R_sum_cons. pose proof (R_xexp_nonneg x). lra.
Qed.

Lemma R_xexp_le_sum (row : list (option R)) (x : option R) :
  In x row -> xexp x <= sum (map xexp row).
Proof.
  induction row as [|y row IH]; [intros []|].
  cbn [map]. rewrite R_sum_cons. intros [->|Hin].
  - pose proof (R_sum_xexp_nonneg row). lra.
  - pose proof (R_xexp_nonneg y). specialize (IH Hin). lra.
Qed.

Lemma R_sum_scale (s : R) (l : list R) :
  sum (map (fun x => x / s) l) = sum l / s.
Proof.
  induction l as [|x l IH]; cbn [map].
  - rewrite R_sum_nil. lra.
  - rewrite !R_sum_cons, IH. lra.
Qed.

(** [F.softmax] gives a probability distribution.  On a row with at least
    one entry other than minus infinity, the outputs sum to 1, an entry that
    is minus infinity gets the output 0 and every other entry an output in
    (0, 1]: what the causal mask or the top-k filter removed has no weight
    at all. *)
Theorem F_softmax_distribution (row : list (option R)) :
  (exists v, In (Some v) row) ->
  sum (F_softmax row) = 1 /\
  Forall2 (fun x p => match x with
                      | None => p = 0
                      | Some _ => 0 < p <= 1
                      end) row (F_softmax row).
Proof.
  intros [v Hv]. unfold F_softmax.
  set (s := sum (map xexp row)).
  assert (Hs : 0 < s).
  { pose proof (R_xexp_le_sum _ _ Hv) as Hle. cbn [xexp fexp R_Scalar] in Hle.
    pose proof (exp_pos v). unfold s. lra. }
  split.
  - cbn [fdiv R_Scalar].
    replace (map (fun x => xexp x / s) row)
      with (map (fun y => y / s) (map xexp row)) by (rewrite map_map; reflexivity).
    rewrite R_sum_scale. fold s. field. lra.
  - assert (Hall : forall x, In x row -> xexp x <= s)
      by (intros x Hx; apply R_xexp_le_sum; assumption).
    clearbody s. clear Hv.
    induction row as [|x row IH]; cbn [map]; constructor.
    + cbn [fdiv R_Scalar]. destruct x as [u|].
      * specialize (Hall (Some u) (or_introl eq_refl)).
        cbn [xexp fexp R_Scalar] in *. pose proof (exp_pos u). split.
        -- apply Rdiv_lt_0_compat; assumption.
        -- apply Rmult_le_reg_r with (r := s); [assumption|].
           unfold Rdiv. rewrite Rmult_assoc, Rinv_l by lra. lra.
      * cbn [xexp]. rewrite R_fzero. lra.
    + apply IH. intros y Hy. apply Hall. right. assumption.
Qed.

Lemma F_softmax_distribution_witness :
  sum (F_softmax [Some 1; None; Some 2]) = 1 /\
  Forall2 (fun x p => match x with
                      | None => p = 0
                      | Some _ => 0 < p <= 1
                      end) [Some 1; None; Some 2] (F_softmax [Some 1; None; Some 2]).
Proof.
  apply (F_softmax_distribution [Some 1; None; Some 2]).
  exists 1. left. reflexivity.
Defined.

#[local] Close Scope R_scope.

(* ------------------------------------------------------------------ *)
(** * Token ids out of range *)

Section TokenRange.

Context {F : Type} `{Scalar F}.

Lemma mapM_Ok_or_Raise {A B : Type} (f : A -> result B) (e : exn) (l : list A) :
  (forall a, In a l -> (exists b, f a = Ok b) \/ f a = Raise e) ->
  (exists bs, mapM f l = Ok bs) \/ mapM f l = Raise e.
Proof.
  induction l as [|a l IH]; intros Hf; cbn [mapM].
  - left. eexists. reflexivity.
  - destruct (Hf a (or_introl eq_refl)) as [[b Hb]|Hb]; rewrite Hb; cbn [bind];
      [|right; reflexivity].
    destruct IH as [[bs Hbs]|Hbs].
    + intros a' Ha'. apply Hf. right. assumption.
    + rewrite Hbs. left. eexists. reflexivity.
    + rewrite Hbs. right. reflexivity.
Qed.

Lemma mapM_Raise {A B : Type} (f : A -> result B) (e : exn) (l : list A) (a : A) :
  (forall a, In a l -> (exists b, f a = Ok b) \/ f a = Raise e) ->
  In a l -> f a = Raise e -> mapM f l = Raise e.
Proof.
  induction l as [|a' l IH]; intros Hf Hin Ha; [destruct Hin|]. cbn [mapM].
  destruct Hin as [->|Hin].
  - rewrite Ha. reflexivity.
  - destruct (Hf a' (or_introl eq_refl)) as [[b Hb]|Hb]; rewrite Hb; cbn [bind];
      [|reflexivity].
    rewrite IH; [reflexivity | | assumption | assumption].
    intros a'' Ha''. apply Hf. right. assumption.
Qed.

Lemma embedding_lookup_Ok_or_IndexError (e : Embedding F) (i : Z) :
  (exists row, embedding_lookup e i = Ok row) \/ embedding_lookup e i = Raise IndexError.
Proof.
  unfold embedding_lookup.
  destruct ((0 <=? i)%Z && (i <? Z.of_nat (num_embeddings e))%Z); [|right; reflexivity].
  destruct (nth_error (e_weight e) (Z.to_nat i)); [left; eexists|right]; reflexivity.
Qed.

Lemma embedding_lookup_out_of_range (e : Embedding F) (i : Z) :
  ~ (0 <= i < Z.of_nat (num_embeddings e))%Z ->
  embedding_lookup e i = Raise IndexError.
Proof.
  intros Hi. unfold embedding_lookup.
  destruct (Z.leb_spec 0 i) as [H0|H0]; [|reflexivity].
  destruct (Z.ltb_spec i (Z.of_nat (num_embeddings e))) as [H1|H1]; [|reflexivity].
  exfalso. apply Hi. split; assumption.
Qed.

(** A token id that is not in the vocabulary.  When the sequences are no
    longer than [block_size] and some token id of the batch is negative or
    at least [vocab_size], [GPT.forward] raises [IndexError], with or without
    targets: the id is neither clamped nor wrapped, and no logits are
    returned. *)
Theorem GPT_forward_token_out_of_range (self : GPT F) (idx : LongTensor)
  (targets : option LongTensor) (row : list Z) (i : Z) :
  num_embeddings (wte self) = vocab_size (config self) ->
  snd (lt_size idx) <= block_size (config self) ->
  In row (lt_data idx) -> In i row ->
  ~ (0 <= i < Z.of_nat (vocab_size (config self)))%Z ->
  GPT_forward self idx targets = Raise IndexError.
Proof.
  intros Hn HT Hrow Hi Hrange. unfold GPT_forward.
  destruct (lt_size idx) as [b t] eqn:Hs. cbn [snd] in HT.
  apply Nat.leb_le in HT. rewrite HT. cbn [assert_ bind].
  unfold Embedding_forward. rewrite Hs.
  assert (Hrows : forall r, In r (lt_data idx) ->
            (exists m, mapM (embedding_lookup (wte self)) r = Ok m) \/
            mapM (embedding_lookup (wte self)) r = Raise IndexError).
  { intros r _. apply mapM_Ok_or_Raise. intros a _.
    apply embedding_lookup_Ok_or_IndexError. }
  rewrite (@mapM_Raise _ _ (mapM (embedding_lookup (wte self))) IndexError
             (lt_data idx) row Hrows Hrow).
  - reflexivity.
  - apply (@mapM_Raise _ _ (embedding_lookup (wte self)) IndexError row i).
    + intros a _. apply embedding_lookup_Ok_or_IndexError.
    + assumption.
    + apply embedding_lookup_out_of_range. rewrite Hn. assumption.
Qed.

End TokenRange.

Lemma GPT_forward_token_out_of_range_witness :
  GPT_forward (tiny_GPT (F := R)) (mkLongTensor (1, 2) [[0; 3]]%Z) None = Raise IndexError.
Proof.
  apply (@GPT_forward_token_out_of_range R R_Scalar tiny_GPT
           (mkLongTensor (1, 2) [[0; 3]]%Z) None [0; 3]%Z 3%Z).
  - reflexivity.
  - cbn. lia.
  - left. reflexivity.
  - right. left. reflexivity.
  - cbn. lia.
Defined.
